(** * Lights On: a shallow embedding of [lightson.py]

    The Python script solves the "Lights Out" puzzle as it appears in Heroes of
    Hammerwatch (all lights must end up on).  This development embeds the three
    classes of the script -- [BoardState], [BoardClicker] and
    [LightsOnSolutionAlgorithm] -- and states the properties of the board
    model, of the click rule and of the breadth-first solver.

    Python integers are unbounded, so [_board], [width] and [height] are [Z];
    the bitwise operators [&], [|], [^] and [<<] are [Z.land], [Z.lor],
    [Z.lxor] and [Z.shiftl], which agree with Python on negative numbers too
    (two's complement of infinite width).  [BoardState] objects are mutable and
    shared by reference (the solver's dictionary, its queue and the
    [next_solution_board] links all alias them), so they live in an explicit
    object store and the methods that allocate or assign run in a small
    state-and-exception monad. *)

From stdpp Require Import gmap strings list fin_maps pretty.
From Stdlib Require Import ZArith Lia Ascii.

Open Scope Z_scope.

(** ** Python values *)

Definition Coordinates : Type := Z * Z.

(** A reference to a [BoardState] object: its index in the object store. *)
Definition loc : Type := nat.

(** The exceptions the embedded code can raise.  [InvalidReference] is not a
    Python exception: it marks the dereference of a location that was never
    allocated, which no Python program can write down. *)
Inductive exn : Type :=
| ValueError
| TypeError
| InvalidReference.

Inductive result (A : Type) : Type :=
| Ok (a : A)
| Raise (e : exn)
| OutOfFuel.

Arguments Ok {A} a.
Arguments Raise {A} e.
Arguments OutOfFuel {A}.

(** The attributes [BoardState.__init__] creates. *)
Record BoardState : Type := mkBoardState {
  width : Z;
  height : Z;
  steps_from_solution : option Z;
  next_solution_coordinates : option Coordinates;
  next_solution_board : option loc;
  _board : Z
}.

Global Instance BoardState_inhabited : Inhabited BoardState :=
  populate (mkBoardState 0 0 None None None 0).

(** ** [BoardState]: the methods that only read *)

(** [range(n)] for one integer argument. *)
Definition range (n : Z) : list Z := Z.of_nat <$> seq 0 (Z.to_nat n).

(** [a << n]; Python raises [ValueError] on a negative shift count. *)
Definition py_shiftl (a n : Z) : result Z :=
  if n <? 0 then Raise ValueError else Ok (Z.shiftl a n).

(** [__eq__]: the three comparisons of the list given to [all]. *)
Definition BoardState_eq (self other : BoardState) : bool :=
  (_board self =? _board other) && (width self =? width other)
  && (height self =? height other).

Definition _coordinates_bit (self : BoardState) (coordinates : Coordinates)
  : result Z :=
  let '(x, y) := coordinates in
  py_shiftl 1 (width self * y + x).

Fixpoint _invert_mask_from (self : BoardState) (mask : Z)
    (coordinates_list : list Coordinates) : result Z :=
  match coordinates_list with
  | [] => Ok mask
  | coordinates :: rest =>
      match _coordinates_bit self coordinates with
      | Ok bit => _invert_mask_from self (Z.lor mask bit) rest
      | Raise e => Raise e
      | OutOfFuel => OutOfFuel
      end
  end.

Definition _invert_mask (self : BoardState) (coordinates_list : list Coordinates)
  : result Z :=
  _invert_mask_from self 0 coordinates_list.

(** The generator [coordinates]: [x] is the outer loop, [y] the inner one. *)
Definition coordinates (self : BoardState) : list Coordinates :=
  x ← range (width self); (λ y, (x, y)) <$> range (height self).

Definition is_set (self : BoardState) (coordinates : Coordinates) : result bool :=
  match _coordinates_bit self coordinates with
  | Ok bit => Ok (negb (Z.land (_board self) bit =? 0))
  | Raise e => Raise e
  | OutOfFuel => OutOfFuel
  end.

(** The f-string [f"{self.width}:{self.height}:{self._board}"]; [pretty] prints
    an integer in decimal with a leading [-] when negative, as [str] does. *)
Definition key (self : BoardState) : string :=
  pretty (width self) +:+ ":" +:+ pretty (height self) +:+ ":"
  +:+ pretty (_board self).

Definition valid_coordinates (self : BoardState) (coordinates : Coordinates)
  : bool :=
  let '(x, y) := coordinates in
  ((0 <=? x) && (x <? width self)) && ((0 <=? y) && (y <? height self)).

(** ** Strings and [int(_, base=2)], as [solution_board] uses them *)

(** [s * n] on a string: [n] copies, none when [n <= 0]. *)
Definition str_mul (s : string) (n : Z) : string :=
  Nat.iter (Z.to_nat n) (λ acc, s +:+ acc) EmptyString.

Fixpoint parse_bits (acc : Z) (s : string) : result Z :=
  match s with
  | EmptyString => Ok acc
  | String c rest =>
      if Ascii.eqb c "0"%char then parse_bits (2 * acc) rest
      else if Ascii.eqb c "1"%char then parse_bits (2 * acc + 1) rest
      else Raise ValueError
  end.

(** [int(s, base=2)] on the literals the script builds: the prefix [0b]
    followed by at least one binary digit; anything else is a [ValueError]. *)
Definition int_base2 (s : string) : result Z :=
  match s with
  | String c0 (String c1 (String c rest)) =>
      if Ascii.eqb c0 "0"%char && Ascii.eqb c1 "b"%char
      then parse_bits 0 (String c rest)
      else Raise ValueError
  | _ => Raise ValueError
  end.

Arguments int_base2 : simpl never.
Arguments key : simpl never.

(** ** The object store and the solver's attributes *)

(** [heap] holds every [BoardState] object ever created, at the index that
    serves as its reference.  [discovered_boards] and [board_processing_queue]
    are the two attributes of the one [LightsOnSolutionAlgorithm] instance;
    both hold references, as the Python dictionary and list do. *)
Record State : Type := mkState {
  heap : list BoardState;
  discovered_boards : gmap string loc;
  board_processing_queue : list loc
}.

(** [LightsOnSolutionAlgorithm.__init__], in a program that has created no
    board yet. *)
Definition initial_state : State := mkState [] ∅ [].

(** A computation reads and writes the state and ends with a value, with an
    exception, or without fuel (the two [while] loops are bounded by fuel).
    The state reached is returned in every case: what was assigned before an
    exception stays assigned. *)
Definition M (A : Type) : Type := State → result A * State.

Definition ret {A} (a : A) : M A := λ st, (Ok a, st).

Definition bind {A B} (m : M A) (f : A → M B) : M B := λ st,
  match m st with
  | (Ok a, st') => f a st'
  | (Raise e, st') => (Raise e, st')
  | (OutOfFuel, st') => (OutOfFuel, st')
  end.

Definition raise {A} (e : exn) : M A := λ st, (Raise e, st).
Definition out_of_fuel {A} : M A := λ st, (OutOfFuel, st).
Definition gets {A} (f : State → A) : M A := λ st, (Ok (f st), st).
Definition modify (f : State → State) : M unit := λ st, (Ok tt, f st).

Definition lift {A} (r : result A) : M A := λ st, (r, st).

Declare Scope py_scope.
Delimit Scope py_scope with py.
Notation "x <- m ;; k" := (bind m (λ x, k))
  (at level 20, m at level 99, k at level 200, only parsing) : py_scope.
Notation "m ;; k" := (bind m (λ _, k))
  (at level 100, k at level 200, only parsing, right associativity) : py_scope.
Open Scope py_scope.

(** A [for] loop over a list, the body run for its effect. *)
Fixpoint for_each {A} (l : list A) (body : A → M unit) : M unit :=
  match l with
  | [] => ret tt
  | a :: rest => body a ;; for_each rest body
  end.

Definition set_heap (h : list BoardState) (st : State) : State :=
  mkState h (discovered_boards st) (board_processing_queue st).
Definition set_discovered_boards (d : gmap string loc) (st : State) : State :=
  mkState (heap st) d (board_processing_queue st).
Definition set_board_processing_queue (q : list loc) (st : State) : State :=
  mkState (heap st) (discovered_boards st) q.

(** Reading an object through a reference. *)
Definition deref (l : loc) : M BoardState := λ st,
  match heap st !! l with
  | Some bs => (Ok bs, st)
  | None => (Raise InvalidReference, st)
  end.

(** Assigning to one attribute of the object behind a reference. *)
Definition assign (l : loc) (f : BoardState → BoardState) : M unit :=
  bs <- deref l ;;
  modify (λ st, set_heap (<[l := f bs]> (heap st)) st).

Definition with_steps_from_solution (v : option Z) (bs : BoardState) :=
  mkBoardState (width bs) (height bs) v (next_solution_coordinates bs)
    (next_solution_board bs) (_board bs).
Definition with_next_solution_coordinates (v : option Coordinates)
    (bs : BoardState) :=
  mkBoardState (width bs) (height bs) (steps_from_solution bs) v
    (next_solution_board bs) (_board bs).
Definition with_next_solution_board (v : option loc) (bs : BoardState) :=
  mkBoardState (width bs) (height bs) (steps_from_solution bs)
    (next_solution_coordinates bs) v (_board bs).
Definition with_board (v : Z) (bs : BoardState) :=
  mkBoardState (width bs) (height bs) (steps_from_solution bs)
    (next_solution_coordinates bs) (next_solution_board bs) v.

(** ** [BoardState]: the methods that create objects *)

(** [BoardState(width, height)]: a new object, all lights off, nothing known
    about its solution. *)
Definition new_BoardState (width height : Z) : M loc := λ st,
  (Ok (length (heap st)),
   set_heap (heap st ++ [mkBoardState width height None None None 0]) st).

Definition solution_board (width height : Z) : M loc :=
  bs <- new_BoardState width height ;;
  b <- lift (int_base2 ("0b" +:+ str_mul (str_mul "1" width) height)) ;;
  assign bs (with_board b) ;;
  assign bs (with_steps_from_solution (Some 0)) ;;
  assign bs (with_next_solution_coordinates None) ;;
  assign bs (with_next_solution_board None) ;;
  ret bs.

Definition invert (self : loc) (coordinates_list : list Coordinates) : M loc :=
  this <- deref self ;;
  bs <- new_BoardState (width this) (height this) ;;
  assign bs (with_board (_board this)) ;;
  invert_mask <- lift (_invert_mask this coordinates_list) ;;
  assign bs (λ o, with_board (Z.lxor (_board o) invert_mask) o) ;;
  ret bs.

(** ** [BoardClicker] *)

Definition click (board_state : loc) (coordinates : Coordinates) : M loc :=
  let '(x, y) := coordinates in
  this <- deref board_state ;;
  let invert_coordinates :=
    filter (λ c, valid_coordinates this c = true)
      [(x - 1, y); (x, y); (x + 1, y); (x, y - 1); (x, y + 1)] in
  invert board_state invert_coordinates.

(** ** [LightsOnSolutionAlgorithm] *)

Definition queue_append (l : loc) : M unit :=
  modify (λ st,
    set_board_processing_queue (board_processing_queue st ++ [l]) st).

Definition discovered_get (k : string) : M (option loc) :=
  gets (λ st, discovered_boards st !! k).

Definition discovered_set (k : string) (l : loc) : M unit :=
  modify (λ st, set_discovered_boards (<[k := l]> (discovered_boards st)) st).

(** An attribute that must hold an integer in an arithmetic expression or a
    comparison: [None] there is a [TypeError]. *)
Definition as_int (v : option Z) : M Z :=
  match v with
  | Some n => ret n
  | None => raise TypeError
  end.

(** The body of the [for] loop of [_process_board_state]. *)
Definition process_coordinate (board_state : loc) (c : Coordinates) : M unit :=
  potential_new_board <- click board_state c ;;
  this <- deref board_state ;;
  steps <- as_int (steps_from_solution this) ;;
  assign potential_new_board (with_steps_from_solution (Some (steps + 1))) ;;
  assign potential_new_board (with_next_solution_coordinates (Some c)) ;;
  assign potential_new_board (with_next_solution_board (Some board_state)) ;;
  pnb <- deref potential_new_board ;;
  existing_discovered_board <- discovered_get (key pnb) ;;
  match existing_discovered_board with
  | None =>
      queue_append potential_new_board ;;
      discovered_set (key pnb) potential_new_board
  | Some existing =>
      e <- deref existing ;;
      e_steps <- as_int (steps_from_solution e) ;;
      p_steps <- as_int (steps_from_solution pnb) ;;
      if e_steps >? p_steps
      then discovered_set (key pnb) potential_new_board
      else ret tt
  end.

Definition _process_board_state (board_state : loc) : M unit :=
  this <- deref board_state ;;
  for_each (coordinates this) (process_coordinate board_state).

(** The [while] loop of [_find_board_solution]; each turn of the loop costs
    one unit of fuel. *)
Fixpoint process_queue (fuel : nat) : M unit :=
  q <- gets board_processing_queue ;;
  match q with
  | [] => ret tt
  | current_board :: rest =>
      match fuel with
      | O => out_of_fuel
      | S fuel' =>
          modify (set_board_processing_queue rest) ;;
          _process_board_state current_board ;;
          process_queue fuel'
      end
  end.

Definition _find_board_solution (fuel : nat) (board_state : loc)
  : M (option loc) :=
  this <- deref board_state ;;
  existing_solution <- discovered_get (key this) ;;
  match existing_solution with
  | Some existing => ret (Some existing)
  | None =>
      solution_board <- solution_board (width this) (height this) ;;
      sb <- deref solution_board ;;
      found <- discovered_get (key sb) ;;
      match found with
      | Some _ => ret None
      | None =>
          queue_append solution_board ;;
          process_queue fuel ;;
          this <- deref board_state ;;
          discovered_get (key this)
      end
  end.

(** The [while] loop of [find_solution], which follows the
    [next_solution_board] links. *)
Fixpoint walk_solution (fuel : nat) (current_bs : option loc)
    (solution_list : list loc) : M (list loc) :=
  match current_bs with
  | None => ret solution_list
  | Some l =>
      match fuel with
      | O => out_of_fuel
      | S fuel' =>
          bs <- deref l ;;
          walk_solution fuel' (next_solution_board bs) (solution_list ++ [l])
      end
  end.

(** [solution_list or None]: an empty list is falsy. *)
Definition or_None {A} (l : list A) : option (list A) :=
  match l with
  | [] => None
  | _ => Some l
  end.

Definition find_solution (fuel : nat) (board_state : loc)
  : M (option (list loc)) :=
  current_bs <- _find_board_solution fuel board_state ;;
  solution_list <- walk_solution fuel current_bs [] ;;
  ret (or_None solution_list).

(** What a caller does before a query, as the script's main block does:
    [bs = BoardState(width, height)] followed by [bs._board = bits]. *)
Definition make_board (width height bits : Z) : M loc :=
  bs <- new_BoardState width height ;;
  assign bs (with_board bits) ;;
  ret bs.

(** ** Vocabulary of the statements *)

Fixpoint has_colon (s : string) : bool :=
  match s with
  | EmptyString => false
  | String c rest => Ascii.eqb c ":"%char || has_colon rest
  end.

(** The bit that holds the cell at the given coordinates. *)
Definition cell_index (self : BoardState) (c : Coordinates) : Z :=
  width self * c.2 + c.1.

(** The five cells a click at the given coordinates aims at. *)
Definition neighbourhood (c : Coordinates) : list Coordinates :=
  [(c.1 - 1, c.2); (c.1, c.2); (c.1 + 1, c.2); (c.1, c.2 - 1); (c.1, c.2 + 1)].

(** The mask of a list of cells, each of them on the grid. *)
Definition mask_of (self : BoardState) (mask : Z) (cl : list Coordinates) : Z :=
  foldl (λ m c, Z.lor m (Z.shiftl 1 (cell_index self c))) mask cl.

(** The mask of a click: the cells of the neighbourhood that are on the
    grid. *)
Definition click_mask (self : BoardState) (c : Coordinates) : Z :=
  mask_of self 0
    (filter (λ c, valid_coordinates self c = true) (neighbourhood c)).

(** The bit pattern a click leaves behind. *)
Definition clicked_board (self : BoardState) (c : Coordinates) : Z :=
  Z.lxor (_board self) (click_mask self c).

(** [n] copies of the character [1]. *)
Fixpoint ones (n : nat) : string :=
  match n with
  | O => EmptyString
  | S n' => String "1"%char (ones n')
  end.

(** The bit pattern with the low [width * height] bits set. *)
Definition solved_bits (width height : Z) : Z := 2 ^ (width * height) - 1.

(** The board [solution_board] builds. *)
Definition solved (width height : Z) : BoardState :=
  mkBoardState width height (Some 0) None None (solved_bits width height).

(** The board [_process_board_state] derives from [this] by a click at [c]. *)
Definition potential (this : BoardState) (self : loc) (c : Coordinates)
    (steps : Z) : BoardState :=
  mkBoardState (width this) (height this) (Some (steps + 1)) (Some c)
    (Some self) (clicked_board this c).

(** What [process_coordinate] does when [self] refers to [this]. *)
Definition process_coordinate_spec (st : State) (self : loc)
    (this : BoardState) (c : Coordinates) : result unit * State :=
  let fresh := length (heap st) in
  match steps_from_solution this with
  | None =>
      (Raise TypeError,
       set_heap (heap st ++ [mkBoardState (width this) (height this) None None
                               None (clicked_board this c)]) st)
  | Some s =>
      let pnb := potential this self c s in
      let recorded :=
        set_discovered_boards (<[key pnb := fresh]> (discovered_boards st))
          (set_heap (heap st ++ [pnb]) st) in
      match discovered_boards st !! key pnb with
      | None =>
          (Ok tt,
           set_discovered_boards (<[key pnb := fresh]> (discovered_boards st))
             (set_board_processing_queue (board_processing_queue st ++ [fresh])
                (set_heap (heap st ++ [pnb]) st)))
      | Some existing =>
          match (heap st ++ [pnb]) !! existing with
          | None => (Raise InvalidReference, set_heap (heap st ++ [pnb]) st)
          | Some e =>
              match steps_from_solution e with
              | None => (Raise TypeError, set_heap (heap st ++ [pnb]) st)
              | Some e_steps =>
                  if e_steps >? s + 1 then (Ok tt, recorded)
                  else (Ok tt, set_heap (heap st ++ [pnb]) st)
              end
          end
      end
  end.

(** A solver that has searched the boards of width 2 and height 1 for the
    query [0 0], followed by the construction of the board [1 0] (bit pattern
    1), which no sequence of clicks turns into the solved board. *)
Definition exhausted_2x1 : State :=
  snd ((q <- make_board 2 1 0 ;; _ <- find_solution 10 q ;; make_board 2 1 1)
         initial_state).

(** The board of the script's main block: width 3, height 3, bit pattern
    [0b001_101_010], alone in the store of a new solver. *)
Definition example_board : BoardState := mkBoardState 3 3 None None None 106.
Definition example_state : State := snd (make_board 3 3 106 initial_state).

(** A new solver asked for the 1x1 board with its light off. *)
Definition searched_1x1 : State :=
  snd ((q <- make_board 1 1 0 ;; find_solution 10 q) initial_state).

(** The [next_solution_coordinates] of the boards of a solution, in order. *)
Definition clicks_of (st : State) (solution : list loc) : list Coordinates :=
  omap (λ l, heap st !! l ≫= next_solution_coordinates) solution.

(** A computation respects a relation on states when the state it ends in,
    however it ends, is related to the state it started from. *)
Definition respects (R : relation State) {A} (m : M A) : Prop :=
  ∀ st, R st (snd (m st)).

(** Objects are only ever added to the store: the store before is a prefix of
    the store after, so every object that existed keeps all its attributes. *)
Definition heap_extends (st st' : State) : Prop :=
  heap st `prefix_of` heap st'.

(** ** Vocabulary of the search *)

(** The board a click at [c] makes of [o], before the solver annotates it. *)
Definition clicked (o : BoardState) (c : Coordinates) : BoardState :=
  mkBoardState (width o) (height o) None None None (clicked_board o c).

(** A key is recorded when the dictionary has an entry for it. *)
Definition recorded (st : State) (k : string) : Prop :=
  is_Some (discovered_boards st !! k).

(** A board is closed when every board one click away from it is recorded. *)
Definition closed (st : State) (o : BoardState) : Prop :=
  ∀ c, c ∈ coordinates o → recorded st (key (clicked o c)).

(** A key is pending when a board with that key waits in the queue. *)
Definition pending (st : State) (k : string) : Prop :=
  ∃ l o, l ∈ board_processing_queue st ∧ heap st !! l = Some o ∧ key o = k.

(** Every entry of the dictionary refers to an object of the store that has
    the entry's key and an integer [steps_from_solution]. *)
Definition entries_ok (st : State) : Prop :=
  ∀ k l, discovered_boards st !! k = Some l →
    ∃ o, heap st !! l = Some o ∧ key o = k ∧ is_Some (steps_from_solution o).

(** A [next_solution_board] link refers to an object created earlier. *)
Definition links_ok (st : State) : Prop :=
  ∀ l o l', heap st !! l = Some o → next_solution_board o = Some l' →
    (l' < l)%nat.

(** The state of a solver between two calls of [find_solution]: the queue is
    empty, and what is recorded is closed under clicks. *)
Record solver_wf (st : State) : Prop := mk_solver_wf {
  wf_queue : board_processing_queue st = [];
  wf_entries : entries_ok st;
  wf_links : links_ok st;
  wf_closed : ∀ o, recorded st (key o) → closed st o
}.

(** A board of the size being searched, annotated with its distance. *)
Definition in_grid (w h : Z) (o : BoardState) : Prop :=
  width o = w ∧ height o = h ∧ 0 ≤ _board o < 2 ^ (w * h) ∧
  is_Some (steps_from_solution o).

Definition queue_ok (w h : Z) (st : State) : Prop :=
  ∀ l, l ∈ board_processing_queue st →
    ∃ o, heap st !! l = Some o ∧ in_grid w h o.

(** The invariant of breadth-first search: a board that is recorded, and the
    solved board, is closed, or waits in the queue, or is the board [cur]
    whose neighbours are being generated. *)
Definition explored (w h : Z) (cur : option string) (st : State) : Prop :=
  ∀ o, recorded st (key o) ∨ key o = key (solved w h) →
    closed st o ∨ pending st (key o) ∨ cur = Some (key o).

Record searching (w h : Z) (cur : option string) (st : State) : Prop :=
  mk_searching {
  sr_entries : entries_ok st;
  sr_links : links_ok st;
  sr_queue : queue_ok w h st;
  sr_explored : explored w h cur st
}.

(** The keys of all boards of one size, and the measure that bounds the
    search: the boards in the queue plus the keys not recorded yet. *)
Definition grid_keys (w h : Z) : gset string :=
  list_to_set
    ((λ b, key (mkBoardState w h None None None b)) <$> range (2 ^ (w * h))).

Definition work (w h : Z) (st : State) : nat :=
  (length (board_processing_queue st)
   + size (grid_keys w h ∖ dom (discovered_boards st)))%nat.

(** The three ways [process_coordinate] can end well, [pnb] being the board
    it derived: a new key is recorded and queued, a recorded key gets the
    better board, or nothing is recorded. *)
Inductive coordinate_step (st : State) (pnb : BoardState) : State → Prop :=
| step_new :
    discovered_boards st !! key pnb = None →
    coordinate_step st pnb
      (mkState (heap st ++ [pnb])
         (<[key pnb := length (heap st)]> (discovered_boards st))
         (board_processing_queue st ++ [length (heap st)]))
| step_better :
    recorded st (key pnb) →
    coordinate_step st pnb
      (mkState (heap st ++ [pnb])
         (<[key pnb := length (heap st)]> (discovered_boards st))
         (board_processing_queue st))
| step_known :
    recorded st (key pnb) →
    coordinate_step st pnb
      (mkState (heap st ++ [pnb]) (discovered_boards st)
         (board_processing_queue st)).

(** What [_find_board_solution] has to say about a board once the solver is
    in state [st]: the entry of the board's key, which may be missing only
    when the solved board of that size is recorded; or the [ValueError] of
    [solution_board] for a size without cells. *)
Definition answered (st : State) (this : BoardState) (r : result (option loc))
  : Prop :=
  (r = Ok (discovered_boards st !! key this) ∧
   (recorded st (key this) ∨
    (0 < width this ∧ 0 < height this ∧
     recorded st (key (solved (width this) (height this))))))
  ∨ (r = Raise ValueError ∧ ¬ recorded st (key this) ∧
     ¬ (0 < width this ∧ 0 < height this)).

(** A computation indexed by its fuel is steady when more fuel never changes
    an outcome that was reached without running out. *)
Definition steady {A} (m : nat → M A) : Prop :=
  ∀ fuel fuel' st r st',
    m fuel st = (r, st') → r ≠ OutOfFuel → (fuel ≤ fuel')%nat →
    m fuel' st = (r, st').

(** The states of a program that creates a solver, builds boards and asks
    for solutions (each call having ended, with a value or an exception). *)
Inductive reachable : State → Prop :=
| reachable_initial : reachable initial_state
| reachable_make_board (st : State) (w h b : Z) :
    reachable st → reachable (snd (make_board w h b st))
| reachable_find_solution (st : State) (fuel : nat) (q : loc) :
    reachable st → fst (find_solution fuel q st) ≠ OutOfFuel →
    reachable (snd (find_solution fuel q st)).

(** ** Vocabulary of the solutions *)

(** The board [o] names [l'] as its next board: the object behind [l'] is the
    board a click at [o]'s [next_solution_coordinates] makes of [o], and [o]
    is recorded one step further from the solution than it. *)
Definition link_ok (st : State) (o : BoardState) (l' : loc) : Prop :=
  ∃ o' s c,
    heap st !! l' = Some o' ∧ 0 ≤ s ∧
    steps_from_solution o' = Some s ∧ steps_from_solution o = Some (s + 1) ∧
    next_solution_coordinates o = Some c ∧
    width o' = width o ∧ height o' = height o ∧
    _board o' = clicked_board o c.

(** An object with a link is linked to an older object as above; an object
    without a link that carries a distance is a solved board. *)
Definition object_ok (st : State) (l : loc) (o : BoardState) : Prop :=
  match next_solution_board o with
  | Some l' => (l' < l)%nat ∧ link_ok st o l'
  | None =>
      is_Some (steps_from_solution o) → o = solved (width o) (height o)
  end.

Definition annotations_ok (st : State) : Prop :=
  ∀ l o, heap st !! l = Some o → object_ok st l o.

(** Objects are only added, and the annotations stay right. *)
Definition annotates (st st' : State) : Prop :=
  heap_extends st st' ∧ (annotations_ok st → annotations_ok st').

(** A list of references that follows the links down to a solved board. *)
Inductive solution_path (st : State) : list loc → Prop :=
| path_root (l : loc) (o : BoardState) :
    heap st !! l = Some o → o = solved (width o) (height o) →
    solution_path st [l]
| path_step (l l' : loc) (o : BoardState) (rest : list loc) :
    heap st !! l = Some o → next_solution_board o = Some l' →
    link_ok st o l' → solution_path st (l' :: rest) →
    solution_path st (l :: l' :: rest).

(** The board reached from [o] by clicking the given coordinates in order. *)
Definition replay (o : BoardState) (cs : list Coordinates) : BoardState :=
  foldl clicked o cs.

(** Every entry of the dictionary refers to a board that has a next board. *)
Definition entries_linked (st : State) : Prop :=
  ∀ k l, discovered_boards st !! k = Some l →
    ∃ o, heap st !! l = Some o ∧ is_Some (next_solution_board o).

Definition links_entries (st st' : State) : Prop :=
  heap_extends st st' ∧ (entries_linked st → entries_linked st').

(** [__hash__]: the bit pattern. *)
Definition BoardState_hash (self : BoardState) : Z := _board self.

(** ** [BoardStateTextRenderer] *)

(** Indexing a dictionary with a key it does not hold raises [KeyError]; the
    renderer is the one place of the script that indexes. *)
Inductive outcome (A : Type) : Type :=
| Result (r : result A)
| KeyError.

Arguments Result {A} r.
Arguments KeyError {A}.

(** The dictionary of [_determine_cell_characters]: its keys are coordinates
    and, when the board has no next click, [None]. *)
Definition setdefault (k : option Coordinates) (v : string)
    (d : gmap (option Coordinates) string) : gmap (option Coordinates) string :=
  match d !! k with
  | Some _ => d
  | None => <[k := v]> d
  end.

(** The [for] loop of [_determine_cell_characters]. *)
Fixpoint fill_cell_characters (board_state : BoardState)
    (coords : list Coordinates) (cell_characters : gmap (option Coordinates) string)
  : result (gmap (option Coordinates) string) :=
  match coords with
  | [] => Ok cell_characters
  | coord :: rest =>
      match is_set board_state coord with
      | Ok b =>
          fill_cell_characters board_state rest
            (setdefault (Some coord) (if b then "o" else " ") cell_characters)
      | Raise e => Raise e
      | OutOfFuel => OutOfFuel
      end
  end.

Definition _determine_cell_characters (board_state : BoardState)
  : result (gmap (option Coordinates) string) :=
  let nsc := next_solution_coordinates board_state in
  match
    match nsc with
    | Some c => is_set board_state c
    | None => Ok false
    end
  with
  | Ok b =>
      fill_cell_characters board_state (coordinates board_state)
        (<[nsc := if b then "-" else "+"]> ∅)
  | Raise e => Raise e
  | OutOfFuel => OutOfFuel
  end.

(** [sep.join(l)]. *)
Fixpoint join (sep : string) (l : list string) : string :=
  match l with
  | [] => EmptyString
  | s :: rest =>
      match rest with
      | [] => s
      | _ => s +:+ sep +:+ join sep rest
      end
  end.

(** The string made of one line feed. *)
Definition newline : string := String "010"%char EmptyString.

(** The inner [for] loop of [render]: one row. *)
Fixpoint render_row (chars : gmap (option Coordinates) string) (y : Z)
    (xs : list Z) (row : list string) : outcome (list string) :=
  match xs with
  | [] => Result (Ok row)
  | x :: rest =>
      match chars !! Some (x, y) with
      | Some c => render_row chars y rest (row ++ ["[" +:+ c +:+ "]"])
      | None => KeyError
      end
  end.

(** The outer [for] loop of [render]. *)
Fixpoint render_rows (chars : gmap (option Coordinates) string) (width : Z)
    (ys : list Z) (all_rows : list string) : outcome (list string) :=
  match ys with
  | [] => Result (Ok all_rows)
  | y :: rest =>
      match render_row chars y (range width) [] with
      | Result (Ok row) =>
          render_rows chars width rest (all_rows ++ [join " " row])
      | other => other
      end
  end.

Definition render (board_state : BoardState) : outcome string :=
  match _determine_cell_characters board_state with
  | Ok chars =>
      match
        render_rows chars (width board_state) (range (height board_state)) []
      with
      | Result (Ok all_rows) => Result (Ok (join newline all_rows))
      | Result (Raise e) => Result (Raise e)
      | Result OutOfFuel => Result OutOfFuel
      | KeyError => KeyError
      end
  | Raise e => Result (Raise e)
  | OutOfFuel => Result OutOfFuel
  end.

(** The character of one cell, read off the board directly: the light, and
    whether the cell is the next click. *)
Definition cell_character (board_state : BoardState) (c : Coordinates) : string :=
  let lit := Z.testbit (_board board_state) (cell_index board_state c) in
  if decide (next_solution_coordinates board_state = Some c)
  then (if lit then "-" else "+")
  else (if lit then "o" else " ").

(** The text of a board written cell by cell. *)
Definition rendered_text (board_state : BoardState) : string :=
  join newline
    ((λ y, join " "
             ((λ x, "[" +:+ cell_character board_state (x, y) +:+ "]")
                <$> range (width board_state)))
       <$> range (height board_state)).

(** The dictionary loses no key. *)
Definition keeps_keys (st st' : State) : Prop :=
  ∀ k, recorded st k → recorded st' k.

(** Every next click recorded on a board is a coordinate of its grid. *)
Definition clicks_on_grid (st : State) : Prop :=
  ∀ l o c, heap st !! l = Some o → next_solution_coordinates o = Some c →
    valid_coordinates o c = true.

(** Objects are only added, and the recorded clicks stay on the grid. *)
Definition keeps_clicks (st st' : State) : Prop :=
  heap_extends st st' ∧ (clicks_on_grid st → clicks_on_grid st').

(** The same, while the neighbours of the board [this] behind [l] are
    generated. *)
Definition keeps_clicks_of (l : loc) (this : BoardState) (st st' : State)
  : Prop :=
  heap st !! l = Some this → keeps_clicks st st'.

(** ** Vocabulary of the distances *)

(** The distance recorded under a key: the [steps_from_solution] of the
    board the dictionary holds for it. *)
Definition steps_at (st : State) (k : string) : option Z :=
  match discovered_boards st !! k with
  | Some l =>
      match heap st !! l with
      | Some o => steps_from_solution o
      | None => None
      end
  | None => None
  end.

(** Every board one click away from [o] is recorded, at a distance of at
    most [t + 1]. *)
Definition near (st : State) (o : BoardState) (t : Z) : Prop :=
  ∀ c, c ∈ coordinates o →
    ∃ t', steps_at st (key (clicked o c)) = Some t' ∧ t' ≤ t + 1.

(** Between two calls the recorded distances grow by at most one with each
    click, starting from 0 at the solved board of every size searched; and
    where a board of some size is recorded, so is the solved board of that
    size. *)
Record graded (st : State) : Prop := mk_graded {
  gr_near : ∀ o t, steps_at st (key o) = Some t → near st o t;
  gr_root : ∀ w h, recorded st (key (solved w h)) → near st (solved w h) 0;
  gr_solved : ∀ o, recorded st (key o) →
    recorded st (key (solved (width o) (height o)))
}.

(** [l] refers to a board of the size searched that carries distance [t]. *)
Definition has_steps (st : State) (w h t : Z) (l : loc) : Prop :=
  ∃ o, heap st !! l = Some o ∧ width o = w ∧ height o = h ∧
       steps_from_solution o = Some t.

(** A board with the key of [o] and the distance [t] waits in the queue, or
    is the board whose neighbours are being generated. *)
Definition waiting (st : State) (cur : option loc) (o : BoardState) (t : Z)
  : Prop :=
  ∃ l o', (l ∈ board_processing_queue st ∨ cur = Some l) ∧
    heap st !! l = Some o' ∧ key o' = key o ∧ steps_from_solution o' = Some t.

(** The invariant of the search seen level by level: while boards of
    distance [s] are expanded, nothing of the size searched is recorded
    further away than [s + 1], and the queue holds boards of distance [s]
    followed by boards of distance [s + 1]. *)
Record levels (w h s : Z) (cur : option loc) (st : State) : Prop := mk_levels {
  lv_entries : entries_ok st;
  lv_bound : ∀ o t, width o = w → height o = h →
    steps_at st (key o) = Some t → t ≤ s + 1;
  lv_queue : ∃ qa qb, board_processing_queue st = qa ++ qb ∧
    Forall (has_steps st w h s) qa ∧ Forall (has_steps st w h (s + 1)) qb;
  lv_cur : ∀ l, cur = Some l → has_steps st w h s l;
  lv_status : ∀ o t,
    steps_at st (key o) = Some t ∨ (key o = key (solved w h) ∧ t = 0) →
    near st o t ∨ waiting st cur o t;
  lv_root : ∀ w' h', recorded st (key (solved w' h')) →
    (w' = w ∧ h' = h) ∨ near st (solved w' h') 0;
  lv_solved : ∀ o, recorded st (key o) →
    (width o = w ∧ height o = h) ∨
    recorded st (key (solved (width o) (height o)))
}.

(** Objects and entries are only added, and no entry is replaced. *)
Definition grows (st st' : State) : Prop :=
  heap st `prefix_of` heap st' ∧
  (∀ k l, discovered_boards st !! k = Some l →
     discovered_boards st' !! k = Some l) ∧
  board_processing_queue st ⊆ board_processing_queue st'.

(** * Properties *)

(** ** The identity key *)

Lemma pretty_N_char_not_colon (d : N) : Ascii.eqb (pretty_N_char d) ":"%char = false.
Proof. unfold pretty_N_char. by repeat case_match. Qed.

Lemma pretty_N_go_has_colon (x : N) (s : string) :
  has_colon s = false → has_colon (pretty_N_go x s) = false.
Proof.
  revert s. induction (N.lt_wf_0 x) as [x _ IH]; intros s Hs.
  destruct (decide (x = 0)%N) as [->|Hx].
  - by rewrite pretty_N_go_0.
  - rewrite pretty_N_go_step by lia. apply IH.
    + apply N.div_lt; lia.
    + simpl. by rewrite pretty_N_char_not_colon, Hs.
Qed.

Lemma pretty_N_has_colon (x : N) : has_colon (pretty x) = false.
Proof.
  unfold pretty, pretty_N. case_decide; [done|].
  by apply pretty_N_go_has_colon.
Qed.

Lemma pretty_Z_has_colon (z : Z) : has_colon (pretty z) = false.
Proof.
  destruct z as [|p|p]; unfold pretty, pretty_Z; simpl; [done|..];
    apply (pretty_N_has_colon (N.pos p)).
Qed.

(** Two strings cut at their first colon agree piece by piece. *)
Lemma append_colon_inj (a a' r r' : string) :
  has_colon a = false → has_colon a' = false →
  a +:+ ":" +:+ r = a' +:+ ":" +:+ r' → a = a' ∧ r = r'.
Proof.
  revert a'. induction a as [|c a IH]; intros [|c' a'] Ha Ha' Heq; simpl in *.
  - by injection Heq.
  - injection Heq as <- _. by rewrite orb_true_l in Ha'.
  - injection Heq as -> _. by rewrite orb_true_l in Ha.
  - injection Heq as -> Heq.
    apply orb_false_iff in Ha as [_ Ha]. apply orb_false_iff in Ha' as [_ Ha'].
    destruct (IH a' Ha Ha' Heq) as [-> ->]. done.
Qed.

(** A key determines the width, the height and the bit pattern. *)
Lemma key_inj (s t : BoardState) :
  key s = key t →
  width s = width t ∧ height s = height t ∧ _board s = _board t.
Proof.
  unfold key. intros Heq.
  apply append_colon_inj in Heq as [Hw Heq]; try apply pretty_Z_has_colon.
  apply append_colon_inj in Heq as [Hh Hb]; try apply pretty_Z_has_colon.
  split_and!; by apply (inj pretty).
Qed.

(** The key is made of the width, the height and the bit pattern alone. *)
Lemma key_dims (o o' : BoardState) :
  width o = width o' → height o = height o' → _board o = _board o' →
  key o = key o'.
Proof. unfold key. by intros -> -> ->. Qed.

(** C8: two board states have the same key exactly when they have the same
    width, the same height and the same bit pattern.  (The key is a function
    of these three attributes, so it is also stable from one reading to the
    next and equal for independently constructed states.) *)
Theorem key_eq_iff (s t : BoardState) :
  key s = key t ↔
  width s = width t ∧ height s = height t ∧ _board s = _board t.
Proof.
  split.
  - apply key_inj.
  - intros (Hw & Hh & Hb). by apply key_dims.
Qed.

(** ** Cells and bits *)

Lemma valid_coordinates_spec (self : BoardState) (x y : Z) :
  valid_coordinates self (x, y) = true ↔
  0 ≤ x < width self ∧ 0 ≤ y < height self.
Proof. unfold valid_coordinates. lia. Qed.

Lemma cell_index_bounds (self : BoardState) (c : Coordinates) :
  valid_coordinates self c = true →
  0 ≤ cell_index self c < width self * height self.
Proof.
  destruct c as [x y]. rewrite valid_coordinates_spec. unfold cell_index; simpl.
  nia.
Qed.

Lemma cell_index_inj (self : BoardState) (c c' : Coordinates) :
  valid_coordinates self c = true → valid_coordinates self c' = true →
  cell_index self c = cell_index self c' → c = c'.
Proof.
  destruct c as [x y], c' as [x' y']. rewrite !valid_coordinates_spec.
  unfold cell_index; simpl. intros ? ? ?.
  assert (y = y') by nia. subst. f_equal. lia.
Qed.

Lemma coordinates_bit_valid (self : BoardState) (c : Coordinates) :
  0 ≤ cell_index self c →
  _coordinates_bit self c = Ok (Z.shiftl 1 (cell_index self c)).
Proof.
  destruct c as [x y]. unfold cell_index, _coordinates_bit, py_shiftl; simpl.
  intros ?. by rewrite (proj2 (Z.ltb_ge _ _)).
Qed.

Lemma invert_mask_from_valid (self : BoardState) (cl : list Coordinates) (m : Z) :
  Forall (λ c, valid_coordinates self c = true) cl →
  _invert_mask_from self m cl = Ok (mask_of self m cl).
Proof.
  intros Hcl. revert m. induction Hcl as [|c cl Hc _ IH]; intros m; [done|].
  simpl. rewrite coordinates_bit_valid by (apply cell_index_bounds, Hc).
  apply IH.
Qed.

Lemma mask_of_testbit (self : BoardState) (cl : list Coordinates) (m n : Z) :
  Forall (λ c, 0 ≤ cell_index self c) cl → 0 ≤ n →
  Z.testbit (mask_of self m cl) n =
  Z.testbit m n || existsb (λ c, cell_index self c =? n) cl.
Proof.
  intros Hcl Hn. revert m. induction Hcl as [|c cl Hc _ IH]; intros m; simpl.
  - by rewrite orb_false_r.
  - unfold mask_of in *. simpl. rewrite IH, Z.lor_spec, Z.shiftl_1_l.
    rewrite Z.pow2_bits_eqb by done. by rewrite orb_assoc.
Qed.

Lemma land_pow2 (b i : Z) :
  0 ≤ i → Z.land b (2 ^ i) = if Z.testbit b i then 2 ^ i else 0.
Proof.
  intros Hi. apply Z.bits_inj'. intros n Hn.
  rewrite Z.land_spec, Z.pow2_bits_eqb by done.
  destruct (Z.eqb_spec i n) as [->|Hne].
  - rewrite andb_true_r. destruct (Z.testbit b n) eqn:Hb.
    + by rewrite Z.pow2_bits_eqb, Z.eqb_refl.
    + by rewrite Z.bits_0.
  - rewrite andb_false_r. destruct (Z.testbit b i).
    + rewrite Z.pow2_bits_eqb by done. symmetry. by apply Z.eqb_neq.
    + by rewrite Z.bits_0.
Qed.

(** [is_set] checks nothing: a negative bit index is a [ValueError] of the
    shift, any other index reads that bit of [_board]. *)
Lemma is_set_testbit (self : BoardState) (c : Coordinates) :
  is_set self c =
  if cell_index self c <? 0 then Raise ValueError
  else Ok (Z.testbit (_board self) (cell_index self c)).
Proof.
  destruct c as [x y]. unfold is_set, _coordinates_bit, py_shiftl, cell_index.
  simpl. destruct (Z.ltb_spec (width self * y + x) 0) as [|Hi]; [done|].
  rewrite Z.shiftl_1_l, land_pow2 by done. f_equal.
  destruct (Z.testbit _ _); [|done].
  assert (0 < 2 ^ (width self * y + x)) by (apply Z.pow_pos_nonneg; lia).
  destruct (Z.eqb_spec (2 ^ (width self * y + x)) 0); [lia|done].
Qed.

(** ** Running the monad *)

Lemma bind_Ok {A B} (m : M A) (f : A → M B) (st st' : State) (a : A) :
  m st = (Ok a, st') → bind m f st = f a st'.
Proof. unfold bind. by intros ->. Qed.

Lemma deref_Some (st : State) (l : loc) (bs : BoardState) :
  heap st !! l = Some bs → deref l st = (Ok bs, st).
Proof. unfold deref. by intros ->. Qed.

(** Two steps that recur in the runs below: a dereference that is known to
    succeed, and a lookup in the dictionary. *)
Ltac run_deref H := rewrite (bind_Ok _ _ _ _ _ (deref_Some _ _ _ H)).
Ltac run_get := unfold bind at 1, discovered_get at 1, gets at 1.

Lemma assign_Some (st : State) (l : loc) (bs : BoardState)
    (f : BoardState → BoardState) :
  heap st !! l = Some bs →
  assign l f st = (Ok tt, set_heap (<[l := f bs]> (heap st)) st).
Proof. intros H. unfold assign. run_deref H. done. Qed.

(** Assigning to the object allocated last. *)
Lemma assign_last (h : list BoardState) (o : BoardState)
    (f : BoardState → BoardState) (d : gmap string loc) (q : list loc) :
  assign (length h) f (mkState (h ++ [o]) d q)
  = (Ok tt, mkState (h ++ [f o]) d q).
Proof.
  erewrite assign_Some by (simpl; by apply list_lookup_middle).
  unfold set_heap; simpl. f_equal. f_equal.
  rewrite insert_app_r_alt by lia. by rewrite Nat.sub_diag.
Qed.

Lemma invert_run (st : State) (self : loc) (this : BoardState)
    (cl : list Coordinates) :
  heap st !! self = Some this →
  Forall (λ c, valid_coordinates this c = true) cl →
  invert self cl st =
  (Ok (length (heap st)),
   set_heap (heap st ++ [mkBoardState (width this) (height this) None None None
                           (Z.lxor (_board this) (mask_of this 0 cl))]) st).
Proof.
  intros Hself Hcl. destruct st as [h d q]. unfold invert.
  run_deref Hself.
  unfold bind at 1, new_BoardState, set_heap. simpl.
  unfold bind at 1. rewrite assign_last.
  unfold bind at 1, lift, _invert_mask. rewrite invert_mask_from_valid by done.
  unfold bind at 1. rewrite assign_last. done.
Qed.

Lemma click_run (st : State) (board_state : loc) (this : BoardState)
    (c : Coordinates) :
  heap st !! board_state = Some this →
  click board_state c st =
  (Ok (length (heap st)),
   set_heap (heap st ++ [mkBoardState (width this) (height this) None None None
                           (clicked_board this c)]) st).
Proof.
  intros Hthis. destruct c as [x y]. unfold click.
  run_deref Hthis.
  apply invert_run; [done|]. apply List.Forall_forall.
  intros c Hc. apply list_elem_of_In, list_elem_of_filter in Hc. tauto.
Qed.

(** ** The click rule *)

Lemma click_mask_dims (a b : BoardState) (c : Coordinates) :
  width a = width b → height a = height b → click_mask a c = click_mask b c.
Proof.
  destruct a as [w h ? ? ? ?], b as [w' h' ? ? ? ?]; simpl.
  intros <- <-. reflexivity.
Qed.

Lemma clicked_board_eq (this : BoardState) (c : Coordinates) :
  clicked_board this c = Z.lxor (_board this) (click_mask this c).
Proof. reflexivity. Qed.

Lemma clicked_board_twice (this : BoardState) (c : Coordinates) (s : option Z)
    (n : option Coordinates) (p : option loc) :
  clicked_board
    (mkBoardState (width this) (height this) s n p (clicked_board this c)) c
  = _board this.
Proof.
  rewrite !clicked_board_eq. simpl.
  rewrite (click_mask_dims (mkBoardState _ _ _ _ _ _) this) by done.
  rewrite Z.lxor_assoc, Z.lxor_nilpotent. apply Z.lxor_0_r.
Qed.

Lemma click_mask_testbit (this : BoardState) (c c' : Coordinates) :
  valid_coordinates this c' = true →
  Z.testbit (click_mask this c) (cell_index this c')
  = bool_decide (c' ∈ neighbourhood c).
Proof.
  intros Hc'. unfold click_mask. rewrite mask_of_testbit.
  - rewrite Z.bits_0, orb_false_l.
    apply eq_true_iff_eq. rewrite existsb_exists, bool_decide_eq_true. split.
    + intros (c0 & Hin & Heq).
      apply list_elem_of_In, list_elem_of_filter in Hin as [Hv Hin].
      apply Z.eqb_eq, cell_index_inj in Heq; [by subst|done..].
    + intros Hin. exists c'. split; [|by apply Z.eqb_eq].
      by apply list_elem_of_In, list_elem_of_filter.
  - apply List.Forall_forall. intros c0 Hin.
    apply list_elem_of_In, list_elem_of_filter in Hin as [Hv _].
    by apply cell_index_bounds.
  - by apply cell_index_bounds.
Qed.

(** A click leaves the bits beyond the grid alone. *)
Lemma clicked_board_high_bits (this : BoardState) (c : Coordinates) (n : Z) :
  width this * height this ≤ n →
  Z.testbit (clicked_board this c) n = Z.testbit (_board this) n.
Proof.
  intros Hn. unfold clicked_board, click_mask. rewrite Z.lxor_spec.
  destruct (Z.ltb_spec n 0) as [Hneg|Hpos].
  { by rewrite !Z.testbit_neg_r. }
  rewrite mask_of_testbit; [|apply List.Forall_forall; intros c0 Hin|done].
  + rewrite Z.bits_0, orb_false_l.
    assert (existsb (λ c0, cell_index this c0 =? n)
      (filter (λ c0, valid_coordinates this c0 = true) (neighbourhood c))
      = false) as ->; [|by rewrite xorb_false_r].
    apply not_true_is_false. rewrite existsb_exists.
    intros (c0 & Hin & Heq).
    apply list_elem_of_In, list_elem_of_filter in Hin as [Hv _].
    apply cell_index_bounds in Hv. apply Z.eqb_eq in Heq. lia.
  + apply list_elem_of_In, list_elem_of_filter in Hin as [Hv _].
    by apply cell_index_bounds.
Qed.

(** C4: clicking the same coordinates twice gives back a board equal to the
    first one, for every board and every pair of integers: the second click
    builds a third object that [__eq__] finds equal to the original, which is
    itself still in the store as it was. *)
Theorem click_involution (st : State) (s : loc) (this : BoardState)
    (c : Coordinates) :
  heap st !! s = Some this →
  ∃ s1 st1 s2 st2 back,
    click s c st = (Ok s1, st1) ∧ click s1 c st1 = (Ok s2, st2) ∧
    heap st2 !! s2 = Some back ∧ heap st2 !! s = Some this ∧
    BoardState_eq back this = true ∧
    width back = width this ∧ height back = height this ∧
    _board back = _board this.
Proof.
  intros Hs. eexists _, _, _, _, _.
  split; [by apply click_run|].
  split; [apply click_run; simpl; by apply list_lookup_middle|].
  simpl. split; [by apply list_lookup_middle|].
  split; [rewrite <- app_assoc; by apply lookup_app_l_Some|].
  rewrite clicked_board_twice. unfold BoardState_eq; simpl.
  rewrite !Z.eqb_refl. done.
Qed.

(** C5: a click at [(x, y)] creates a new board of the same width and height;
    every cell of the grid that is one of the five cells of the neighbourhood
    is flipped, every other cell of the grid reads as before, and bits beyond
    the grid are not touched.  The objects already in the store, the clicked
    board among them, and the solver's dictionary and queue are as before. *)
Theorem click_toggles_neighbourhood (st : State) (s : loc) (this : BoardState)
    (x y : Z) :
  heap st !! s = Some this →
  ∃ s' st' new,
    click s (x, y) st = (Ok s', st') ∧
    s' = length (heap st) ∧ heap st' = heap st ++ [new] ∧
    heap st' !! s = Some this ∧
    discovered_boards st' = discovered_boards st ∧
    board_processing_queue st' = board_processing_queue st ∧
    width new = width this ∧ height new = height this ∧
    (∀ c', valid_coordinates this c' = true →
       ∃ v, is_set this c' = Ok v ∧
            is_set new c' =
            Ok (if bool_decide
                     (c' ∈ [(x, y); (x - 1, y); (x + 1, y); (x, y - 1); (x, y + 1)])
                then negb v else v)) ∧
    (∀ n, width this * height this ≤ n →
       Z.testbit (_board new) n = Z.testbit (_board this) n).
Proof.
  intros Hs. eexists _, _, _. split; [by apply click_run|].
  simpl. split_and!; try done.
  - by apply lookup_app_l_Some.
  - intros c' Hc'. pose proof (cell_index_bounds _ _ Hc') as Hi.
    exists (Z.testbit (_board this) (cell_index this c')).
    rewrite !is_set_testbit.
    change (cell_index (mkBoardState _ _ _ _ _ _) c') with (cell_index this c').
    rewrite (proj2 (Z.ltb_ge _ _)) by lia. split; [done|]. f_equal. simpl.
    unfold clicked_board.
    rewrite Z.lxor_spec, click_mask_testbit by done.
    rewrite (bool_decide_ext (c' ∈ neighbourhood (x, y))
      (c' ∈ [(x, y); (x - 1, y); (x + 1, y); (x, y - 1); (x, y + 1)])).
    + destruct (bool_decide _), (Z.testbit _ _); done.
    + unfold neighbourhood; simpl. rewrite !elem_of_cons. tauto.
  - intros n Hn. by apply clicked_board_high_bits.
Qed.

(** C6, as the code has it: [is_set] validates nothing.  With a bit index
    [width * y + x] that is not negative it answers with that bit of the bit
    pattern, whether or not [(x, y)] is on the grid; a negative index is the
    [ValueError] of the shift. *)
Theorem is_set_unchecked (self : BoardState) (x y : Z) :
  is_set self (x, y) =
  if width self * y + x <? 0 then Raise ValueError
  else Ok (Z.testbit (_board self) (width self * y + x)).
Proof. apply (is_set_testbit self (x, y)). Qed.

(** C6 as stated fails: on a 3x3 board, [(3, 0)] is off the grid and [is_set]
    answers with the value of the cell [(0, 1)], whose bit has the same
    index. *)
Lemma is_set_out_of_range_answers :
  valid_coordinates (mkBoardState 3 3 None None None 8) (3, 0) = false ∧
  is_set (mkBoardState 3 3 None None None 8) (3, 0) = Ok true ∧
  is_set (mkBoardState 3 3 None None None 8) (0, 1) = Ok true ∧
  is_set (mkBoardState 3 3 None None None 0) (3, 0) = Ok false.
Proof. by split_and!. Qed.

(** ** The solved board *)

Lemma ones_append (a b : nat) : ones a +:+ ones b = ones (a + b).
Proof. induction a as [|a IH]; [done|]. simpl. by rewrite <- IH. Qed.

Lemma str_mul_ones (w h : Z) :
  str_mul (str_mul "1" w) h = ones (Z.to_nat h * Z.to_nat w).
Proof.
  unfold str_mul.
  assert (∀ n, Nat.iter n (λ acc, "1" +:+ acc) EmptyString = ones n) as ->.
  { induction n as [|n IH]; [done|]. by rewrite Nat.iter_succ, IH. }
  induction (Z.to_nat h) as [|n IH]; [done|].
  rewrite Nat.iter_succ, IH. cbv beta. by rewrite ones_append.
Qed.

Lemma parse_bits_ones (n : nat) (acc : Z) :
  parse_bits acc (ones n) = Ok (acc * 2 ^ Z.of_nat n + 2 ^ Z.of_nat n - 1).
Proof.
  revert acc. induction n as [|n IH]; intros acc.
  - simpl. f_equal. lia.
  - change (ones (S n)) with (String "1"%char (ones n)).
    cbn [parse_bits]. change (Ascii.eqb "1" "0") with false.
    change (Ascii.eqb "1" "1") with true. cbv iota. rewrite IH. f_equal.
    rewrite Nat2Z.inj_succ, Z.pow_succ_r by lia. lia.
Qed.

Lemma int_base2_ones (n : nat) :
  int_base2 ("0b" +:+ ones n) =
  if decide (n = 0%nat) then Raise ValueError
  else Ok (2 ^ Z.of_nat n - 1).
Proof.
  destruct n as [|n]; [done|].
  change (int_base2 ("0b" +:+ ones (S n))) with (parse_bits 0 (ones (S n))).
  rewrite parse_bits_ones. case_decide; [done|]. f_equal.
Qed.

Lemma solution_board_run (st : State) (w h : Z) :
  0 < w → 0 < h →
  solution_board w h st =
  (Ok (length (heap st)), set_heap (heap st ++ [solved w h]) st).
Proof.
  intros Hw Hh. destruct st as [hp d q]. unfold solution_board.
  unfold bind at 1, new_BoardState, set_heap. simpl.
  unfold bind at 1, lift. rewrite str_mul_ones, int_base2_ones.
  case_decide; [nia|].
  rewrite Nat2Z.inj_mul, !Z2Nat.id, (Z.mul_comm h w) by lia.
  unfold bind at 1. rewrite assign_last.
  unfold bind at 1. rewrite assign_last.
  unfold bind at 1. rewrite assign_last.
  unfold bind at 1. rewrite assign_last.
  reflexivity.
Qed.

(** Without a positive width and a positive height there is no digit after
    [0b]: [int] raises, and the board created just before stays behind. *)
Lemma solution_board_raise (st : State) (w h : Z) :
  w ≤ 0 ∨ h ≤ 0 →
  solution_board w h st =
  (Raise ValueError,
   set_heap (heap st ++ [mkBoardState w h None None None 0]) st).
Proof.
  intros Hwh. destruct st as [hp d q]. unfold solution_board.
  unfold bind at 1, new_BoardState, set_heap. simpl.
  unfold bind at 1, lift. rewrite str_mul_ones, int_base2_ones.
  case_decide; [done|nia].
Qed.

(** ** One coordinate of [_process_board_state] *)

Lemma process_coordinate_run (st : State) (self : loc) (this : BoardState)
    (c : Coordinates) :
  heap st !! self = Some this →
  process_coordinate self c st = process_coordinate_spec st self this c.
Proof.
  intros Hself. destruct st as [hp d q].
  unfold process_coordinate, process_coordinate_spec.
  rewrite (bind_Ok _ _ _ _ _ (click_run _ _ _ c Hself)).
  unfold set_heap; cbn [heap discovered_boards board_processing_queue].
  erewrite bind_Ok; [|apply deref_Some; cbn [heap]; by apply lookup_app_l_Some].
  destruct (steps_from_solution this) as [s|]; [|done].
  unfold as_int at 1. unfold bind at 1, ret at 1.
  unfold bind at 1. rewrite assign_last.
  unfold bind at 1. rewrite assign_last.
  unfold bind at 1. rewrite assign_last.
  erewrite bind_Ok; [|apply deref_Some; cbn [heap]; by apply list_lookup_middle].
  unfold bind at 1, discovered_get, gets. cbn [discovered_boards].
  change (with_next_solution_board _ _) with (potential this self c s).
  destruct (d !! key (potential this self c s)) as [existing|]; [|done].
  unfold bind at 1, deref; cbn [heap].
  destruct ((hp ++ [potential this self c s]) !! existing) as [e|]; [|done].
  unfold bind at 1, as_int at 1.
  destruct (steps_from_solution e) as [e_steps|]; [|done].
  unfold ret at 1, bind at 1. cbn [as_int steps_from_solution potential].
  unfold ret at 1.
  by destruct (e_steps >? s + 1).
Qed.

(** ** Queries answered without a search *)

Lemma find_board_solution_exhausted (fuel : nat) (st : State) (q : loc)
    (this : BoardState) (l : loc) :
  heap st !! q = Some this → 0 < width this → 0 < height this →
  discovered_boards st !! key this = None →
  discovered_boards st !! key (solved (width this) (height this)) = Some l →
  _find_board_solution fuel q st =
  (Ok None, set_heap (heap st ++ [solved (width this) (height this)]) st).
Proof.
  intros Hq Hw Hh Hnone Hsolved. unfold _find_board_solution.
  run_deref Hq.
  run_get. rewrite Hnone.
  rewrite (bind_Ok _ _ _ _ _ (solution_board_run _ _ _ Hw Hh)).
  erewrite bind_Ok; [|apply deref_Some; by apply list_lookup_middle].
  run_get.
  cbn [discovered_boards set_heap]. by rewrite Hsolved.
Qed.

(** C7: when the solved board of the query's size is in the dictionary and
    the query's key is not, [find_solution] returns [None] -- a value, not an
    exception -- whatever the fuel, so without a turn of the search loop; the
    dictionary and the queue are as before and the store has gained only the
    solved board built for the test. *)
Theorem find_solution_exhausted_no_solution (fuel : nat) (st : State) (q : loc)
    (this : BoardState) (l : loc) :
  heap st !! q = Some this → 0 < width this → 0 < height this →
  discovered_boards st !! key this = None →
  discovered_boards st !! key (solved (width this) (height this)) = Some l →
  find_solution fuel q st =
  (Ok None, set_heap (heap st ++ [solved (width this) (height this)]) st).
Proof.
  intros Hq Hw Hh Hnone Hsolved. unfold find_solution.
  rewrite (bind_Ok _ _ _ _ _
    (find_board_solution_exhausted fuel _ _ _ _ Hq Hw Hh Hnone Hsolved)).
  by destruct fuel.
Qed.

Lemma find_solution_exhausted_no_solution_witness :
  find_solution 0 8%nat exhausted_2x1 =
  (Ok None, set_heap (heap exhausted_2x1 ++ [solved 2 1]) exhausted_2x1).
Proof.
  apply (find_solution_exhausted_no_solution 0 exhausted_2x1 8%nat
           (mkBoardState 2 1 None None None 1) 4%nat);
    [reflexivity | simpl; lia | simpl; lia | reflexivity | reflexivity].
Defined.

(** ** The scenarios of the script, evaluated *)

Lemma click_involution_witness :
  ∃ s1 st1 s2 st2 back,
    click 0%nat (1, 1) example_state = (Ok s1, st1) ∧
    click s1 (1, 1) st1 = (Ok s2, st2) ∧
    heap st2 !! s2 = Some back ∧ heap st2 !! 0%nat = Some example_board ∧
    BoardState_eq back example_board = true ∧
    width back = width example_board ∧ height back = height example_board ∧
    _board back = _board example_board.
Proof.
  apply (click_involution example_state 0%nat example_board (1, 1)).
  reflexivity.
Defined.

Lemma click_toggles_neighbourhood_witness :
  ∃ s' st' new,
    click 0%nat (0, 1) example_state = (Ok s', st') ∧
    s' = length (heap example_state) ∧
    heap st' = heap example_state ++ [new] ∧
    heap st' !! 0%nat = Some example_board ∧
    discovered_boards st' = discovered_boards example_state ∧
    board_processing_queue st' = board_processing_queue example_state ∧
    width new = width example_board ∧ height new = height example_board ∧
    (∀ c', valid_coordinates example_board c' = true →
       ∃ v, is_set example_board c' = Ok v ∧
            is_set new c' =
            Ok (if bool_decide
                     (c' ∈ [(0, 1); (0 - 1, 1); (0 + 1, 1); (0, 1 - 1); (0, 1 + 1)])
                then negb v else v)) ∧
    (∀ n, width example_board * height example_board ≤ n →
       Z.testbit (_board new) n = Z.testbit (_board example_board) n).
Proof.
  apply (click_toggles_neighbourhood example_state 0%nat example_board 0 1).
  reflexivity.
Defined.

(** C1 on the code: after a search of the 1x1 boards, the board recorded under
    the key of the solved board is the one found two clicks away from the
    root -- [steps_from_solution] 2, a predecessor click and a predecessor
    board -- because the root itself is queued without being recorded.  A
    query for the solved board then gets three boards, two clicks. *)
Theorem solved_node_recorded_two_steps_away :
  discovered_boards searched_1x1 !! key (solved 1 1) = Some 3%nat ∧
  heap searched_1x1 !! 3%nat
  = Some (mkBoardState 1 1 (Some 2) (Some (0, 0)) (Some 2%nat) 1) ∧
  heap searched_1x1 !! 1%nat = Some (solved 1 1) ∧
  fst ((q <- make_board 1 1 1 ;; find_solution 10 q) searched_1x1)
  = Ok (Some [3%nat; 2%nat; 1%nat]).
Proof. by vm_compute. Qed.

(** C2 on the code: a new solver asked for the solved 1x1 board answers with
    the clicks [(0, 0); (0, 0)].  They do lead to the solved board, but the
    query is the solved board already and needs no click. *)
Theorem solved_query_answered_with_two_clicks :
  let run := (q <- make_board 1 1 1 ;; find_solution 10 q) initial_state in
  fst run = Ok (Some [3%nat; 2%nat; 1%nat]) ∧
  clicks_of (snd run) [3%nat; 2%nat; 1%nat] = [(0, 0); (0, 0)] ∧
  (_board <$> heap (snd run) !! 0%nat) = Some (solved_bits 1 1) ∧
  (_board <$> heap (snd run) !! 1%nat) = Some (solved_bits 1 1).
Proof. by vm_compute. Qed.

(** C3 on the code: after a search of the 1x1 boards the board [0] is recorded
    one step away with the root as its predecessor, and the entry under the
    root's key is recorded two steps away: 1 is not 1 + 2. *)
Theorem distance_of_predecessor_entry_is_not_one_less :
  discovered_boards searched_1x1 !! "1:1:0" = Some 2%nat ∧
  heap searched_1x1 !! 2%nat
  = Some (mkBoardState 1 1 (Some 1) (Some (0, 0)) (Some 1%nat) 0) ∧
  (key <$> heap searched_1x1 !! 1%nat) = Some "1:1:1" ∧
  discovered_boards searched_1x1 !! "1:1:1" = Some 3%nat ∧
  (steps_from_solution <$> heap searched_1x1 !! 3%nat) = Some (Some 2).
Proof. by vm_compute. Qed.

(** ** Relations every step respects *)

Section respects.
Context (R : relation State) `{!PreOrder R}.

Lemma respects_ret {A} (a : A) : respects R (ret a).
Proof. intros st. reflexivity. Qed.

Lemma respects_raise {A} (e : exn) : respects R (raise (A := A) e).
Proof. intros st. reflexivity. Qed.

Lemma respects_out_of_fuel {A} : respects R (out_of_fuel (A := A)).
Proof. intros st. reflexivity. Qed.

Lemma respects_gets {A} (f : State → A) : respects R (gets f).
Proof. intros st. reflexivity. Qed.

Lemma respects_lift {A} (r : result A) : respects R (lift r).
Proof. intros st. reflexivity. Qed.

Lemma respects_deref (l : loc) : respects R (deref l).
Proof. intros st. unfold deref. destruct (heap st !! l); reflexivity. Qed.

Lemma respects_as_int (v : option Z) : respects R (as_int v).
Proof. destruct v; [apply respects_ret|apply respects_raise]. Qed.

Lemma respects_modify (f : State → State) :
  (∀ st, R st (f st)) → respects R (modify f).
Proof. intros Hf st. apply Hf. Qed.

Lemma respects_bind {A B} (m : M A) (f : A → M B) :
  respects R m → (∀ a, respects R (f a)) → respects R (bind m f).
Proof.
  intros Hm Hf st. unfold bind. specialize (Hm st).
  destruct (m st) as [[a| |] st']; [|done..].
  etrans; [exact Hm|apply Hf].
Qed.

Lemma respects_for_each {A} (l : list A) (body : A → M unit) :
  (∀ a, respects R (body a)) → respects R (for_each l body).
Proof.
  intros Hbody. induction l as [|a l IH]; [apply respects_ret|].
  apply respects_bind; [apply Hbody|]. intros _. apply IH.
Qed.

Lemma respects_walk_solution (fuel : nat) (cur : option loc) (acc : list loc) :
  respects R (walk_solution fuel cur acc).
Proof.
  revert cur acc. induction fuel as [|fuel IH]; intros [l|] acc;
    try apply respects_ret; [apply respects_out_of_fuel|].
  apply respects_bind; [apply respects_deref|]. intros bs. apply IH.
Qed.
(** The solver as a whole respects a relation that its three kinds of step
    respect: one coordinate of one board, the construction of the solved
    board, and an assignment to the queue. *)
Hypothesis respects_process_coordinate :
  ∀ l c, respects R (process_coordinate l c).
Hypothesis respects_solution_board : ∀ w h, respects R (solution_board w h).
Hypothesis respects_queue : ∀ q st, R st (set_board_processing_queue q st).

Lemma respects_process_board_state (l : loc) :
  respects R (_process_board_state l).
Proof.
  apply respects_bind; [apply respects_deref|].
  intros this. by apply respects_for_each.
Qed.

Lemma respects_process_queue (fuel : nat) : respects R (process_queue fuel).
Proof.
  induction fuel as [|fuel IH]; simpl.
  - apply respects_bind; [apply respects_gets|].
    intros [|l q]; [apply respects_ret|apply respects_out_of_fuel].
  - apply respects_bind; [apply respects_gets|].
    intros [|l q]; [apply respects_ret|].
    apply respects_bind; [by apply respects_modify|]. intros _.
    apply respects_bind; [apply respects_process_board_state|].
    intros _. apply IH.
Qed.

Lemma respects_find_board_solution (fuel : nat) (q : loc) :
  respects R (_find_board_solution fuel q).
Proof.
  apply respects_bind; [apply respects_deref|]. intros this.
  apply respects_bind; [apply respects_gets|].
  intros [existing|]; [apply respects_ret|].
  apply respects_bind; [apply respects_solution_board|]. intros sb.
  apply respects_bind; [apply respects_deref|]. intros sbo.
  apply respects_bind; [apply respects_gets|].
  intros [found|]; [apply respects_ret|].
  apply respects_bind; [apply respects_modify; intros st; apply respects_queue|].
  intros _.
  apply respects_bind; [apply respects_process_queue|]. intros _.
  apply respects_bind; [apply respects_deref|]. intros this'.
  apply respects_gets.
Qed.

Lemma respects_find_solution (fuel : nat) (q : loc) :
  respects R (find_solution fuel q).
Proof.
  apply respects_bind; [apply respects_find_board_solution|].
  intros cur. apply respects_bind; [apply respects_walk_solution|].
  intros l. apply respects_ret.
Qed.
End respects.

Global Instance heap_extends_preorder : PreOrder heap_extends.
Proof.
  split.
  - intros st. unfold heap_extends. reflexivity.
  - intros st1 st2 st3. unfold heap_extends. apply transitivity.
Qed.

Lemma heap_extends_same_heap (st st' : State) :
  heap st' = heap st → heap_extends st st'.
Proof. unfold heap_extends. by intros ->. Qed.

Lemma click_invalid (st : State) (l : loc) (c : Coordinates) :
  heap st !! l = None → click l c st = (Raise InvalidReference, st).
Proof. intros H. destruct c as [x y]. unfold click, bind, deref. by rewrite H. Qed.

Lemma heap_extends_process_coordinate (l : loc) (c : Coordinates) :
  respects heap_extends (process_coordinate l c).
Proof.
  intros st. unfold heap_extends. destruct (heap st !! l) as [this|] eqn:Hl.
  - rewrite (process_coordinate_run _ _ _ _ Hl). unfold process_coordinate_spec.
    repeat case_match; simpl; by apply prefix_app_r.
  - unfold process_coordinate, bind. by rewrite (click_invalid _ _ _ Hl).
Qed.

Lemma heap_extends_solution_board (w h : Z) :
  respects heap_extends (solution_board w h).
Proof.
  intros st. unfold heap_extends.
  destruct (decide (0 < w ∧ 0 < h)) as [[Hw Hh]|Hwh].
  - rewrite solution_board_run by done. by apply prefix_app_r.
  - rewrite solution_board_raise by lia. by apply prefix_app_r.
Qed.

Lemma heap_extends_find_solution (fuel : nat) (q : loc) :
  respects heap_extends (find_solution fuel q).
Proof.
  apply respects_find_solution; [apply _| | |].
  - apply heap_extends_process_coordinate.
  - apply heap_extends_solution_board.
  - intros rest st. by apply heap_extends_same_heap.
Qed.




(** ** The search: one coordinate *)

Lemma key_potential (o : BoardState) (l : loc) (c : Coordinates) (s : Z) :
  key (potential o l c s) = key (clicked o c).
Proof. reflexivity. Qed.

Lemma coordinates_dims (o o' : BoardState) :
  width o = width o' → height o = height o' → coordinates o = coordinates o'.
Proof. unfold coordinates. by intros -> ->. Qed.

Lemma key_clicked (o o' : BoardState) (c : Coordinates) :
  key o = key o' → key (clicked o c) = key (clicked o' c).
Proof.
  intros (Hw & Hh & Hb)%key_inj. apply key_dims; simpl; [done..|].
  rewrite !clicked_board_eq, Hb. f_equal. by apply click_mask_dims.
Qed.

Lemma closed_key (st : State) (o o' : BoardState) :
  key o = key o' → closed st o → closed st o'.
Proof.
  intros Hk Hc c Hin. rewrite <- (key_clicked o o') by done. apply Hc.
  apply key_inj in Hk as (Hw & Hh & _).
  by rewrite (coordinates_dims o o').
Qed.

Lemma closed_mono (st st' : State) (o : BoardState) :
  (∀ k, recorded st k → recorded st' k) → closed st o → closed st' o.
Proof. intros Hrec Hc c Hin. by apply Hrec, Hc. Qed.

Lemma pending_mono (st st' : State) (k : string) :
  heap st `prefix_of` heap st' →
  board_processing_queue st ⊆ board_processing_queue st' →
  pending st k → pending st' k.
Proof.
  intros Hh Hq (l & o & Hl & Ho & Hk). exists l, o. split_and!; [| |done].
  - by apply Hq.
  - by eapply prefix_lookup_Some.
Qed.

(** A click keeps the bit pattern within the bits of the grid. *)
Lemma clicked_board_range (o : BoardState) (c : Coordinates) :
  0 ≤ width o * height o →
  0 ≤ _board o < 2 ^ (width o * height o) →
  0 ≤ clicked_board o c < 2 ^ (width o * height o).
Proof.
  intros Hn Hb. set (n := width o * height o) in *.
  assert (clicked_board o c = clicked_board o c mod 2 ^ n) as ->.
  { apply Z.bits_inj'. intros m Hm. destruct (Z.lt_ge_cases m n) as [Hlt|Hge].
    - by rewrite Z.mod_pow2_bits_low.
    - rewrite Z.mod_pow2_bits_high by lia.
      rewrite clicked_board_high_bits by done.
      rewrite <- (Z.mod_small (_board o) (2 ^ n)) by done.
      by rewrite Z.mod_pow2_bits_high by lia. }
  apply Z.mod_pos_bound. by apply Z.pow_pos_nonneg.
Qed.

Lemma elem_of_range (b n : Z) : 0 ≤ b < n → b ∈ range n.
Proof.
  intros Hb. unfold range. apply list_elem_of_fmap.
  exists (Z.to_nat b). split; [lia|]. apply elem_of_seq. lia.
Qed.

Lemma elem_of_grid_keys (w h : Z) (o : BoardState) :
  width o = w → height o = h → 0 ≤ _board o < 2 ^ (w * h) →
  key o ∈ grid_keys w h.
Proof.
  intros Hw Hh Hb. unfold grid_keys. apply elem_of_list_to_set.
  apply list_elem_of_fmap. exists (_board o).
  split; [by apply key_dims|by apply elem_of_range].
Qed.

Lemma process_coordinate_step (st : State) (l : loc) (o : BoardState) (s : Z)
    (c : Coordinates) :
  entries_ok st → heap st !! l = Some o → steps_from_solution o = Some s →
  ∃ st', process_coordinate l c st = (Ok tt, st') ∧
         coordinate_step st (potential o l c s) st'.
Proof.
  intros Hent Hl Hs. rewrite (process_coordinate_run _ _ _ _ Hl).
  unfold process_coordinate_spec. rewrite Hs.
  destruct (discovered_boards st !! key (potential o l c s)) as [e|] eqn:Hd.
  - destruct (Hent _ _ Hd) as (eo & He & _ & [es Hes]).
    rewrite (lookup_app_l_Some _ _ _ _ He), Hes.
    destruct (es >? s + 1); eexists; (split; [done|]).
    + apply step_better. by exists e.
    + apply step_known. by exists e.
  - eexists; split; [done|]. by apply step_new.
Qed.

Lemma recorded_insert (st : State) (h : list BoardState) (q : list loc)
    (k k' : string) (l : loc) :
  recorded (mkState h (<[k := l]> (discovered_boards st)) q) k' ↔
  k = k' ∨ recorded st k'.
Proof.
  unfold recorded; simpl. rewrite lookup_insert_is_Some. split.
  - intros [?|[? ?]]; [by left|by right].
  - intros [?|?]; [by left|]. destruct (decide (k = k')); [by left|by right].
Qed.

Lemma entries_ok_snoc (st : State) (pnb : BoardState) (d : gmap string loc)
    (q : list loc) :
  entries_ok st → is_Some (steps_from_solution pnb) →
  d = discovered_boards st ∨
  d = <[key pnb := length (heap st)]> (discovered_boards st) →
  entries_ok (mkState (heap st ++ [pnb]) d q).
Proof.
  intros Hent Hs Hd k l Hl; simpl in *.
  assert (discovered_boards st !! k = Some l ∨
          (k = key pnb ∧ l = length (heap st))) as [Hold|[-> ->]].
  { destruct Hd as [->| ->]; [by left|].
    destruct (decide (key pnb = k)) as [<-|Hne].
    - rewrite lookup_insert_eq in Hl. right. by injection Hl.
    - rewrite lookup_insert_ne in Hl by done. by left. }
  - destruct (Hent k l Hold) as (o & Ho & Hk & Hso).
    exists o. split_and!; [by apply lookup_app_l_Some|done..].
  - exists pnb. split_and!; [by apply list_lookup_middle|done..].
Qed.

Lemma links_ok_snoc (st : State) (pnb : BoardState) (d : gmap string loc)
    (q : list loc) :
  links_ok st →
  (∀ l', next_solution_board pnb = Some l' → (l' < length (heap st))%nat) →
  links_ok (mkState (heap st ++ [pnb]) d q).
Proof.
  intros Hlinks Hnew l o l' Hl Hnext; simpl in *.
  apply lookup_app_Some in Hl as [Hl|[Hlen Hl]].
  - by eapply Hlinks.
  - apply list_lookup_singleton_Some in Hl as [_ <-].
    specialize (Hnew l' Hnext). lia.
Qed.

Lemma queue_ok_snoc (w h : Z) (st : State) (pnb : BoardState)
    (d : gmap string loc) (q : list loc) :
  queue_ok w h st → in_grid w h pnb →
  q = board_processing_queue st ∨
  q = board_processing_queue st ++ [length (heap st)] →
  queue_ok w h (mkState (heap st ++ [pnb]) d q).
Proof.
  intros Hq Hpnb Hq' l Hl; simpl in *.
  assert (l ∈ board_processing_queue st ∨ l = length (heap st)) as [Hold| ->].
  { destruct Hq' as [->| ->]; [by left|].
    apply elem_of_app in Hl as [Hl|Hl]; [by left|].
    right. by apply list_elem_of_singleton in Hl. }
  - destruct (Hq l Hold) as (o & Ho & Hgrid).
    exists o. split; [by apply lookup_app_l_Some|done].
  - exists pnb. split; [by apply list_lookup_middle|done].
Qed.

Lemma explored_mono (w h : Z) (cur : option string) (st st' : State) :
  heap st `prefix_of` heap st' →
  board_processing_queue st ⊆ board_processing_queue st' →
  (∀ k, recorded st k → recorded st' k) →
  (∀ k, recorded st' k → recorded st k ∨ pending st' k) →
  explored w h cur st → explored w h cur st'.
Proof.
  intros Hh Hq Hrec Hnew Hexp o Ho.
  assert (pending st' (key o) ∨ recorded st (key o) ∨ key o = key (solved w h))
    as [Hp|Hold].
  { destruct Ho as [Ho|Ho]; [|by auto]. destruct (Hnew _ Ho); auto. }
  { by right; left. }
  destruct (Hexp o Hold) as [Hc|[Hp|Hcur]].
  - left. by eapply closed_mono.
  - right; left. by eapply pending_mono.
  - by right; right.
Qed.

Lemma coordinate_step_explored (w h : Z) (cur : option string) (st st' : State)
    (pnb : BoardState) :
  coordinate_step st pnb st' → explored w h cur st → explored w h cur st'.
Proof.
  intros Hstep. apply explored_mono; destruct Hstep; simpl.
  all: try by apply prefix_app_r.
  all: try done.
  all: try (by apply list_subseteq_app_l).
  all: try (intros k Hk; apply recorded_insert; by right).
  - intros k [<-|Hk]%recorded_insert; [right|by left].
    exists (length (heap st)), pnb. simpl. split_and!; [|by apply list_lookup_middle|done].
    apply elem_of_app. right. by apply list_elem_of_singleton.
  - intros k [<-|Hk]%recorded_insert; by left.
  - intros k Hk. by left.
Qed.

Lemma coordinate_step_work (w h : Z) (st st' : State) (pnb : BoardState) :
  coordinate_step st pnb st' → key pnb ∈ grid_keys w h →
  (work w h st' ≤ work w h st)%nat.
Proof.
  intros Hstep Hgrid. unfold work. destruct Hstep as [Hnone|Hrec|Hrec]; simpl.
  - rewrite length_app, dom_insert_L. simpl.
    assert (grid_keys w h ∖ ({[key pnb]} ∪ dom (discovered_boards st))
            ⊂ grid_keys w h ∖ dom (discovered_boards st)) as Hsub.
    { apply not_elem_of_dom in Hnone. split.
      - intros k. rewrite !elem_of_difference, elem_of_union. tauto.
      - intros Hsup. specialize (Hsup (key pnb)).
        rewrite !elem_of_difference, elem_of_union, elem_of_singleton in Hsup.
        tauto. }
    apply subset_size in Hsub. lia.
  - rewrite dom_insert_L.
    assert ({[key pnb]} ∪ dom (discovered_boards st) = dom (discovered_boards st))
      as ->; [|done].
    by apply subseteq_union_1_L, singleton_subseteq_l, elem_of_dom.
  - done.
Qed.

Lemma coordinate_step_searching (w h : Z) (cur : option string) (st st' : State)
    (pnb : BoardState) :
  coordinate_step st pnb st' → searching w h cur st → in_grid w h pnb →
  (∀ l', next_solution_board pnb = Some l' → (l' < length (heap st))%nat) →
  searching w h cur st' ∧ heap_extends st st' ∧
  (∀ k, recorded st k → recorded st' k) ∧ recorded st' (key pnb) ∧
  (work w h st' ≤ work w h st)%nat.
Proof.
  intros Hstep [Hent Hlinks Hq Hexp] Hgrid Hnext.
  pose proof Hgrid as (Hw & Hh & Hb & Hs).
  split_and!.
  - split.
    + destruct Hstep; apply entries_ok_snoc; auto.
    + destruct Hstep; by apply links_ok_snoc.
    + destruct Hstep; apply queue_ok_snoc; auto.
    + by eapply coordinate_step_explored.
  - destruct Hstep; unfold heap_extends; simpl; by apply prefix_app_r.
  - destruct Hstep; intros k Hk; try (apply recorded_insert; by right); done.
  - destruct Hstep; try (apply recorded_insert; by left); done.
  - eapply coordinate_step_work; [done|]. by apply elem_of_grid_keys.
Qed.

(** ** The search: one board, then the whole queue *)

Lemma potential_in_grid (w h : Z) (o : BoardState) (l : loc) (c : Coordinates)
    (s : Z) :
  0 ≤ w * h → in_grid w h o → in_grid w h (potential o l c s).
Proof.
  intros Hn (Hw & Hh & Hb & _). unfold in_grid; simpl.
  split; [done|]. split; [done|]. split; [|by eexists].
  rewrite <- Hw, <- Hh in *. by apply clicked_board_range.
Qed.

Lemma process_coordinates_run (w h : Z) (l : loc) (o : BoardState)
    (cs : list Coordinates) (st : State) :
  0 ≤ w * h → searching w h (Some (key o)) st → heap st !! l = Some o →
  in_grid w h o →
  ∃ st', for_each cs (process_coordinate l) st = (Ok tt, st') ∧
    searching w h (Some (key o)) st' ∧ heap_extends st st' ∧
    (∀ k, recorded st k → recorded st' k) ∧
    (∀ c, c ∈ cs → recorded st' (key (clicked o c))) ∧
    (work w h st' ≤ work w h st)%nat.
Proof.
  intros Hn Hsr Hl Hgrid. revert st Hsr Hl.
  induction cs as [|c cs IH]; intros st Hsr Hl.
  - exists st. split_and!; [done|done|reflexivity|done| |done].
    intros c Hc. by apply elem_of_nil in Hc.
  - pose proof Hgrid as (Hw & Hh & Hb & [s Hs]).
    destruct (process_coordinate_step st l o s c (sr_entries _ _ _ _ Hsr) Hl Hs)
      as (st1 & Hrun & Hstep).
    destruct (coordinate_step_searching w h _ _ _ _ Hstep Hsr)
      as (Hsr1 & Hext1 & Hrec1 & Hc1 & Hwork1).
    { by apply potential_in_grid. }
    { simpl. intros l' [= <-]. by eapply lookup_lt_Some. }
    destruct (IH st1 Hsr1) as (st2 & Hrun2 & Hsr2 & Hext2 & Hrec2 & Hcs2 & Hwork2).
    { by eapply prefix_lookup_Some. }
    exists st2. split_and!.
    + simpl. by rewrite (bind_Ok _ _ _ _ _ Hrun).
    + done.
    + by etrans.
    + auto.
    + intros c' [->|Hc']%elem_of_cons; [|by auto].
      apply Hrec2. by rewrite <- key_potential with (l := l) (s := s).
    + lia.
Qed.

Lemma process_board_state_run (w h : Z) (l : loc) (o : BoardState) (st : State) :
  0 ≤ w * h → searching w h (Some (key o)) st → heap st !! l = Some o →
  in_grid w h o →
  ∃ st', _process_board_state l st = (Ok tt, st') ∧
    searching w h None st' ∧ heap_extends st st' ∧
    (∀ k, recorded st k → recorded st' k) ∧
    (work w h st' ≤ work w h st)%nat.
Proof.
  intros Hn Hsr Hl Hgrid.
  destruct (process_coordinates_run w h l o (coordinates o) st Hn Hsr Hl Hgrid)
    as (st' & Hrun & [Hent Hlinks Hq Hexp] & Hext & Hrec & Hcs & Hwork).
  exists st'. split_and!; try done.
  - unfold _process_board_state. run_deref Hl. done.
  - split; try done. intros o' Ho'.
    destruct (Hexp o' Ho') as [Hc|[Hp|[= Hcur]]]; [by left|by right; left|].
    left. by apply (closed_key st' o o').
Qed.

Lemma process_queue_nil (fuel : nat) (st : State) :
  board_processing_queue st = [] → process_queue fuel st = (Ok tt, st).
Proof. intros Hq. destruct fuel; simpl; unfold bind, gets; by rewrite Hq. Qed.

Lemma process_queue_cons (fuel : nat) (st : State) (l : loc) (rest : list loc) :
  board_processing_queue st = l :: rest →
  process_queue (S fuel) st =
  bind (_process_board_state l) (λ _, process_queue fuel)
    (set_board_processing_queue rest st).
Proof. intros Hq. simpl. unfold bind at 1, gets. by rewrite Hq. Qed.

Lemma searching_pop (w h : Z) (st : State) (l : loc) (rest : list loc)
    (o : BoardState) :
  board_processing_queue st = l :: rest → heap st !! l = Some o →
  searching w h None st →
  searching w h (Some (key o)) (set_board_processing_queue rest st).
Proof.
  intros Hq Hl [Hent Hlinks Hqok Hexp]. split; try done.
  - intros l' Hl'. apply Hqok. rewrite Hq. by apply elem_of_cons; right.
  - intros o' Ho'. destruct (Hexp o' Ho') as [Hc|[Hp|[=]]]; [by left|].
    destruct Hp as (l0 & o0 & Hl0 & Ho0 & Hk0). rewrite Hq in Hl0.
    apply elem_of_cons in Hl0 as [->|Hl0].
    + right; right. simplify_eq. by rewrite Hk0.
    + right; left. by exists l0, o0.
Qed.

Lemma process_queue_run (w h : Z) (n : nat) (st : State) :
  0 ≤ w * h → searching w h None st → (work w h st ≤ n)%nat →
  ∃ st', (∀ fuel, (n ≤ fuel)%nat → process_queue fuel st = (Ok tt, st')) ∧
    searching w h None st' ∧ board_processing_queue st' = [] ∧
    heap_extends st st' ∧ (∀ k, recorded st k → recorded st' k).
Proof.
  intros Hn. revert st. induction n as [|n IH]; intros st Hsr Hwork.
  - assert (board_processing_queue st = []) as Hq.
    { unfold work in Hwork. apply length_zero_iff_nil. lia. }
    exists st. split_and!; [|done..|reflexivity|done].
    intros fuel _. by apply process_queue_nil.
  - destruct (board_processing_queue st) as [|l rest] eqn:Hq.
    { exists st. split_and!; [|done..|reflexivity|done].
      intros fuel _. by apply process_queue_nil. }
    destruct (sr_queue _ _ _ _ Hsr l) as (o & Hl & Hgrid).
    { rewrite Hq. by apply elem_of_cons; left. }
    pose proof (searching_pop w h st l rest o Hq Hl Hsr) as Hsr1.
    destruct (process_board_state_run w h l o _ Hn Hsr1 Hl Hgrid)
      as (st2 & Hrun2 & Hsr2 & Hext2 & Hrec2 & Hwork2).
    destruct (IH st2 Hsr2) as (st3 & Hrun3 & Hsr3 & Hq3 & Hext3 & Hrec3).
    { unfold work in *. rewrite Hq in Hwork. simpl in *. lia. }
    exists st3. split_and!; try done.
    + intros [|fuel] Hfuel; [lia|].
      rewrite (process_queue_cons _ _ _ _ Hq).
      rewrite (bind_Ok _ _ _ _ _ Hrun2). apply Hrun3. lia.
    + etrans; [|exact Hext3]. etrans; [|exact Hext2].
      by apply heap_extends_same_heap.
    + intros k Hk. by apply Hrec3, Hrec2.
Qed.

(** ** The search: a whole call *)

Lemma origin_in_coordinates (o : BoardState) :
  0 < width o → 0 < height o → (0, 0) ∈ coordinates o.
Proof.
  intros Hw Hh. unfold coordinates. apply list_elem_of_bind.
  exists 0. split; [|apply elem_of_range; lia].
  apply list_elem_of_fmap. exists 0. split; [done|apply elem_of_range; lia].
Qed.

Lemma key_clicked_twice (o : BoardState) (c : Coordinates) :
  key (clicked (clicked o c) c) = key o.
Proof. apply key_dims; simpl; [done..|]. apply clicked_board_twice. Qed.

(** Where recorded boards are closed and the solved board is closed, the
    solved board is recorded: click once at the origin and once more. *)
Lemma solved_recorded (w h : Z) (st : State) :
  0 < w → 0 < h → (∀ o, recorded st (key o) → closed st o) →
  closed st (solved w h) → recorded st (key (solved w h)).
Proof.
  intros Hw Hh Hclosed Hsolved.
  rewrite <- (key_clicked_twice (solved w h) (0, 0)).
  apply Hclosed; [|by apply origin_in_coordinates].
  apply Hsolved. by apply origin_in_coordinates.
Qed.

Lemma searching_done (w h : Z) (st : State) :
  searching w h None st → board_processing_queue st = [] →
  solver_wf st ∧ closed st (solved w h).
Proof.
  intros [Hent Hlinks Hq Hexp] Hnil.
  assert (∀ o, recorded st (key o) ∨ key o = key (solved w h) → closed st o)
    as Hclosed.
  { intros o Ho. destruct (Hexp o Ho) as [Hc|[Hp|[=]]]; [done|].
    destruct Hp as (l & _ & Hl & _). rewrite Hnil in Hl.
    by apply elem_of_nil in Hl. }
  split; [split; auto|]. apply Hclosed. by right.
Qed.

Lemma solved_in_grid (w h : Z) : 0 ≤ w * h → in_grid w h (solved w h).
Proof.
  intros Hn. unfold in_grid, solved, solved_bits; simpl.
  split; [done|]. split; [done|]. split; [|by eexists].
  assert (0 < 2 ^ (w * h)) by (by apply Z.pow_pos_nonneg). lia.
Qed.

(** The state in which the loop of [_find_board_solution] starts. *)
Lemma searching_start (w h : Z) (st : State) :
  0 ≤ w * h → solver_wf st →
  searching w h None
    (mkState (heap st ++ [solved w h]) (discovered_boards st)
       [length (heap st)]).
Proof.
  intros Hn [Hq Hent Hlinks Hclosed]. split.
  - apply entries_ok_snoc; [done|by eexists|by left].
  - apply links_ok_snoc; [done|]. by intros l' [=].
  - apply queue_ok_snoc; [|by apply solved_in_grid|right; by rewrite Hq].
    intros l Hl. rewrite Hq in Hl. by apply elem_of_nil in Hl.
  - intros o [Ho|Ho].
    + left. apply (Hclosed o Ho).
    + right; left. exists (length (heap st)), (solved w h). simpl.
      split_and!; [by apply list_elem_of_singleton|by apply list_lookup_middle|done].
Qed.

Lemma solver_wf_snoc (st : State) (o : BoardState) :
  solver_wf st → next_solution_board o = None →
  solver_wf (set_heap (heap st ++ [o]) st).
Proof.
  intros [Hq Hent Hlinks Hclosed] Hnext. split; simpl; [done| | |done].
  - intros k l Hl. destruct (Hent k l Hl) as (o' & Ho' & Hk & Hs).
    exists o'. split_and!; [by apply lookup_app_l_Some|done..].
  - apply links_ok_snoc; [done|]. rewrite Hnext. by intros l' [=].
Qed.

Lemma solver_wf_initial : solver_wf initial_state.
Proof.
  split; [done|..].
  - intros k l Hl. exfalso.
    apply (lookup_empty_Some (M := gmap string) k l). exact Hl.
  - intros l o l' Hl. destruct l; discriminate Hl.
  - intros o [l Hl]. exfalso.
    apply (lookup_empty_Some (M := gmap string) (key o) l). exact Hl.
Qed.

Lemma make_board_run (st : State) (w h b : Z) :
  make_board w h b st =
  (Ok (length (heap st)),
   set_heap (heap st ++ [mkBoardState w h None None None b]) st).
Proof.
  destruct st as [hp d q]. unfold make_board.
  unfold bind at 1, new_BoardState, set_heap; simpl.
  unfold bind at 1. by rewrite assign_last.
Qed.

(** A caller that builds a board leaves the solver well formed. *)
Lemma solver_wf_make_board (st : State) (w h b : Z) :
  solver_wf st → solver_wf (snd (make_board w h b st)).
Proof. intros Hwf. rewrite make_board_run. by apply solver_wf_snoc. Qed.

Lemma find_board_solution_found (fuel : nat) (st : State) (q : loc)
    (this : BoardState) (l : loc) :
  heap st !! q = Some this → discovered_boards st !! key this = Some l →
  _find_board_solution fuel q st = (Ok (Some l), st).
Proof.
  intros Hq Hd. unfold _find_board_solution.
  run_deref Hq.
  run_get. by rewrite Hd.
Qed.

Lemma find_board_solution_no_cells (fuel : nat) (st : State) (q : loc)
    (this : BoardState) :
  heap st !! q = Some this → discovered_boards st !! key this = None →
  ¬ (0 < width this ∧ 0 < height this) →
  _find_board_solution fuel q st =
  (Raise ValueError,
   set_heap (heap st ++ [mkBoardState (width this) (height this) None None
                           None 0]) st).
Proof.
  intros Hq Hd Hwh. unfold _find_board_solution.
  run_deref Hq.
  run_get. rewrite Hd.
  unfold bind at 1. rewrite solution_board_raise by lia. done.
Qed.

Lemma find_board_solution_search (fuel : nat) (st st1 : State) (q : loc)
    (this : BoardState) :
  heap st !! q = Some this → 0 < width this → 0 < height this →
  board_processing_queue st = [] →
  discovered_boards st !! key this = None →
  discovered_boards st !! key (solved (width this) (height this)) = None →
  process_queue fuel
    (mkState (heap st ++ [solved (width this) (height this)])
       (discovered_boards st) [length (heap st)]) = (Ok tt, st1) →
  heap st `prefix_of` heap st1 →
  _find_board_solution fuel q st = (Ok (discovered_boards st1 !! key this), st1).
Proof.
  intros Hq Hw Hh Hnil Hd Hs Hrun Hext. unfold _find_board_solution.
  run_deref Hq.
  run_get. rewrite Hd.
  rewrite (bind_Ok _ _ _ _ _ (solution_board_run _ _ _ Hw Hh)).
  erewrite bind_Ok; [|apply deref_Some; by apply list_lookup_middle].
  run_get.
  cbn [discovered_boards set_heap]. rewrite Hs.
  unfold bind at 1, queue_append, modify, set_board_processing_queue.
  cbn [heap discovered_boards board_processing_queue set_heap]. rewrite Hnil.
  rewrite app_nil_l, (bind_Ok _ _ _ _ _ Hrun).
  erewrite bind_Ok; [|apply deref_Some; by eapply prefix_lookup_Some].
  reflexivity.
Qed.

(** From a well-formed state [_find_board_solution] ends, for every amount of
    fuel above a bound, in one and the same well-formed state with an answer
    read from the dictionary. *)
Lemma find_board_solution_run (st : State) (q : loc) (this : BoardState) :
  solver_wf st → heap st !! q = Some this →
  ∃ N st1 r,
    (∀ fuel, (N ≤ fuel)%nat → _find_board_solution fuel q st = (r, st1)) ∧
    solver_wf st1 ∧ heap_extends st st1 ∧ answered st1 this r.
Proof.
  intros Hwf Hq.
  destruct (discovered_boards st !! key this) as [l|] eqn:Hd.
  { exists 0%nat, st, (Ok (Some l)). split_and!; [|done|reflexivity|].
    - intros fuel _. by apply find_board_solution_found with this.
    - left. rewrite Hd. split; [done|]. left. by exists l. }
  destruct (decide (0 < width this ∧ 0 < height this)) as [[Hw Hh]|Hwh]; last first.
  { eexists 0%nat, _, _. split_and!.
    - intros fuel _. by apply find_board_solution_no_cells.
    - by apply solver_wf_snoc.
    - unfold heap_extends; simpl. by apply prefix_app_r.
    - right. split_and!; [done| |done]. intros [l Hl]. simpl in Hl. congruence. }
  destruct (discovered_boards st !! key (solved (width this) (height this)))
    as [ls|] eqn:Hs.
  { eexists 0%nat, _, _. split_and!.
    - intros fuel _. by eapply find_board_solution_exhausted.
    - by apply solver_wf_snoc.
    - unfold heap_extends; simpl. by apply prefix_app_r.
    - left. simpl. rewrite Hd. split; [done|]. right.
      split_and!; [done..|]. by exists ls. }
  assert (0 ≤ width this * height this) as Hn by nia.
  pose proof (searching_start _ _ st Hn Hwf) as Hstart.
  destruct (process_queue_run _ _ _ _ Hn Hstart (le_n _))
    as (st1 & Hrun & Hsr1 & Hq1 & Hext1 & Hrec1).
  destruct (searching_done _ _ _ Hsr1 Hq1) as [Hwf1 Hclosed1].
  assert (heap st `prefix_of` heap st1) as Hext.
  { etrans; [|exact Hext1]. simpl. by apply prefix_app_r. }
  eexists _, st1, _. split_and!; [|done|done|].
  - intros fuel Hfuel.
    apply find_board_solution_search; try done; [apply Hwf|by apply Hrun].
  - left. split; [done|]. right. split_and!; [done..|].
    apply solved_recorded; [done..|apply Hwf1|done].
Qed.

(** Asked again in a state that holds the answer, [_find_board_solution]
    gives it again, whatever the fuel, and leaves dictionary and queue
    alone. *)
Lemma find_board_solution_cached (fuel : nat) (st1 : State) (q : loc)
    (this : BoardState) (r : result (option loc)) :
  heap st1 !! q = Some this → answered st1 this r →
  ∃ st2, _find_board_solution fuel q st1 = (r, st2) ∧
    discovered_boards st2 = discovered_boards st1 ∧
    board_processing_queue st2 = board_processing_queue st1 ∧
    heap st1 `prefix_of` heap st2 ∧
    (∀ l, r = Ok (Some l) → st2 = st1).
Proof.
  intros Hq [[-> Hans]|(-> & Hnone & Hwh)].
  - destruct (discovered_boards st1 !! key this) as [l|] eqn:Hd.
    + exists st1. split_and!; try done.
      by apply find_board_solution_found with this.
    + destruct Hans as [[l Hl]|(Hw & Hh & [ls Hs])]; [congruence|].
      eexists. split_and!; [by eapply find_board_solution_exhausted|done..| |done].
      simpl. by apply prefix_app_r.
  - eexists. split_and!; [apply find_board_solution_no_cells; try done|done..| |done].
    + apply eq_None_not_Some. exact Hnone.
    + simpl. by apply prefix_app_r.
Qed.

(** ** Following the links *)

Lemma walk_solution_None (fuel : nat) (acc : list loc) (st : State) :
  walk_solution fuel None acc st = (Ok acc, st).
Proof. by destruct fuel. Qed.

Lemma walk_solution_run (st : State) (fuel : nat) (l : loc) (acc : list loc) :
  links_ok st → is_Some (heap st !! l) → (l < fuel)%nat →
  ∃ rest, walk_solution fuel (Some l) acc st = (Ok (acc ++ l :: rest), st).
Proof.
  intros Hlinks. revert l acc.
  induction fuel as [|fuel IH]; intros l acc [o Ho] Hfuel; [lia|].
  simpl. run_deref Ho.
  destruct (next_solution_board o) as [l'|] eqn:Hnext.
  - pose proof (Hlinks _ _ _ Ho Hnext) as Hlt.
    destruct (IH l' (acc ++ [l])) as [rest Hrest]; [|lia|].
    { apply lookup_lt_is_Some. apply lookup_lt_Some in Ho. lia. }
    exists (l' :: rest). by rewrite Hrest, <- app_assoc.
  - exists []. by rewrite walk_solution_None.
Qed.

Lemma find_solution_unfold (fuel : nat) (q : loc) (st st1 : State)
    (r : result (option loc)) :
  _find_board_solution fuel q st = (r, st1) →
  find_solution fuel q st =
  match r with
  | Ok cur => bind (walk_solution fuel cur []) (λ l, ret (or_None l)) st1
  | Raise e => (Raise e, st1)
  | OutOfFuel => (OutOfFuel, st1)
  end.
Proof. intros H. unfold find_solution. unfold bind at 1. rewrite H. by destruct r. Qed.

(** In a well-formed solver [find_solution] ends with a result for every
    amount of fuel above a bound; the same query asked again gets the same
    result, and the second call leaves the dictionary and the queue as the
    first call left them.  The solver is well formed again afterwards. *)
Lemma find_solution_twice_wf (st : State) (q : loc) (this : BoardState) :
  solver_wf st → heap st !! q = Some this →
  ∃ N, ∀ fuel, (N ≤ fuel)%nat →
    ∃ r st1 st2,
      find_solution fuel q st = (r, st1) ∧ r ≠ OutOfFuel ∧
      find_solution fuel q st1 = (r, st2) ∧
      discovered_boards st2 = discovered_boards st1 ∧
      board_processing_queue st2 = board_processing_queue st1 ∧
      heap st1 `prefix_of` heap st2 ∧ solver_wf st1.
Proof.
  intros Hwf Hq.
  destruct (find_board_solution_run st q this Hwf Hq)
    as (N & st1 & r0 & Hrun & Hwf1 & Hext & Hans).
  exists (N `max` length (heap st1))%nat. intros fuel Hfuel.
  assert (heap st1 !! q = Some this) as Hq1 by (by eapply prefix_lookup_Some).
  destruct (find_board_solution_cached fuel st1 q this r0 Hq1 Hans)
    as (st2 & Hrun2 & Hd2 & Hq2 & Hext2 & Hsame).
  pose proof (find_solution_unfold _ _ _ _ _ (Hrun fuel ltac:(lia))) as H1.
  pose proof (find_solution_unfold _ _ _ _ _ Hrun2) as H2.
  destruct r0 as [[l|]|e|].
  - rewrite (Hsame l eq_refl) in *.
    destruct Hans as [[[= Hl] _]|[[=] _]].
    destruct (wf_entries _ Hwf1 _ _ (eq_sym Hl)) as (o & Ho & _).
    destruct (walk_solution_run st1 fuel l [] (wf_links _ Hwf1)) as [rest Hwalk].
    { by exists o. }
    { apply lookup_lt_Some in Ho. lia. }
    rewrite (bind_Ok _ _ _ _ _ Hwalk) in H1, H2. unfold ret in H1, H2.
    eexists _, st1, st1. by split_and!.
  - unfold bind, ret in H1, H2. rewrite walk_solution_None in H1, H2.
    eexists _, st1, st2. by split_and!.
  - eexists _, st1, st2. by split_and!.
  - by destruct Hans as [[[=] _]|[[=] _]].
Qed.

(** ** Fuel *)

Lemma steady_const {A} (m : M A) : steady (λ _, m).
Proof. by intros fuel fuel' st r st' H _ _. Qed.

Lemma steady_bind {A B} (m : nat → M A) (k : A → nat → M B) :
  steady m → (∀ a, steady (k a)) → steady (λ fuel, bind (m fuel) (λ a, k a fuel)).
Proof.
  intros Hm Hk fuel fuel' st r st' Hrun Hr Hle. unfold bind in *.
  destruct (m fuel st) as [r1 st1] eqn:Hm1.
  assert (r1 ≠ OutOfFuel) as Hr1 by (intros ->; by injection Hrun as <- _).
  rewrite (Hm _ _ _ _ _ Hm1 Hr1 Hle).
  destruct r1 as [a| |]; [|done..]. by eapply Hk.
Qed.

Lemma steady_process_queue : steady process_queue.
Proof.
  intros fuel. induction fuel as [|fuel IH]; intros fuel' st r st' Hrun Hr Hle.
  - destruct (board_processing_queue st) as [|l rest] eqn:Hq.
    + rewrite process_queue_nil in Hrun by done. by rewrite process_queue_nil.
    + simpl in Hrun. unfold bind, gets in Hrun. rewrite Hq in Hrun.
      by injection Hrun as <- _.
  - destruct (board_processing_queue st) as [|l rest] eqn:Hq.
    + rewrite process_queue_nil in Hrun by done. by rewrite process_queue_nil.
    + destruct fuel' as [|fuel']; [lia|].
      rewrite (process_queue_cons _ _ _ _ Hq) in Hrun.
      rewrite (process_queue_cons _ _ _ _ Hq). unfold bind in *.
      revert Hrun.
      destruct (_process_board_state l _) as [[[]| |] st2]; [|done..].
      intros Hrun. apply (IH fuel'); [done..|lia].
Qed.

Lemma steady_walk_solution (cur : option loc) (acc : list loc) :
  steady (λ fuel, walk_solution fuel cur acc).
Proof.
  intros fuel. revert cur acc.
  induction fuel as [|fuel IH]; intros cur acc fuel' st r st' Hrun Hr Hle.
  - destruct cur as [l|].
    + by injection Hrun as <- _.
    + by rewrite walk_solution_None in *.
  - destruct cur as [l|]; [|by rewrite walk_solution_None in *].
    destruct fuel' as [|fuel']; [lia|]. simpl in *. unfold bind in *.
    revert Hrun. destruct (deref l st) as [[bs| |] st1]; [|done..].
    intros Hrun. apply (IH _ _ fuel'); [done..|lia].
Qed.

Lemma steady_find_board_solution (q : loc) :
  steady (λ fuel, _find_board_solution fuel q).
Proof.
  unfold _find_board_solution.
  apply (steady_bind (λ _, deref q)); [apply steady_const|]. intros this.
  apply (steady_bind (λ _, discovered_get _)); [apply steady_const|].
  intros [existing|]; [apply steady_const|].
  apply (steady_bind (λ _, solution_board _ _)); [apply steady_const|]. intros sb.
  apply (steady_bind (λ _, deref sb)); [apply steady_const|]. intros sbo.
  apply (steady_bind (λ _, discovered_get _)); [apply steady_const|].
  intros [found|]; [apply steady_const|].
  apply (steady_bind (λ _, queue_append sb)); [apply steady_const|]. intros _.
  apply (steady_bind process_queue); [apply steady_process_queue|]. intros _.
  apply steady_const.
Qed.

Lemma steady_find_solution (q : loc) : steady (λ fuel, find_solution fuel q).
Proof.
  unfold find_solution.
  apply (steady_bind (λ fuel, _find_board_solution fuel q));
    [apply steady_find_board_solution|]. intros cur.
  apply (steady_bind (λ fuel, walk_solution fuel cur []));
    [apply steady_walk_solution|]. intros l. apply steady_const.
Qed.

(** ** The states a program reaches *)

Lemma find_solution_invalid (fuel : nat) (q : loc) (st : State) :
  heap st !! q = None → find_solution fuel q st = (Raise InvalidReference, st).
Proof.
  intros Hq. unfold find_solution, _find_board_solution, bind, deref.
  by rewrite Hq.
Qed.

Lemma find_solution_wf (fuel : nat) (q : loc) (st : State) :
  solver_wf st → fst (find_solution fuel q st) ≠ OutOfFuel →
  solver_wf (snd (find_solution fuel q st)).
Proof.
  intros Hwf Hr. destruct (heap st !! q) as [this|] eqn:Hq.
  - destruct (find_solution_twice_wf st q this Hwf Hq) as [N HN].
    destruct (HN (N `max` fuel)%nat ltac:(lia))
      as (r & st1 & _ & Hrun1 & _ & _ & _ & _ & _ & Hwf1).
    destruct (find_solution fuel q st) as [r' st'] eqn:Hrun. simpl in *.
    pose proof (steady_find_solution q fuel (N `max` fuel)%nat st r' st'
                  Hrun Hr ltac:(lia)) as Hmore.
    cbv beta in Hmore. rewrite Hrun1 in Hmore. by injection Hmore as _ <-.
  - by rewrite find_solution_invalid.
Qed.

Lemma reachable_wf (st : State) : reachable st → solver_wf st.
Proof.
  induction 1 as [|st w h b _ IH|st fuel q _ IH Hr].
  - apply solver_wf_initial.
  - by apply solver_wf_make_board.
  - by apply find_solution_wf.
Qed.

(** Asked again in a state that holds the answer, [_find_board_solution]
    runs no search: it returns from one of its two early exits, or raises in
    [solution_board], and the one object it can add to the store is the board
    [solution_board] builds before the dictionary is asked for it. *)
Lemma find_board_solution_again (fuel : nat) (st1 : State) (q : loc)
    (this : BoardState) (r : result (option loc)) :
  heap st1 !! q = Some this → answered st1 this r →
  ∃ st2, _find_board_solution fuel q st1 = (r, st2) ∧
    ((∃ l, r = Ok (Some l) ∧ st2 = st1) ∨
     (r = Ok None ∧
      st2 = set_heap (heap st1 ++ [solved (width this) (height this)]) st1) ∨
     (r = Raise ValueError ∧
      st2 = set_heap (heap st1 ++ [mkBoardState (width this) (height this)
                                     None None None 0]) st1)).
Proof.
  intros Hq [[-> Hans]|(-> & Hnone & Hwh)].
  - destruct (discovered_boards st1 !! key this) as [l|] eqn:Hd.
    + exists st1. split; [by apply find_board_solution_found with this|].
      left. by exists l.
    + destruct Hans as [[l Hl]|(Hw & Hh & [ls Hs])]; [congruence|].
      eexists. split; [by eapply find_board_solution_exhausted|].
      right; left. done.
  - eexists. split.
    + apply find_board_solution_no_cells; try done.
      apply eq_None_not_Some. exact Hnone.
    + right; right. done.
Qed.

Lemma find_solution_again (st : State) (q : loc) (this : BoardState) :
  solver_wf st → heap st !! q = Some this →
  ∃ N, ∀ fuel, (N ≤ fuel)%nat →
    ∃ r st1 st2,
      find_solution fuel q st = (r, st1) ∧ r ≠ OutOfFuel ∧
      find_solution fuel q st1 = (r, st2) ∧
      ((∃ path, r = Ok (Some path) ∧ st2 = st1) ∨
       (r = Ok None ∧
        st2 = set_heap (heap st1 ++ [solved (width this) (height this)]) st1) ∨
       (r = Raise ValueError ∧
        st2 = set_heap (heap st1 ++ [mkBoardState (width this) (height this)
                                       None None None 0]) st1)).
Proof.
  intros Hwf Hq.
  destruct (find_board_solution_run st q this Hwf Hq)
    as (N & st1 & r0 & Hrun & Hwf1 & Hext & Hans).
  exists (N `max` length (heap st1))%nat. intros fuel Hfuel.
  assert (heap st1 !! q = Some this) as Hq1 by (by eapply prefix_lookup_Some).
  destruct (find_board_solution_again fuel st1 q this r0 Hq1 Hans)
    as (st2 & Hrun2 & Hcase).
  pose proof (find_solution_unfold _ _ _ _ _ (Hrun fuel ltac:(lia))) as H1.
  pose proof (find_solution_unfold _ _ _ _ _ Hrun2) as H2.
  destruct Hcase as [(l & -> & ->)|[[-> ->]|[-> ->]]].
  - destruct Hans as [[[= Hl] _]|[[=] _]].
    destruct (wf_entries _ Hwf1 _ _ (eq_sym Hl)) as (o & Ho & _).
    destruct (walk_solution_run st1 fuel l [] (wf_links _ Hwf1)) as [rest Hwalk].
    { by exists o. }
    { apply lookup_lt_Some in Ho. lia. }
    rewrite (bind_Ok _ _ _ _ _ Hwalk) in H1, H2. unfold ret in H1, H2.
    eexists _, st1, st1. split_and!; [exact H1|done|exact H2|].
    left. by eexists.
  - unfold bind, ret in H1, H2. rewrite walk_solution_None in H1, H2.
    eexists _, st1, _. split_and!; [exact H1|done|exact H2|].
    right; left. done.
  - eexists _, st1, _. split_and!; [exact H1|done|exact H2|].
    right; right. done.
Qed.

(** C9: in every state a program can bring a solver to, [find_solution] ends
    with a result for every amount of fuel above a bound; the same query
    asked again gets the same result, and the second call leaves the
    dictionary and the queue exactly as the first call left them and changes
    no object of the store.  The second call runs no search and expands no
    board: when the result is a solution it leaves the whole state as it
    was; when the result is [None] (or the [ValueError] of a size without
    cells) the state differs by one object only, the board that
    [solution_board] builds before the dictionary is asked for it. *)
Theorem find_solution_twice (st : State) (q : loc) (this : BoardState) :
  reachable st → heap st !! q = Some this →
  ∃ N, ∀ fuel, (N ≤ fuel)%nat →
    ∃ r st1 st2,
      find_solution fuel q st = (r, st1) ∧ r ≠ OutOfFuel ∧
      find_solution fuel q st1 = (r, st2) ∧
      discovered_boards st2 = discovered_boards st1 ∧
      board_processing_queue st2 = board_processing_queue st1 ∧
      heap st1 `prefix_of` heap st2 ∧
      ((∃ path, r = Ok (Some path) ∧ st2 = st1) ∨
       (r = Ok None ∧
        st2 = set_heap (heap st1 ++ [solved (width this) (height this)]) st1) ∨
       (r = Raise ValueError ∧
        st2 = set_heap (heap st1 ++ [mkBoardState (width this) (height this)
                                       None None None 0]) st1)).
Proof.
  intros Hreach Hq.
  destruct (find_solution_again st q this (reachable_wf _ Hreach) Hq)
    as [N HN].
  exists N. intros fuel Hfuel.
  destruct (HN fuel Hfuel) as (r & st1 & st2 & H1 & Hr & H2 & Hcase).
  exists r, st1, st2. split_and!; [done..| | | |done].
  - destruct Hcase as [(? & _ & ->)|[[_ ->]|[_ ->]]]; done.
  - destruct Hcase as [(? & _ & ->)|[[_ ->]|[_ ->]]]; done.
  - destruct Hcase as [(? & _ & ->)|[[_ ->]|[_ ->]]];
      [done|simpl; by apply prefix_app_r..].
Qed.

(** The board of the script's main block, asked twice. *)
Lemma find_solution_twice_witness :
  ∃ N, ∀ fuel, (N ≤ fuel)%nat →
    ∃ r st1 st2,
      find_solution fuel 0%nat example_state = (r, st1) ∧ r ≠ OutOfFuel ∧
      find_solution fuel 0%nat st1 = (r, st2) ∧
      discovered_boards st2 = discovered_boards st1 ∧
      board_processing_queue st2 = board_processing_queue st1 ∧
      heap st1 `prefix_of` heap st2 ∧
      ((∃ path, r = Ok (Some path) ∧ st2 = st1) ∨
       (r = Ok None ∧
        st2 = set_heap (heap st1 ++ [solved (width example_board)
                                       (height example_board)]) st1) ∨
       (r = Raise ValueError ∧
        st2 = set_heap (heap st1 ++ [mkBoardState (width example_board)
                                       (height example_board)
                                       None None None 0]) st1)).
Proof.
  apply (find_solution_twice example_state 0%nat example_board).
  - apply reachable_make_board, reachable_initial.
  - reflexivity.
Defined.

(** ** The annotations of the boards *)

Lemma link_ok_mono (st st' : State) (o : BoardState) (l' : loc) :
  heap st `prefix_of` heap st' → link_ok st o l' → link_ok st' o l'.
Proof.
  intros Hext (o' & s & c & Ho' & Hrest). exists o', s, c.
  split; [by eapply prefix_lookup_Some|done].
Qed.

Lemma object_ok_mono (st st' : State) (l : loc) (o : BoardState) :
  heap st `prefix_of` heap st' → object_ok st l o → object_ok st' l o.
Proof.
  intros Hext. unfold object_ok.
  destruct (next_solution_board o); [|done].
  intros [Hlt Hlink]. split; [done|by eapply link_ok_mono].
Qed.

Lemma annotates_snoc (st st' : State) (o : BoardState) :
  heap st' = heap st ++ [o] →
  (annotations_ok st → object_ok st (length (heap st)) o) →
  annotates st st'.
Proof.
  intros Hheap Ho.
  assert (heap st `prefix_of` heap st') as Hext.
  { rewrite Hheap. by apply prefix_app_r. }
  split; [done|]. intros Hann l o' Hl.
  apply (object_ok_mono st); [done|]. rewrite Hheap in Hl.
  apply lookup_app_Some in Hl as [Hl|[Hlen Hl]]; [by apply Hann|].
  apply list_lookup_singleton_Some in Hl as [Hl0 <-].
  replace l with (length (heap st)) by lia. by apply Ho.
Qed.

Lemma annotates_same_heap (st st' : State) :
  heap st' = heap st → annotates st st'.
Proof.
  intros Hheap. split; [by apply heap_extends_same_heap|].
  intros Hann l o Hl. rewrite Hheap in Hl.
  apply (object_ok_mono st); [by rewrite Hheap|by apply Hann].
Qed.

Global Instance annotates_preorder : PreOrder annotates.
Proof.
  split.
  - intros st. by apply annotates_same_heap.
  - intros st1 st2 st3 [Hh12 Ha12] [Hh23 Ha23]. split; [by etrans|auto].
Qed.

(** A board without annotations, as the constructor, [invert] and [click]
    leave it. *)
Lemma object_ok_plain (st : State) (l : loc) (w h b : Z) :
  object_ok st l (mkBoardState w h None None None b).
Proof. unfold object_ok; simpl. by intros [? [=]]. Qed.

Lemma object_ok_solved (st : State) (l : loc) (w h : Z) :
  object_ok st l (solved w h).
Proof. unfold object_ok; simpl. done. Qed.

(** The distance an annotated board carries is not negative. *)
Lemma annotations_steps (st : State) (l : loc) (o : BoardState) (s : Z) :
  annotations_ok st → heap st !! l = Some o →
  steps_from_solution o = Some s → 0 ≤ s.
Proof.
  intros Hann Hl Hs. pose proof (Hann l o Hl) as Hobj. unfold object_ok in Hobj.
  destruct (next_solution_board o) as [l'|].
  - destruct Hobj as [_ (o' & s' & c & _ & Hs' & _ & Hso & _)].
    rewrite Hs in Hso. injection Hso as ->. lia.
  - rewrite Hobj in Hs by (by eexists). simpl in Hs. injection Hs as <-. done.
Qed.

Lemma object_ok_potential (st : State) (l : loc) (o : BoardState)
    (c : Coordinates) (s : Z) :
  annotations_ok st → heap st !! l = Some o → steps_from_solution o = Some s →
  object_ok st (length (heap st)) (potential o l c s).
Proof.
  intros Hann Hl Hs. unfold object_ok; simpl.
  split; [by eapply lookup_lt_Some|].
  exists o, s, c. split_and!; try done.
  - by eapply annotations_steps.
  - simpl. symmetry. apply clicked_board_twice.
Qed.

Lemma annotates_process_coordinate (l : loc) (c : Coordinates) :
  respects annotates (process_coordinate l c).
Proof.
  intros st. destruct (heap st !! l) as [this|] eqn:Hl.
  - rewrite (process_coordinate_run _ _ _ _ Hl). unfold process_coordinate_spec.
    destruct (steps_from_solution this) as [s|] eqn:Hs.
    + repeat case_match; simpl;
        (eapply annotates_snoc; [done|intros Hann; by apply object_ok_potential]).
    + simpl. eapply annotates_snoc; [done|intros _; apply object_ok_plain].
  - unfold process_coordinate, bind. rewrite (click_invalid _ _ _ Hl).
    reflexivity.
Qed.

Lemma annotates_solution_board (w h : Z) :
  respects annotates (solution_board w h).
Proof.
  intros st. destruct (decide (0 < w ∧ 0 < h)) as [[Hw Hh]|Hwh].
  - rewrite solution_board_run by done.
    eapply annotates_snoc; [done|intros _; apply object_ok_solved].
  - rewrite solution_board_raise by lia.
    eapply annotates_snoc; [done|intros _; apply object_ok_plain].
Qed.

Lemma annotates_find_solution (fuel : nat) (q : loc) :
  respects annotates (find_solution fuel q).
Proof.
  apply respects_find_solution; [apply _| | |].
  - apply annotates_process_coordinate.
  - apply annotates_solution_board.
  - intros rest st. by apply annotates_same_heap.
Qed.

Lemma reachable_annotations (st : State) : reachable st → annotations_ok st.
Proof.
  induction 1 as [|st w h b _ IH|st fuel q _ IH Hr].
  - intros l o Hl. destruct l; discriminate Hl.
  - rewrite make_board_run.
    eapply annotates_snoc; [| |exact IH]; [done|intros _; apply object_ok_plain].
  - by apply (annotates_find_solution fuel q st).
Qed.

(** ** The solutions returned *)

Lemma walk_solution_path (st : State) (fuel : nat) (l : loc) (o : BoardState)
    (acc path : list loc) (st' : State) :
  annotations_ok st → heap st !! l = Some o →
  is_Some (steps_from_solution o) →
  walk_solution fuel (Some l) acc st = (Ok path, st') →
  ∃ rest, path = acc ++ l :: rest ∧ solution_path st (l :: rest).
Proof.
  intros Hann. revert l o acc.
  induction fuel as [|fuel IH]; intros l o acc Ho Hs Hwalk; [done|].
  simpl in Hwalk. rewrite (bind_Ok _ _ _ _ _ (deref_Some _ _ _ Ho)) in Hwalk.
  pose proof (Hann l o Ho) as Hobj. unfold object_ok in Hobj.
  destruct (next_solution_board o) as [l'|] eqn:Hnext.
  - destruct Hobj as [Hlt Hlink].
    pose proof Hlink as (o' & s & c & Ho' & _ & Hs' & _).
    destruct (IH l' o' (acc ++ [l]) Ho') as (rest & -> & Hpath); [by eexists|done|].
    exists (l' :: rest). split; [by rewrite <- app_assoc|].
    by eapply path_step.
  - rewrite walk_solution_None in Hwalk. injection Hwalk as <- _.
    exists []. split; [done|]. eapply path_root; [done|auto].
Qed.

Lemma replay_key (a b : BoardState) (cs : list Coordinates) :
  key a = key b → key (replay a cs) = key (replay b cs).
Proof.
  revert a b. induction cs as [|c cs IH]; intros a b Hk; [done|].
  apply (IH (clicked a c) (clicked b c)). by apply key_clicked.
Qed.

Lemma clicks_of_cons (st : State) (l : loc) (rest : list loc) (o : BoardState) :
  heap st !! l = Some o →
  clicks_of st (l :: rest) =
  match next_solution_coordinates o with
  | Some c => c :: clicks_of st rest
  | None => clicks_of st rest
  end.
Proof. intros Ho. unfold clicks_of. simpl. by rewrite Ho. Qed.

(** Along a solution path the recorded clicks, replayed from the first
    board, end on the solved board, one click for each link. *)
Lemma solution_path_replay (st : State) (l : loc) (rest : list loc)
    (o : BoardState) :
  solution_path st (l :: rest) → heap st !! l = Some o →
  key (replay o (clicks_of st (l :: rest)))
  = key (solved (width o) (height o)) ∧
  length (clicks_of st (l :: rest)) = length rest.
Proof.
  intros Hpath. revert o. remember (l :: rest) as path eqn:Heq.
  revert l rest Heq.
  induction Hpath as [l0 o0 Ho0 Hsolved|l0 l' o0 rest0 Ho0 Hnext Hlink Hpath IH];
    intros l rest [= <- <-] o Ho; simplify_eq.
  - rewrite (clicks_of_cons _ _ _ _ Ho0).
    assert (next_solution_coordinates o0 = None) as -> by (by rewrite Hsolved).
    split; [|done]. by rewrite <- Hsolved.
  - destruct Hlink as (o' & s & c & Ho' & _ & _ & _ & Hc & Hw & Hh & Hb).
    rewrite (clicks_of_cons _ _ _ _ Ho0), Hc.
    destruct (IH l' rest0 eq_refl o' Ho') as [Hkey Hlen].
    split; [|cbn [length]; by rewrite Hlen].
    change (replay o0 (c :: ?cs)) with (replay (clicked o0 c) cs).
    rewrite (replay_key (clicked o0 c) o'); [by rewrite Hkey, Hw, Hh|].
    by apply key_dims.
Qed.

Lemma walk_solution_state (fuel : nat) (cur : option loc) (acc : list loc)
    (st : State) :
  snd (walk_solution fuel cur acc st) = st.
Proof. symmetry. apply (respects_walk_solution eq). Qed.

(** In every state a program can reach, a solution that [find_solution]
    returns starts at the recorded board with the query's key and follows the
    links down to the solved board. *)
Lemma find_solution_path (st st1 : State) (fuel : nat) (q : loc)
    (this : BoardState) (path : list loc) :
  reachable st → heap st !! q = Some this →
  find_solution fuel q st = (Ok (Some path), st1) →
  ∃ l0 o0 rest,
    path = l0 :: rest ∧ heap st1 !! l0 = Some o0 ∧ key o0 = key this ∧
    solution_path st1 path.
Proof.
  intros Hreach Hq Hrun.
  assert (reachable st1) as Hreach1.
  { replace st1 with (snd (find_solution fuel q st)) by (by rewrite Hrun).
    apply reachable_find_solution; [done|]. by rewrite Hrun. }
  destruct (find_board_solution_run st q this (reachable_wf _ Hreach) Hq)
    as (N & st1' & r0 & Hrun0 & Hwf1 & Hext & Hans).
  assert (fuel ≤ N `max` fuel)%nat as Hle by lia.
  assert (N ≤ N `max` fuel)%nat as HN by lia.
  assert (Ok (Some path) ≠ OutOfFuel) as Hok by done.
  pose proof (steady_find_solution q _ _ _ _ _ Hrun Hok Hle) as Hmore.
  cbv beta in Hmore.
  rewrite (find_solution_unfold _ _ _ _ _ (Hrun0 _ HN)) in Hmore.
  destruct r0 as [cur| |]; [|done..]. unfold bind in Hmore.
  pose proof (walk_solution_state (N `max` fuel) cur [] st1') as Hstate.
  destruct (walk_solution (N `max` fuel) cur [] st1') as [[lst| |] st1'']
    eqn:Hwalk; [|done..].
  simpl in Hstate. subst st1''. unfold ret in Hmore.
  injection Hmore as Hlst <-.
  destruct cur as [l|].
  - destruct Hans as [[[= Hl] _]|[[=] _]].
    destruct (wf_entries _ Hwf1 _ _ (eq_sym Hl)) as (o & Ho & Hk & Hs).
    destruct (walk_solution_path _ _ _ _ _ _ _
                (reachable_annotations _ Hreach1) Ho Hs Hwalk)
      as (rest & -> & Hpath).
    simpl in Hlst. injection Hlst as <-. by exists l, o, rest.
  - rewrite walk_solution_None in Hwalk. injection Hwalk as <-. done.
Qed.

(** The clicks of a returned solution, replayed from the query, end on the
    solved board of the query's size, and there is one click less than there
    are boards. *)
Lemma find_solution_clicks_solve (st st1 : State) (fuel : nat) (q : loc)
    (this : BoardState) (path : list loc) :
  reachable st → heap st !! q = Some this →
  find_solution fuel q st = (Ok (Some path), st1) →
  key (replay this (clicks_of st1 path))
  = key (solved (width this) (height this)) ∧
  S (length (clicks_of st1 path)) = length path.
Proof.
  intros Hreach Hq Hrun.
  destruct (find_solution_path _ _ _ _ _ _ Hreach Hq Hrun)
    as (l0 & o0 & rest & -> & Ho0 & Hk & Hpath).
  destruct (solution_path_replay _ _ _ _ Hpath Ho0) as [Hkey Hlen].
  split; [|cbn [length]; by rewrite Hlen].
  rewrite (replay_key this o0) by done. rewrite Hkey.
  apply key_inj in Hk as (-> & -> & _). done.
Qed.

(** ** What the dictionary holds *)

Lemma links_entries_same (st st' : State) :
  heap st `prefix_of` heap st' →
  discovered_boards st' = discovered_boards st → links_entries st st'.
Proof.
  intros Hext Hd. split; [done|]. intros Hlinked k l Hl. rewrite Hd in Hl.
  destruct (Hlinked k l Hl) as (o & Ho & Hnext).
  exists o. split; [by eapply prefix_lookup_Some|done].
Qed.

Lemma links_entries_insert (st st' : State) (pnb : BoardState) :
  heap st' = heap st ++ [pnb] → is_Some (next_solution_board pnb) →
  discovered_boards st' = <[key pnb := length (heap st)]> (discovered_boards st) →
  links_entries st st'.
Proof.
  intros Hheap Hnext Hd.
  assert (heap st `prefix_of` heap st') as Hext.
  { rewrite Hheap. by apply prefix_app_r. }
  split; [done|]. intros Hlinked k l Hl. rewrite Hd in Hl.
  destruct (decide (key pnb = k)) as [<-|Hne].
  - rewrite lookup_insert_eq in Hl. injection Hl as <-.
    exists pnb. split; [|done]. rewrite Hheap. by apply list_lookup_middle.
  - rewrite lookup_insert_ne in Hl by done.
    destruct (Hlinked k l Hl) as (o & Ho & Hn).
    exists o. split; [by eapply prefix_lookup_Some|done].
Qed.

Global Instance links_entries_preorder : PreOrder links_entries.
Proof.
  split.
  - intros st. by apply links_entries_same.
  - intros st1 st2 st3 [Hh12 Ha12] [Hh23 Ha23]. split; [by etrans|auto].
Qed.

Lemma links_entries_process_coordinate (l : loc) (c : Coordinates) :
  respects links_entries (process_coordinate l c).
Proof.
  intros st. destruct (heap st !! l) as [this|] eqn:Hl.
  - rewrite (process_coordinate_run _ _ _ _ Hl). unfold process_coordinate_spec.
    repeat case_match; simpl;
      first [ by apply links_entries_same; [apply prefix_app_r|]
            | by eapply links_entries_insert ].
  - unfold process_coordinate, bind. rewrite (click_invalid _ _ _ Hl).
    reflexivity.
Qed.

Lemma links_entries_find_solution (fuel : nat) (q : loc) :
  respects links_entries (find_solution fuel q).
Proof.
  apply respects_find_solution; [apply _| | |].
  - apply links_entries_process_coordinate.
  - intros w h st. apply links_entries_same; [|].
    + apply (heap_extends_solution_board w h st).
    + destruct (decide (0 < w ∧ 0 < h)) as [[Hw Hh]|Hwh].
      * by rewrite solution_board_run.
      * by rewrite solution_board_raise by lia.
  - intros rest st. by apply links_entries_same.
Qed.

Lemma reachable_entries_linked (st : State) : reachable st → entries_linked st.
Proof.
  induction 1 as [|st w h b _ IH|st fuel q _ IH Hr].
  - intros k l Hl. exfalso.
    apply (lookup_empty_Some (M := gmap string) k l). exact Hl.
  - rewrite make_board_run.
    apply (links_entries_same st); [by apply prefix_app_r|done|done].
  - by apply (links_entries_find_solution fuel q st).
Qed.

(** In every state a program can reach, a board that is recorded -- the
    solved board like any other -- has a next click and a next board, and is
    recorded one step further from the solution than its next board, whose
    distance is not negative. *)
Lemma recorded_board_has_predecessor (st : State) (k : string) (l : loc) :
  reachable st → discovered_boards st !! k = Some l →
  ∃ o l' o' c s,
    heap st !! l = Some o ∧ next_solution_board o = Some l' ∧
    next_solution_coordinates o = Some c ∧
    heap st !! l' = Some o' ∧ steps_from_solution o' = Some s ∧
    steps_from_solution o = Some (s + 1) ∧ 0 ≤ s.
Proof.
  intros Hreach Hl.
  destruct (reachable_entries_linked _ Hreach k l Hl) as (o & Ho & [l' Hnext]).
  pose proof (reachable_annotations _ Hreach l o Ho) as Hobj.
  unfold object_ok in Hobj. rewrite Hnext in Hobj.
  destruct Hobj as [_ (o' & s & c & Ho' & Hs & Hso' & Hso & Hc & _)].
  by exists o, l', o', c, s.
Qed.

(** * Further properties of the board *)

(** ** The coordinates of a board *)

Lemma elem_of_range_iff (b n : Z) : b ∈ range n ↔ 0 ≤ b < n.
Proof.
  split; [|apply elem_of_range].
  unfold range. intros (k & -> & Hk%elem_of_seq)%list_elem_of_fmap. lia.
Qed.

Lemma NoDup_range (n : Z) : NoDup (range n).
Proof. unfold range. apply NoDup_fmap_2; [apply _|apply NoDup_seq]. Qed.

Lemma length_range (n : Z) : length (range n) = Z.to_nat n.
Proof. unfold range. by rewrite length_fmap, length_seq. Qed.

Lemma elem_of_coordinates (self : BoardState) (c : Coordinates) :
  c ∈ coordinates self ↔ valid_coordinates self c = true.
Proof.
  destruct c as [x y]. rewrite valid_coordinates_spec. unfold coordinates.
  rewrite list_elem_of_bind. split.
  - intros (x' & (y' & [= -> ->] & Hy%elem_of_range_iff)%list_elem_of_fmap
              & Hx%elem_of_range_iff). done.
  - intros [Hx Hy]. exists x. split; [|by apply elem_of_range].
    apply list_elem_of_fmap. exists y. split; [done|by apply elem_of_range].
Qed.

Lemma length_bind_const {A B} (f : A → list B) (l : list A) (n : nat) :
  (∀ x, length (f x) = n) → length (l ≫= f) = (length l * n)%nat.
Proof.
  intros Hf. induction l as [|x l IH]; [done|].
  rewrite bind_cons, length_app, IH, Hf. simpl. lia.
Qed.

Lemma length_coordinates (self : BoardState) :
  length (coordinates self)
  = (Z.to_nat (width self) * Z.to_nat (height self))%nat.
Proof.
  unfold coordinates.
  rewrite (length_bind_const _ _ (Z.to_nat (height self))).
  - by rewrite length_range.
  - intros x. by rewrite length_fmap, length_range.
Qed.

(** X1: the generator [coordinates] yields exactly the coordinates that
    [valid_coordinates] accepts, each of them once, [width * height] of them
    in all (none when the width or the height is not positive). *)
Theorem coordinates_enumerates_grid (self : BoardState) :
  (∀ c, c ∈ coordinates self ↔ valid_coordinates self c = true) ∧
  NoDup (coordinates self) ∧
  length (coordinates self)
  = (Z.to_nat (width self) * Z.to_nat (height self))%nat.
Proof.
  split_and!; [apply elem_of_coordinates| |apply length_coordinates].
  unfold coordinates. apply NoDup_bind; [| |apply NoDup_range].
  - intros x1 x2 c _ _ (y1 & -> & _)%list_elem_of_fmap
      (y2 & [= -> _] & _)%list_elem_of_fmap. done.
  - intros x _. apply NoDup_fmap_2; [|apply NoDup_range].
    by intros y1 y2 [=].
Qed.

(** ** Cells and bits, one to one *)

(** X2: on a board of positive width the bits [0 .. width * height - 1] and
    the coordinates of the grid correspond one to one: every such bit is the
    bit [_coordinates_bit] gives for exactly one valid coordinate. *)
Theorem coordinates_bit_layout (self : BoardState) (n : Z) :
  0 < width self → 0 ≤ n < width self * height self →
  ∃ c, valid_coordinates self c = true ∧
       _coordinates_bit self c = Ok (2 ^ n) ∧
       ∀ c', valid_coordinates self c' = true →
             _coordinates_bit self c' = Ok (2 ^ n) → c' = c.
Proof.
  intros Hw Hn. set (c := (n `mod` width self, n `div` width self)).
  assert (valid_coordinates self c = true) as Hc.
  { apply valid_coordinates_spec.
    pose proof (Z.mod_pos_bound n (width self) Hw).
    assert (0 ≤ n `div` width self) by (apply Z.div_pos; lia).
    assert (n `div` width self < height self)
      by (apply Z.div_lt_upper_bound; lia).
    lia. }
  assert (cell_index self c = n) as Hi.
  { unfold cell_index, c; simpl. symmetry. apply Z.div_mod. lia. }
  exists c. split_and!; [done| |].
  - rewrite coordinates_bit_valid by lia. by rewrite Hi, Z.shiftl_1_l.
  - intros c' Hc' Hbit. pose proof (cell_index_bounds _ _ Hc') as Hb.
    rewrite coordinates_bit_valid, Z.shiftl_1_l in Hbit by lia.
    injection Hbit as Hpow. apply Z.pow_inj_r in Hpow; [|lia..].
    apply (cell_index_inj self); [done..|congruence].
Qed.

Lemma coordinates_bit_layout_witness :
  ∃ c, valid_coordinates example_board c = true ∧
       _coordinates_bit example_board c = Ok (2 ^ 4) ∧
       ∀ c', valid_coordinates example_board c' = true →
             _coordinates_bit example_board c' = Ok (2 ^ 4) → c' = c.
Proof. apply (coordinates_bit_layout example_board 4); simpl; lia. Defined.

(** ** Equality, hash and key *)

Lemma BoardState_eq_spec (a b : BoardState) :
  BoardState_eq a b = true ↔
  width a = width b ∧ height a = height b ∧ _board a = _board b.
Proof. unfold BoardState_eq. rewrite !andb_true_iff, !Z.eqb_eq. tauto. Qed.

(** X3: [__eq__] holds between two boards exactly when they have the same
    [key]; the solution annotations play no part in either.  Boards that are
    equal have the same [__hash__]. *)
Theorem BoardState_eq_iff_key (a b : BoardState) :
  (BoardState_eq a b = true ↔ key a = key b) ∧
  (BoardState_eq a b = true → BoardState_hash a = BoardState_hash b).
Proof.
  rewrite BoardState_eq_spec. split.
  - split; [intros (? & ? & ?); by apply key_dims|apply key_inj].
  - by intros (_ & _ & ?).
Qed.

(** ** [invert] on any list of coordinates *)

Lemma invert_mask_from_nonneg (self : BoardState) (cl : list Coordinates) (m : Z) :
  Forall (λ c, 0 ≤ cell_index self c) cl →
  _invert_mask_from self m cl = Ok (mask_of self m cl).
Proof.
  intros Hcl. revert m. induction Hcl as [|c cl Hc _ IH]; intros m; [done|].
  simpl. rewrite coordinates_bit_valid by done. apply IH.
Qed.

Lemma invert_mask_from_negative (self : BoardState) (cl : list Coordinates)
    (m : Z) :
  Exists (λ c, cell_index self c < 0) cl →
  _invert_mask_from self m cl = Raise ValueError.
Proof.
  intros Hcl. revert m. induction cl as [|c cl IH]; intros m.
  { by apply Exists_nil in Hcl. }
  simpl. destruct (Z.ltb_spec (cell_index self c) 0) as [Hneg|Hpos].
  - destruct c as [x y]. unfold _coordinates_bit, py_shiftl.
    unfold cell_index in Hneg; simpl in Hneg.
    by rewrite (proj2 (Z.ltb_lt _ _) Hneg).
  - rewrite coordinates_bit_valid by done. apply IH.
    apply Exists_cons in Hcl as [Hc|Hcl]; [lia|done].
Qed.

Lemma invert_run_nonneg (st : State) (self : loc) (this : BoardState)
    (cl : list Coordinates) :
  heap st !! self = Some this →
  Forall (λ c, 0 ≤ cell_index this c) cl →
  invert self cl st =
  (Ok (length (heap st)),
   set_heap (heap st ++ [mkBoardState (width this) (height this) None None None
                           (Z.lxor (_board this) (mask_of this 0 cl))]) st).
Proof.
  intros Hself Hcl. destruct st as [h d q]. unfold invert.
  run_deref Hself.
  unfold bind at 1, new_BoardState, set_heap. simpl.
  unfold bind at 1. rewrite assign_last.
  unfold bind at 1, lift, _invert_mask. rewrite invert_mask_from_nonneg by done.
  unfold bind at 1. rewrite assign_last. done.
Qed.

Lemma mask_of_dims (a b : BoardState) (m : Z) (cl : list Coordinates) :
  width a = width b → mask_of a m cl = mask_of b m cl.
Proof.
  intros Hw. unfold mask_of. revert m.
  induction cl as [|c cl IH]; intros m; [done|].
  simpl. rewrite IH. unfold cell_index. by rewrite Hw.
Qed.

Lemma existsb_cell_index (self : BoardState) (cl : list Coordinates) (n : Z) :
  existsb (λ c, cell_index self c =? n) cl
  = bool_decide (n ∈ cell_index self <$> cl).
Proof.
  apply eq_true_iff_eq. rewrite existsb_exists, bool_decide_eq_true.
  rewrite list_elem_of_fmap. split.
  - intros (c & Hin%list_elem_of_In & Heq%Z.eqb_eq). by exists c.
  - intros (c & -> & Hin). exists c. split; [by apply list_elem_of_In|].
    apply Z.eqb_refl.
Qed.

(** X4: [invert] checks no coordinate.  Given coordinates whose bit indices
    [width * y + x] are not negative, it creates a board of the same size
    without solution annotations in which exactly the bits with those indices
    are flipped -- once each, however often an index is listed, and whether
    or not the coordinate lies on the grid.  Nothing else in the state
    changes. *)
Theorem invert_flips_listed_bits (st : State) (s : loc) (this : BoardState)
    (cl : list Coordinates) :
  heap st !! s = Some this →
  Forall (λ c, 0 ≤ cell_index this c) cl →
  ∃ new,
    invert s cl st = (Ok (length (heap st)), set_heap (heap st ++ [new]) st) ∧
    width new = width this ∧ height new = height this ∧
    steps_from_solution new = None ∧ next_solution_coordinates new = None ∧
    next_solution_board new = None ∧
    ∀ n, 0 ≤ n →
      Z.testbit (_board new) n
      = xorb (Z.testbit (_board this) n)
             (bool_decide (n ∈ cell_index this <$> cl)).
Proof.
  intros Hs Hcl. eexists. split; [by apply invert_run_nonneg|].
  simpl. split_and!; try done. intros n Hn.
  by rewrite Z.lxor_spec, mask_of_testbit, Z.bits_0, orb_false_l,
    existsb_cell_index.
Qed.

Lemma invert_flips_listed_bits_witness :
  ∃ new,
    invert 0%nat [(3, 0); (3, 0)] example_state
    = (Ok (length (heap example_state)),
       set_heap (heap example_state ++ [new]) example_state) ∧
    width new = width example_board ∧ height new = height example_board ∧
    steps_from_solution new = None ∧ next_solution_coordinates new = None ∧
    next_solution_board new = None ∧
    ∀ n, 0 ≤ n →
      Z.testbit (_board new) n
      = xorb (Z.testbit (_board example_board) n)
             (bool_decide (n ∈ cell_index example_board <$> [(3, 0); (3, 0)])).
Proof.
  apply (invert_flips_listed_bits example_state 0%nat example_board).
  - reflexivity.
  - repeat constructor; unfold cell_index; simpl; lia.
Defined.

(** X5: a coordinate with a negative bit index makes [invert] raise the
    [ValueError] of the shift.  The board created before the mask is computed
    stays in the store, a copy of the bit pattern without annotations; the
    objects that existed, the dictionary and the queue are as before. *)
Theorem invert_negative_index_raises (st : State) (s : loc) (this : BoardState)
    (cl : list Coordinates) :
  heap st !! s = Some this →
  Exists (λ c, cell_index this c < 0) cl →
  invert s cl st =
  (Raise ValueError,
   set_heap (heap st ++ [mkBoardState (width this) (height this) None None None
                           (_board this)]) st).
Proof.
  intros Hs Hcl. destruct st as [h d q]. unfold invert.
  run_deref Hs.
  unfold bind at 1, new_BoardState, set_heap. simpl.
  unfold bind at 1. rewrite assign_last.
  unfold bind at 1, lift, _invert_mask.
  by rewrite invert_mask_from_negative.
Qed.

Lemma invert_negative_index_raises_witness :
  invert 0%nat [(1, 1); (0, -1)] example_state =
  (Raise ValueError,
   set_heap (heap example_state ++ [mkBoardState 3 3 None None None 106])
     example_state).
Proof.
  apply (invert_negative_index_raises example_state 0%nat example_board).
  - reflexivity.
  - apply Exists_cons; right. apply Exists_cons; left.
    unfold cell_index; simpl. lia.
Defined.

(** X6: inverting the same list twice gives back a board equal to the
    first: the second [invert] undoes the first, for any list whose bit
    indices are not negative. *)
Theorem invert_twice (st : State) (s : loc) (this : BoardState)
    (cl : list Coordinates) :
  heap st !! s = Some this →
  Forall (λ c, 0 ≤ cell_index this c) cl →
  ∃ s1 st1 s2 st2 back,
    invert s cl st = (Ok s1, st1) ∧ invert s1 cl st1 = (Ok s2, st2) ∧
    heap st2 !! s2 = Some back ∧ BoardState_eq back this = true.
Proof.
  intros Hs Hcl. eexists _, _, _, _, _.
  split; [by apply invert_run_nonneg|].
  split.
  { apply invert_run_nonneg; [simpl; by apply list_lookup_middle|].
    eapply Forall_impl; [exact Hcl|]. by intros c Hc. }
  split; [simpl; by apply list_lookup_middle|].
  apply BoardState_eq_spec. simpl. split_and!; [done..|].
  rewrite (mask_of_dims (mkBoardState _ _ _ _ _ _) this) by done.
  rewrite Z.lxor_assoc, Z.lxor_nilpotent. apply Z.lxor_0_r.
Qed.

Lemma invert_twice_witness :
  ∃ s1 st1 s2 st2 back,
    invert 0%nat [(0, 0); (2, 2); (5, 1)] example_state = (Ok s1, st1) ∧
    invert s1 [(0, 0); (2, 2); (5, 1)] st1 = (Ok s2, st2) ∧
    heap st2 !! s2 = Some back ∧ BoardState_eq back example_board = true.
Proof.
  apply (invert_twice example_state 0%nat example_board).
  - reflexivity.
  - repeat constructor; unfold cell_index; simpl; lia.
Defined.

(** ** More on clicks *)

Lemma mask_of_zero_iff (self : BoardState) (cl : list Coordinates) :
  Forall (λ c, 0 ≤ cell_index self c) cl →
  mask_of self 0 cl = 0 ↔ cl = [].
Proof.
  intros Hcl. split; [|by intros ->].
  destruct cl as [|c cl]; [done|]. intros Hz. exfalso.
  pose proof Hcl as [Hc _]%Forall_cons.
  assert (Z.testbit (mask_of self 0 (c :: cl)) (cell_index self c) = true) as Hb.
  { rewrite mask_of_testbit; [|done|done].
    simpl. by rewrite Z.eqb_refl, orb_true_r. }
  by rewrite Hz, Z.bits_0 in Hb.
Qed.

Lemma lxor_eq_l (b m : Z) : Z.lxor b m = b ↔ m = 0.
Proof.
  split; [|intros ->; apply Z.lxor_0_r].
  intros H. rewrite <- (Z.lxor_0_l m), <- (Z.lxor_nilpotent b).
  by rewrite Z.lxor_assoc, H, Z.lxor_nilpotent.
Qed.

Lemma filter_nil_iff {A} (P : A → Prop) `{∀ x, Decision (P x)} (l : list A) :
  filter P l = [] ↔ ∀ x, x ∈ l → ¬ P x.
Proof.
  split.
  - intros Hnil x Hx HP. by apply (filter_nil_not_elem_of P l x).
  - intros Hall. induction l as [|a l IH]; [done|].
    rewrite filter_cons_False by (apply Hall; by left).
    apply IH. intros x Hx. apply Hall. by right.
Qed.

Lemma clicked_board_same_iff (this : BoardState) (c : Coordinates) :
  clicked_board this c = _board this ↔
  ∀ c', c' ∈ neighbourhood c → valid_coordinates this c' = false.
Proof.
  rewrite clicked_board_eq, lxor_eq_l. unfold click_mask.
  rewrite mask_of_zero_iff, filter_nil_iff.
  - split; intros Hall c' Hc'; specialize (Hall c' Hc').
    + by apply not_true_is_false.
    + by rewrite Hall.
  - apply Forall_forall. intros c' [Hv _]%list_elem_of_filter.
    by apply cell_index_bounds.
Qed.

(** X7: a click returns a board equal to the one clicked exactly when none of
    the five cells it aims at is on the grid; a click with any of them on the
    grid -- every click at a valid coordinate -- changes the board. *)
Theorem click_changes_board (st : State) (s : loc) (this : BoardState)
    (x y : Z) :
  heap st !! s = Some this →
  ∃ new,
    click s (x, y) st
    = (Ok (length (heap st)), set_heap (heap st ++ [new]) st) ∧
    (BoardState_eq new this = true ↔
     ∀ c', c' ∈ [(x - 1, y); (x, y); (x + 1, y); (x, y - 1); (x, y + 1)] →
           valid_coordinates this c' = false).
Proof.
  intros Hs. eexists. split; [by apply click_run|].
  rewrite BoardState_eq_spec. simpl.
  rewrite (clicked_board_same_iff this (x, y)). unfold neighbourhood; simpl.
  tauto.
Qed.

Lemma click_changes_board_witness :
  ∃ new,
    click 0%nat (2, 2) example_state
    = (Ok (length (heap example_state)),
       set_heap (heap example_state ++ [new]) example_state) ∧
    (BoardState_eq new example_board = true ↔
     ∀ c', c' ∈ [(2 - 1, 2); (2, 2); (2 + 1, 2); (2, 2 - 1); (2, 2 + 1)] →
           valid_coordinates example_board c' = false).
Proof.
  apply (click_changes_board example_state 0%nat example_board 2 2).
  reflexivity.
Defined.

(** X8: clicks commute.  Clicking [c1] and then [c2] gives a board equal to
    the one got by clicking [c2] and then [c1], for any two pairs of
    integers. *)
Theorem click_commutes (st : State) (s : loc) (this : BoardState)
    (c1 c2 : Coordinates) :
  heap st !! s = Some this →
  ∃ a st1 ab st2 b st3 ba st4 board_ab board_ba,
    click s c1 st = (Ok a, st1) ∧ click a c2 st1 = (Ok ab, st2) ∧
    click s c2 st2 = (Ok b, st3) ∧ click b c1 st3 = (Ok ba, st4) ∧
    heap st4 !! ab = Some board_ab ∧ heap st4 !! ba = Some board_ba ∧
    BoardState_eq board_ab board_ba = true.
Proof.
  intros Hs. eexists _, _, _, _, _, _, _, _, _, _.
  split; [by apply click_run|].
  split; [apply click_run; simpl; by apply list_lookup_middle|].
  split; [apply click_run; simpl; by do 2 apply lookup_app_l_Some|].
  split; [apply click_run; simpl; by apply list_lookup_middle|].
  simpl. split; [do 2 apply lookup_app_l_Some; by apply list_lookup_middle|].
  split; [by apply list_lookup_middle|].
  apply BoardState_eq_spec. simpl. split_and!; [done..|].
  rewrite !clicked_board_eq. simpl.
  rewrite !(click_mask_dims (mkBoardState _ _ _ _ _ _) this) by done.
  rewrite !Z.lxor_assoc. f_equal. apply Z.lxor_comm.
Qed.

Lemma click_commutes_witness :
  ∃ a st1 ab st2 b st3 ba st4 board_ab board_ba,
    click 0%nat (0, 0) example_state = (Ok a, st1) ∧
    click a (1, 2) st1 = (Ok ab, st2) ∧
    click 0%nat (1, 2) st2 = (Ok b, st3) ∧ click b (0, 0) st3 = (Ok ba, st4) ∧
    heap st4 !! ab = Some board_ab ∧ heap st4 !! ba = Some board_ba ∧
    BoardState_eq board_ab board_ba = true.
Proof.
  apply (click_commutes example_state 0%nat example_board (0, 0) (1, 2)).
  reflexivity.
Defined.

(** ** The solved board, cell by cell *)

Lemma solved_bits_testbit (w h n : Z) :
  0 ≤ w * h → 0 ≤ n → Z.testbit (solved_bits w h) n = (n <? w * h).
Proof.
  intros Hwh Hn. unfold solved_bits.
  replace (2 ^ (w * h) - 1) with (Z.ones (w * h))
    by (rewrite Z.ones_equiv; lia).
  destruct (Z.ltb_spec n (w * h)).
  - apply Z.ones_spec_low. lia.
  - apply Z.ones_spec_high. lia.
Qed.

(** X9: for a positive width and a positive height [solution_board] creates a
    board of that size with every light of the grid on and no bit set beyond
    the grid, marked as zero steps from the solution, with no next click and
    no next board. *)
Theorem solution_board_all_on (st : State) (w h : Z) :
  0 < w → 0 < h →
  ∃ new,
    solution_board w h st
    = (Ok (length (heap st)), set_heap (heap st ++ [new]) st) ∧
    width new = w ∧ height new = h ∧
    steps_from_solution new = Some 0 ∧ next_solution_coordinates new = None ∧
    next_solution_board new = None ∧
    (∀ c, valid_coordinates new c = true → is_set new c = Ok true) ∧
    (∀ n, w * h ≤ n → Z.testbit (_board new) n = false).
Proof.
  intros Hw Hh. exists (solved w h).
  split; [by apply solution_board_run|]. split_and!; try done.
  - intros c Hc. pose proof (cell_index_bounds _ _ Hc) as Hi. simpl in Hi.
    rewrite is_set_testbit. rewrite (proj2 (Z.ltb_ge _ _)) by lia.
    f_equal. simpl. rewrite solved_bits_testbit by nia.
    apply Z.ltb_lt. lia.
  - intros n Hn. simpl. rewrite solved_bits_testbit by nia.
    apply Z.ltb_ge. lia.
Qed.

Lemma solution_board_all_on_witness :
  ∃ new,
    solution_board 3 3 example_state
    = (Ok (length (heap example_state)),
       set_heap (heap example_state ++ [new]) example_state) ∧
    width new = 3 ∧ height new = 3 ∧
    steps_from_solution new = Some 0 ∧ next_solution_coordinates new = None ∧
    next_solution_board new = None ∧
    (∀ c, valid_coordinates new c = true → is_set new c = Ok true) ∧
    (∀ n, 3 * 3 ≤ n → Z.testbit (_board new) n = false).
Proof. apply (solution_board_all_on example_state 3 3); lia. Defined.

(** X10: without a positive width and a positive height there is no solved
    board: [solution_board] raises the [ValueError] of [int] on a literal
    without digits, and the blank board created first stays in the store. *)
Theorem solution_board_no_cells (st : State) (w h : Z) :
  w ≤ 0 ∨ h ≤ 0 →
  solution_board w h st =
  (Raise ValueError,
   set_heap (heap st ++ [mkBoardState w h None None None 0]) st).
Proof. apply solution_board_raise. Qed.

Lemma solution_board_no_cells_witness :
  solution_board 0 5 initial_state =
  (Raise ValueError,
   set_heap (heap initial_state ++ [mkBoardState 0 5 None None None 0])
     initial_state).
Proof. apply (solution_board_no_cells initial_state 0 5). left. lia. Defined.

(** * The renderer *)

Lemma fill_cell_characters_lookup (bs : BoardState) (cs : list Coordinates)
    (m : gmap (option Coordinates) string) :
  Forall (λ c, 0 ≤ cell_index bs c) cs →
  ∃ m', fill_cell_characters bs cs m = Ok m' ∧
    ∀ c, m' !! Some c =
         match m !! Some c with
         | Some v => Some v
         | None =>
             if bool_decide (c ∈ cs)
             then Some (if Z.testbit (_board bs) (cell_index bs c)
                        then "o" else " ")
             else None
         end.
Proof.
  intros Hcs. revert m. induction Hcs as [|c0 cs Hc0 _ IH]; intros m.
  - exists m. split; [done|]. intros c. by destruct (m !! Some c).
  - simpl. rewrite is_set_testbit, (proj2 (Z.ltb_ge _ _)) by done.
    destruct (IH (setdefault (Some c0)
                    (if Z.testbit (_board bs) (cell_index bs c0)
                     then "o" else " ") m)) as (m' & -> & Hm').
    exists m'. split; [done|]. intros c. rewrite Hm'. unfold setdefault.
    destruct (decide (c = c0)) as [->|Hne].
    + rewrite (bool_decide_eq_true_2 (c0 ∈ c0 :: cs)) by (by left).
      destruct (m !! Some c0) as [v|] eqn:Hv; [by rewrite Hv|].
      by rewrite lookup_insert_eq.
    + assert ((match m !! Some c0 with
               | Some _ => m
               | None => <[Some c0 := if Z.testbit (_board bs) (cell_index bs c0)
                                      then "o" else " "]> m
               end) !! Some c = m !! Some c) as ->.
      { destruct (m !! Some c0); [done|]. apply lookup_insert_ne. congruence. }
      destruct (m !! Some c); [done|].
      apply (f_equal (λ b : bool, if b then _ else _)).
      apply bool_decide_ext. rewrite elem_of_cons. tauto.
Qed.

(** The dictionary holds, for every cell of the grid, the character of that
    cell. *)
Lemma determine_cell_characters_lookup (bs : BoardState) :
  (∀ c, next_solution_coordinates bs = Some c → 0 ≤ cell_index bs c) →
  ∃ chars, _determine_cell_characters bs = Ok chars ∧
    ∀ c, valid_coordinates bs c = true →
         chars !! Some c = Some (cell_character bs c).
Proof.
  intros Hnsc. unfold _determine_cell_characters.
  assert (match next_solution_coordinates bs with
          | Some c => is_set bs c
          | None => Ok false
          end
          = Ok (match next_solution_coordinates bs with
                | Some c => Z.testbit (_board bs) (cell_index bs c)
                | None => false
                end)) as ->.
  { destruct (next_solution_coordinates bs) as [c|]; [|done].
    by rewrite is_set_testbit, (proj2 (Z.ltb_ge _ _)) by auto. }
  edestruct (fill_cell_characters_lookup bs (coordinates bs))
    as (chars & -> & Hchars).
  { apply Forall_forall. intros c Hc%elem_of_coordinates.
    by apply cell_index_bounds. }
  exists chars. split; [done|]. intros c Hc. rewrite Hchars.
  unfold cell_character.
  destruct (decide (next_solution_coordinates bs = Some c)) as [Heq|Hne].
  - rewrite Heq. by rewrite lookup_insert_eq.
  - rewrite lookup_insert_ne, lookup_empty by done.
    by rewrite bool_decide_eq_true_2 by (by apply elem_of_coordinates).
Qed.

Lemma render_row_run (bs : BoardState)
    (chars : gmap (option Coordinates) string) (y : Z) (xs : list Z)
    (row : list string) :
  (∀ x, x ∈ xs → chars !! Some (x, y) = Some (cell_character bs (x, y))) →
  render_row chars y xs row
  = Result (Ok (row ++ ((λ x, "[" +:+ cell_character bs (x, y) +:+ "]") <$> xs))).
Proof.
  revert row. induction xs as [|x xs IH]; intros row Hxs.
  - by rewrite app_nil_r.
  - simpl. rewrite (Hxs x) by (by left).
    rewrite IH by (intros x' Hx'; apply Hxs; by right).
    by rewrite <- app_assoc.
Qed.

Lemma render_rows_run (bs : BoardState)
    (chars : gmap (option Coordinates) string) (ys : list Z)
    (all_rows : list string) :
  (∀ x y, x ∈ range (width bs) → y ∈ ys →
          chars !! Some (x, y) = Some (cell_character bs (x, y))) →
  render_rows chars (width bs) ys all_rows
  = Result (Ok (all_rows ++
      ((λ y, join " " ((λ x, "[" +:+ cell_character bs (x, y) +:+ "]")
                         <$> range (width bs))) <$> ys))).
Proof.
  revert all_rows. induction ys as [|y ys IH]; intros all_rows Hys.
  - by rewrite app_nil_r.
  - simpl. rewrite (render_row_run bs)
      by (intros x Hx; apply Hys; [done|by left]).
    rewrite app_nil_l, IH by (intros x y' Hx Hy'; apply Hys; [done|by right]).
    by rewrite <- app_assoc.
Qed.

(** X11: [render] writes the board cell by cell -- [height] rows joined by
    line feeds, each of [width] bracketed characters joined by spaces, where
    a cell shows [o] or a blank for its light, and [-] or [+] instead when it
    is the next click.  It never raises [KeyError]: every cell it looks up
    was put into the dictionary.  (The condition excludes a next click with a
    negative bit index, which no board of the solver has.) *)
Theorem render_writes_cells (bs : BoardState) :
  (∀ c, next_solution_coordinates bs = Some c → 0 ≤ cell_index bs c) →
  render bs = Result (Ok (rendered_text bs)).
Proof.
  intros Hnsc. unfold render.
  destruct (determine_cell_characters_lookup bs Hnsc) as (chars & -> & Hchars).
  rewrite (render_rows_run bs).
  - done.
  - intros x y Hx%elem_of_range_iff Hy%elem_of_range_iff.
    apply Hchars. by apply valid_coordinates_spec.
Qed.

Lemma render_writes_cells_witness :
  render (mkBoardState 3 3 (Some 1) (Some (1, 1)) (Some 1%nat) 106)
  = Result (Ok (rendered_text
                  (mkBoardState 3 3 (Some 1) (Some (1, 1)) (Some 1%nat) 106))).
Proof.
  apply (render_writes_cells
           (mkBoardState 3 3 (Some 1) (Some (1, 1)) (Some 1%nat) 106)).
  simpl. intros c [= <-]. unfold cell_index; simpl. lia.
Defined.

(** X12: a next click whose bit index is negative makes [render] raise the
    [ValueError] of the shift in [is_set], before any cell is written. *)
Theorem render_negative_next_click (bs : BoardState) (c : Coordinates) :
  next_solution_coordinates bs = Some c → cell_index bs c < 0 →
  render bs = Result (Raise ValueError).
Proof.
  intros Hnsc Hneg. unfold render, _determine_cell_characters.
  by rewrite Hnsc, is_set_testbit, (proj2 (Z.ltb_lt _ _)) by done.
Qed.

Lemma render_negative_next_click_witness :
  render (mkBoardState 3 3 None (Some (0, -1)) None 511)
  = Result (Raise ValueError).
Proof.
  apply (render_negative_next_click
           (mkBoardState 3 3 None (Some (0, -1)) None 511) (0, -1)).
  - reflexivity.
  - unfold cell_index; simpl. lia.
Defined.

(** ** The size of the text *)

Lemma string_length_app (a b : string) :
  String.length (a +:+ b) = (String.length a + String.length b)%nat.
Proof. induction a as [|c a IH]; [done|]. simpl. by rewrite <- IH. Qed.

Lemma length_join (sep : string) (l : list string) (n : nat) :
  Forall (λ s, String.length s = n) l →
  String.length (join sep l)
  = (length l * n + (length l - 1) * String.length sep)%nat.
Proof.
  induction 1 as [|s l Hs Hl IH]; [done|].
  destruct l as [|s' l'].
  - simpl. lia.
  - change (join sep (s :: s' :: l')) with (s +:+ sep +:+ join sep (s' :: l')).
    rewrite !string_length_app, IH, Hs. simpl. lia.
Qed.

Lemma cell_length (bs : BoardState) (c : Coordinates) :
  String.length ("[" +:+ cell_character bs c +:+ "]") = 3%nat.
Proof. unfold cell_character. by repeat case_match. Qed.

(** X13: the text of a board with a positive width and a positive height has
    [4 * width * height - 1] characters: three for every cell, a space
    between the cells of a row and a line feed between the rows. *)
Theorem render_text_size (bs : BoardState) :
  0 < width bs → 0 < height bs →
  (∀ c, next_solution_coordinates bs = Some c → 0 ≤ cell_index bs c) →
  ∃ text, render bs = Result (Ok text) ∧
    Z.of_nat (String.length text) = 4 * width bs * height bs - 1.
Proof.
  intros Hw Hh Hnsc. exists (rendered_text bs).
  split; [unfold render;
          destruct (determine_cell_characters_lookup bs Hnsc)
            as (chars & -> & Hchars);
          rewrite (render_rows_run bs); [done|];
          intros x y Hx%elem_of_range_iff Hy%elem_of_range_iff;
          apply Hchars; by apply valid_coordinates_spec|].
  unfold rendered_text.
  rewrite (length_join _ _ (Z.to_nat (4 * width bs - 1))).
  - rewrite length_fmap, length_range. change (String.length newline) with 1%nat.
    nia.
  - apply Forall_fmap, Forall_forall. intros y _. simpl.
    rewrite (length_join _ _ 3).
    + rewrite length_fmap, length_range. simpl. lia.
    + apply Forall_fmap, Forall_forall. intros x _. apply cell_length.
Qed.

Lemma render_text_size_witness :
  ∃ text, render example_board = Result (Ok text) ∧
    Z.of_nat (String.length text)
    = 4 * width example_board * height example_board - 1.
Proof.
  apply (render_text_size example_board); [simpl; lia..|].
  intros c [=].
Defined.

(** * Further properties of the solver *)

(** ** The dictionary only grows *)

Global Instance keeps_keys_preorder : PreOrder keeps_keys.
Proof. split; [by intros st k|]. intros a b c Hab Hbc k Hk. by apply Hbc, Hab. Qed.

Lemma keeps_keys_same (st st' : State) :
  discovered_boards st' = discovered_boards st → keeps_keys st st'.
Proof. intros Hd k. unfold recorded. by rewrite Hd. Qed.

Lemma keeps_keys_insert (st st' : State) (k0 : string) (l : loc) :
  discovered_boards st' = <[k0 := l]> (discovered_boards st) →
  keeps_keys st st'.
Proof.
  intros Hd k Hk. unfold recorded in *. rewrite Hd.
  apply lookup_insert_is_Some. destruct (decide (k0 = k)); [by left|by right].
Qed.

Lemma keeps_keys_process_coordinate (l : loc) (c : Coordinates) :
  respects keeps_keys (process_coordinate l c).
Proof.
  intros st. destruct (heap st !! l) as [this|] eqn:Hl.
  - rewrite (process_coordinate_run _ _ _ _ Hl). unfold process_coordinate_spec.
    repeat case_match; simpl;
      first [ by apply keeps_keys_same | by eapply keeps_keys_insert ].
  - unfold process_coordinate, bind. rewrite (click_invalid _ _ _ Hl).
    reflexivity.
Qed.

Lemma keeps_keys_solution_board (w h : Z) :
  respects keeps_keys (solution_board w h).
Proof.
  intros st. apply keeps_keys_same.
  destruct (decide (0 < w ∧ 0 < h)) as [[Hw Hh]|Hwh].
  - by rewrite solution_board_run.
  - by rewrite solution_board_raise by lia.
Qed.

(** X14: [find_solution] never removes a key from [discovered_boards]:
    whatever the state of the solver and however the call ends, every key
    recorded before the call is recorded after it. *)
Theorem find_solution_keeps_keys (fuel : nat) (q : loc) (st : State)
    (k : string) :
  is_Some (discovered_boards st !! k) →
  is_Some (discovered_boards (snd (find_solution fuel q st)) !! k).
Proof.
  apply (respects_find_solution keeps_keys).
  - apply keeps_keys_process_coordinate.
  - apply keeps_keys_solution_board.
  - intros rest st'. by apply keeps_keys_same.
Qed.

Lemma find_solution_keeps_keys_witness :
  is_Some (discovered_boards
             (snd (find_solution 10 5%nat
                     (snd (make_board 1 2 0 searched_1x1)))) !! "1:1:1").
Proof.
  apply (find_solution_keeps_keys 10 5%nat
           (snd (make_board 1 2 0 searched_1x1)) "1:1:1").
  exists 3%nat. by vm_compute.
Defined.

(** ** Queries decided without a search *)

(** X15: a query of a size without cells (width or height not positive) whose
    key is not recorded makes [find_solution] raise the [ValueError] of
    [solution_board] -- it does not return [None] -- whatever the fuel; the
    dictionary and the queue are as before, and the store has gained the
    blank board [solution_board] left behind. *)
Theorem find_solution_no_cells (fuel : nat) (st : State) (q : loc)
    (this : BoardState) :
  heap st !! q = Some this → discovered_boards st !! key this = None →
  width this ≤ 0 ∨ height this ≤ 0 →
  find_solution fuel q st =
  (Raise ValueError,
   set_heap (heap st ++ [mkBoardState (width this) (height this) None None
                           None 0]) st).
Proof.
  intros Hq Hd Hwh.
  rewrite (find_solution_unfold _ _ _ _ _
             (find_board_solution_no_cells fuel st q this Hq Hd ltac:(lia))).
  done.
Qed.

Lemma find_solution_no_cells_witness :
  find_solution 0 0%nat (snd (make_board 3 0 0 initial_state)) =
  (Raise ValueError,
   set_heap (heap (snd (make_board 3 0 0 initial_state))
               ++ [mkBoardState 3 0 None None None 0])
     (snd (make_board 3 0 0 initial_state))).
Proof.
  apply (find_solution_no_cells 0 (snd (make_board 3 0 0 initial_state)) 0%nat
           (mkBoardState 3 0 None None None 0));
    [reflexivity|reflexivity|simpl; lia].
Defined.

(** X16: a query whose key is recorded is answered from the dictionary: in
    every state a program can reach, given fuel for the walk along the links,
    [find_solution] returns a list that starts with the recorded board and
    leaves the whole state -- store, dictionary and queue -- exactly as it
    was. *)
Theorem find_solution_recorded (st : State) (q : loc) (this : BoardState)
    (l : loc) :
  reachable st → heap st !! q = Some this →
  discovered_boards st !! key this = Some l →
  ∀ fuel, (l < fuel)%nat →
    ∃ rest, find_solution fuel q st = (Ok (Some (l :: rest)), st).
Proof.
  intros Hreach Hq Hd fuel Hfuel.
  pose proof (reachable_wf _ Hreach) as Hwf.
  rewrite (find_solution_unfold _ _ _ _ _
             (find_board_solution_found fuel st q this l Hq Hd)).
  destruct (wf_entries _ Hwf _ _ Hd) as (o & Ho & _).
  destruct (walk_solution_run st fuel l [] (wf_links _ Hwf)) as [rest Hwalk];
    [by exists o|done|].
  exists rest. by rewrite (bind_Ok _ _ _ _ _ Hwalk).
Qed.

Lemma reachable_searched_1x1 : reachable searched_1x1.
Proof.
  change (reachable (snd (find_solution 10 0%nat
                            (snd (make_board 1 1 0 initial_state))))).
  apply reachable_find_solution;
    [apply reachable_make_board, reachable_initial|by vm_compute].
Qed.

Lemma find_solution_recorded_witness :
  ∃ rest, find_solution 10 0%nat searched_1x1
          = (Ok (Some (2%nat :: rest)), searched_1x1).
Proof.
  apply (find_solution_recorded searched_1x1 0%nat
           (mkBoardState 1 1 None None None 0) 2%nat).
  - apply reachable_searched_1x1.
  - reflexivity.
  - reflexivity.
  - lia.
Defined.

(** ** What holds between two calls *)

(** X17: in every state a program can reach the processing queue is empty,
    and every entry of [discovered_boards] refers to a board of the store
    whose key is the entry's key and whose [steps_from_solution] is an
    integer. *)
Theorem reachable_queue_and_entries (st : State) :
  reachable st →
  board_processing_queue st = [] ∧
  ∀ k l, discovered_boards st !! k = Some l →
    ∃ o, heap st !! l = Some o ∧ key o = k ∧
         is_Some (steps_from_solution o).
Proof.
  intros Hwf%reachable_wf. split; [apply Hwf|apply (wf_entries _ Hwf)].
Qed.

Lemma reachable_queue_and_entries_witness :
  board_processing_queue searched_1x1 = [] ∧
  ∀ k l, discovered_boards searched_1x1 !! k = Some l →
    ∃ o, heap searched_1x1 !! l = Some o ∧ key o = k ∧
         is_Some (steps_from_solution o).
Proof.
  apply (reachable_queue_and_entries searched_1x1).
  apply reachable_searched_1x1.
Defined.

(** ** The length of the search *)

Lemma size_grid_keys (w h : Z) :
  (size (grid_keys w h) ≤ Z.to_nat (2 ^ (w * h)))%nat.
Proof.
  unfold grid_keys. rewrite <- (length_range (2 ^ (w * h))).
  rewrite <- (length_fmap (λ b, key (mkBoardState w h None None None b))).
  generalize ((λ b, key (mkBoardState w h None None None b))
                <$> range (2 ^ (w * h))).
  intros l. induction l as [|k l IH]; [done|].
  rewrite list_to_set_cons, size_union_alt, size_singleton. simpl.
  assert (size (list_to_set l ∖ {[k]} : gset string)
          ≤ size (list_to_set l : gset string))%nat
    by (by apply subseteq_size, subseteq_difference_l).
  lia.
Qed.

(** X18: the search loop is bounded by the number of boards of the query's
    size: in every state a program can reach, [2 ^ (width * height) + 1]
    turns of the loop are enough for [_find_board_solution] to end. *)
Theorem find_board_solution_fuel_bound (st : State) (q : loc)
    (this : BoardState) (fuel : nat) :
  reachable st → heap st !! q = Some this →
  (Z.to_nat (2 ^ (width this * height this)) + 1 ≤ fuel)%nat →
  fst (_find_board_solution fuel q st) ≠ OutOfFuel.
Proof.
  intros Hwf%reachable_wf Hq Hfuel.
  destruct (discovered_boards st !! key this) as [l|] eqn:Hd.
  { by rewrite (find_board_solution_found fuel st q this l Hq Hd). }
  destruct (decide (0 < width this ∧ 0 < height this)) as [[Hw Hh]|Hwh];
    last by rewrite (find_board_solution_no_cells fuel st q this Hq Hd Hwh).
  destruct (discovered_boards st !! key (solved (width this) (height this)))
    as [ls|] eqn:Hs.
  { by rewrite (find_board_solution_exhausted fuel st q this ls Hq Hw Hh Hd Hs). }
  assert (0 ≤ width this * height this) as Hn by nia.
  pose proof (searching_start _ _ st Hn Hwf) as Hstart.
  destruct (process_queue_run _ _ fuel _ Hn Hstart)
    as (st1 & Hrun & _ & _ & Hext1 & _).
  { unfold work. simpl.
    pose proof (size_grid_keys (width this) (height this)).
    assert (size (grid_keys (width this) (height this)
                    ∖ dom (discovered_boards st))
            ≤ size (grid_keys (width this) (height this)))%nat
      by (by apply subseteq_size, subseteq_difference_l).
    lia. }
  rewrite (find_board_solution_search fuel st st1 q this Hq Hw Hh
             (wf_queue _ Hwf) Hd Hs (Hrun fuel (le_n _))).
  - done.
  - etrans; [|exact Hext1]. simpl. by apply prefix_app_r.
Qed.

Lemma find_board_solution_fuel_bound_witness :
  fst (_find_board_solution 513 0%nat example_state) ≠ OutOfFuel.
Proof.
  apply (find_board_solution_fuel_bound example_state 0%nat example_board).
  - apply reachable_make_board, reachable_initial.
  - reflexivity.
  - simpl. lia.
Defined.

(** ** The distances along a solution *)

Lemma solution_path_steps (st : State) (path : list loc) :
  solution_path st path →
  ∀ i l o, path !! i = Some l → heap st !! l = Some o →
    steps_from_solution o = Some (Z.of_nat (length path - 1 - i)).
Proof.
  induction 1 as [l0 o0 Ho0 Hsolved|l0 l' o0 rest Ho0 Hnext Hlink Hpath IH];
    intros i l o Hi Ho.
  - destruct i as [|i]; [|by destruct i]. simpl in Hi. simplify_eq.
    by rewrite Hsolved.
  - destruct i as [|i].
    + simpl in Hi. simplify_eq.
      destruct Hlink as (o' & s & c & Ho' & _ & Hs' & Hs & _).
      rewrite Hs. f_equal.
      pose proof (IH 0%nat l' o' eq_refl Ho') as Hs0. rewrite Hs' in Hs0.
      injection Hs0 as ->. simpl. lia.
    + simpl in Hi. rewrite (IH i l o Hi Ho). f_equal. simpl. lia.
Qed.

(** X19: along a solution that [find_solution] returns the recorded distances
    count down to zero: the board at position [i] of a list of [n] boards
    carries [steps_from_solution = n - 1 - i].  So the list has one board
    more than the first board's distance, and the last board's is 0. *)
Theorem find_solution_steps_count_down (st st1 : State) (fuel : nat) (q : loc)
    (this : BoardState) (path : list loc) :
  reachable st → heap st !! q = Some this →
  find_solution fuel q st = (Ok (Some path), st1) →
  ∀ i l, path !! i = Some l →
    ∃ o, heap st1 !! l = Some o ∧
         steps_from_solution o = Some (Z.of_nat (length path - 1 - i)).
Proof.
  intros Hreach Hq Hrun i l Hi.
  destruct (find_solution_path _ _ _ _ _ _ Hreach Hq Hrun)
    as (l0 & o0 & rest & -> & Ho0 & Hk & Hpath).
  assert (is_Some (heap st1 !! l)) as [o Ho].
  { clear Ho0 Hk Hrun. revert i Hi.
    induction Hpath as [l1 o1 Ho1 _|l1 l' o1 rest1 Ho1 _ _ _ IH]; intros i Hi.
    - destruct i as [|i]; [|by destruct i]. simpl in Hi. simplify_eq. by eexists.
    - destruct i as [|i]; [simpl in Hi; simplify_eq; by eexists|].
      by apply (IH i). }
  exists o. split; [done|]. by apply (solution_path_steps st1 _ Hpath i l o).
Qed.

Lemma find_solution_steps_count_down_witness :
  ∃ o, heap searched_1x1 !! 2%nat = Some o ∧
       steps_from_solution o
       = Some (Z.of_nat (length [2%nat; 1%nat] - 1 - 0)).
Proof.
  apply (find_solution_steps_count_down
           (snd (make_board 1 1 0 initial_state)) searched_1x1 10 0%nat
           (mkBoardState 1 1 None None None 0) [2%nat; 1%nat]).
  - apply reachable_make_board, reachable_initial.
  - reflexivity.
  - by vm_compute.
  - reflexivity.
Defined.

(** ** The clicks of a solution are on the grid *)

(** The solver as a whole respects a relation that the processing of one
    board, the construction of the solved board and an assignment to the
    queue respect. *)
Section respects_boards.
Context (R : relation State) `{!PreOrder R}.
Hypothesis respects_board : ∀ l, respects R (_process_board_state l).
Hypothesis respects_solution_board : ∀ w h, respects R (solution_board w h).
Hypothesis respects_queue : ∀ q st, R st (set_board_processing_queue q st).

Lemma respects_for_each_in {A} (l : list A) (body : A → M unit) :
  (∀ a, a ∈ l → respects R (body a)) → respects R (for_each l body).
Proof.
  induction l as [|a l IH]; intros Hbody; [by apply respects_ret|].
  apply respects_bind; [done|apply Hbody; left|].
  intros _. apply IH. intros b Hb. apply Hbody. by right.
Qed.

Lemma respects_boards_process_queue (fuel : nat) :
  respects R (process_queue fuel).
Proof.
  induction fuel as [|fuel IH]; simpl.
  - apply respects_bind; [done|by apply respects_gets|].
    intros [|l q]; [by apply respects_ret|by apply respects_out_of_fuel].
  - apply respects_bind; [done|by apply respects_gets|].
    intros [|l q]; [by apply respects_ret|].
    apply respects_bind; [done|by apply respects_modify|]. intros _.
    apply respects_bind; [done|apply respects_board|].
    intros _. apply IH.
Qed.

Lemma respects_boards_find_board_solution (fuel : nat) (q : loc) :
  respects R (_find_board_solution fuel q).
Proof.
  apply respects_bind; [done|by apply respects_deref|]. intros this.
  apply respects_bind; [done|by apply respects_gets|].
  intros [existing|]; [by apply respects_ret|].
  apply respects_bind; [done|apply respects_solution_board|]. intros sb.
  apply respects_bind; [done|by apply respects_deref|]. intros sbo.
  apply respects_bind; [done|by apply respects_gets|].
  intros [found|]; [by apply respects_ret|].
  apply respects_bind;
    [done|apply respects_modify; intros st; apply respects_queue|].
  intros _.
  apply respects_bind; [done|apply respects_boards_process_queue|]. intros _.
  apply respects_bind; [done|by apply respects_deref|]. intros this'.
  by apply respects_gets.
Qed.

Lemma respects_boards_find_solution (fuel : nat) (q : loc) :
  respects R (find_solution fuel q).
Proof.
  apply respects_bind; [done|apply respects_boards_find_board_solution|].
  intros cur. apply respects_bind; [done|by apply respects_walk_solution|].
  intros l. by apply respects_ret.
Qed.
End respects_boards.

Lemma keeps_clicks_snoc (st st' : State) (o : BoardState) :
  heap st' = heap st ++ [o] →
  (∀ c, next_solution_coordinates o = Some c → valid_coordinates o c = true) →
  keeps_clicks st st'.
Proof.
  intros Hheap Ho. split; [unfold heap_extends; rewrite Hheap; by apply prefix_app_r|].
  intros Hgrid l o' c Hl Hc. rewrite Hheap in Hl.
  apply lookup_app_Some in Hl as [Hl|[_ Hl]]; [by eapply Hgrid|].
  apply list_lookup_singleton_Some in Hl as [_ <-]. by apply Ho.
Qed.

Lemma keeps_clicks_same_heap (st st' : State) :
  heap st' = heap st → keeps_clicks st st'.
Proof.
  intros Hheap. split; [by apply heap_extends_same_heap|].
  intros Hgrid l o c. rewrite Hheap. apply Hgrid.
Qed.

Global Instance keeps_clicks_preorder : PreOrder keeps_clicks.
Proof.
  split.
  - intros st. split; [reflexivity|done].
  - intros st1 st2 st3 [He1 H1] [He2 H2]. split; [by etrans|auto].
Qed.

Global Instance keeps_clicks_of_preorder (l : loc) (this : BoardState) :
  PreOrder (keeps_clicks_of l this).
Proof.
  split.
  - intros st _. reflexivity.
  - intros st1 st2 st3 H1 H2 Hl. specialize (H1 Hl). etrans; [exact H1|].
    apply H2. destruct H1 as [Hext _]. by eapply prefix_lookup_Some.
Qed.

Lemma keeps_clicks_process_board_state (l : loc) :
  respects keeps_clicks (_process_board_state l).
Proof.
  intros st. unfold _process_board_state, bind at 1, deref.
  destruct (heap st !! l) as [this|] eqn:Hl; [|reflexivity].
  refine (respects_for_each_in (keeps_clicks_of l this) _ _ _ st Hl).
  intros c Hc%elem_of_coordinates st' Hl'.
  rewrite (process_coordinate_run _ _ _ _ Hl'). unfold process_coordinate_spec.
  repeat case_match; simpl;
    (eapply keeps_clicks_snoc; [done|]; simpl; intros c' Hc'; by simplify_eq).
Qed.

Lemma keeps_clicks_solution_board (w h : Z) :
  respects keeps_clicks (solution_board w h).
Proof.
  intros st. destruct (decide (0 < w ∧ 0 < h)) as [[Hw Hh]|Hwh].
  - rewrite solution_board_run by done. by eapply keeps_clicks_snoc.
  - rewrite solution_board_raise by lia. by eapply keeps_clicks_snoc.
Qed.

Lemma keeps_clicks_find_solution (fuel : nat) (q : loc) :
  respects keeps_clicks (find_solution fuel q).
Proof.
  apply respects_boards_find_solution; [apply _| | |].
  - apply keeps_clicks_process_board_state.
  - apply keeps_clicks_solution_board.
  - intros rest st. by apply keeps_clicks_same_heap.
Qed.

Lemma reachable_clicks_on_grid (st : State) :
  reachable st → clicks_on_grid st.
Proof.
  induction 1 as [|st w h b _ IH|st fuel q _ IH Hr].
  - intros l o c Hl. destruct l; discriminate Hl.
  - rewrite make_board_run.
    eapply keeps_clicks_snoc; [| |exact IH]; [done|done].
  - by apply (keeps_clicks_find_solution fuel q st).
Qed.

Lemma solution_path_clicks_valid (st : State) (path : list loc) :
  clicks_on_grid st → solution_path st path →
  ∀ this l o, path !! 0%nat = Some l → heap st !! l = Some o →
    width this = width o → height this = height o →
    Forall (λ c, valid_coordinates this c = true) (clicks_of st path).
Proof.
  intros Hgrid.
  induction 1 as [l0 o0 Ho0 Hsolved|l0 l' o0 rest Ho0 Hnext Hlink Hpath IH];
    intros this l o [= <-] Ho Hw Hh; simplify_eq.
  - rewrite (clicks_of_cons _ _ _ _ Ho0).
    assert (next_solution_coordinates o0 = None) as -> by (by rewrite Hsolved).
    constructor.
  - destruct Hlink as (o' & s & c & Ho' & _ & _ & _ & Hc & Hw' & Hh' & _).
    rewrite (clicks_of_cons _ _ _ _ Ho0), Hc. constructor.
    + pose proof (Hgrid _ _ _ Ho0 Hc) as Hv. destruct c as [x y].
      apply valid_coordinates_spec in Hv. apply valid_coordinates_spec. lia.
    + apply (IH this l' o'); [done|done|congruence..].
Qed.

(** X20: a solution that [find_solution] returns can be played: its first
    board equals the query, every click recorded along it is a coordinate of
    the query's grid, the clicks made in order from the query end on the
    all-on board of the query's size, and there is one click less than there
    are boards. *)
Theorem find_solution_playable (st st1 : State) (fuel : nat) (q : loc)
    (this : BoardState) (path : list loc) :
  reachable st → heap st !! q = Some this →
  find_solution fuel q st = (Ok (Some path), st1) →
  (∃ l0 o0, path !! 0%nat = Some l0 ∧ heap st1 !! l0 = Some o0 ∧
            BoardState_eq o0 this = true) ∧
  Forall (λ c, valid_coordinates this c = true) (clicks_of st1 path) ∧
  BoardState_eq (replay this (clicks_of st1 path))
    (solved (width this) (height this)) = true ∧
  S (length (clicks_of st1 path)) = length path.
Proof.
  intros Hreach Hq Hrun.
  assert (reachable st1) as Hreach1.
  { replace st1 with (snd (find_solution fuel q st)) by (by rewrite Hrun).
    apply reachable_find_solution; [done|]. by rewrite Hrun. }
  destruct (find_solution_path _ _ _ _ _ _ Hreach Hq Hrun)
    as (l0 & o0 & rest & -> & Ho0 & Hk & Hpath).
  destruct (solution_path_replay _ _ _ _ Hpath Ho0) as [Hkey Hlen].
  pose proof Hk as (Hw & Hh & Hb)%key_inj.
  split_and!.
  - exists l0, o0. split_and!; [done..|]. by apply BoardState_eq_spec.
  - by apply (solution_path_clicks_valid st1 _ (reachable_clicks_on_grid _ Hreach1)
             Hpath this l0 o0).
  - apply BoardState_eq_spec. apply key_inj.
    rewrite (replay_key this o0) by done. by rewrite Hkey, Hw, Hh.
  - cbn [length]. by rewrite Hlen.
Qed.

Lemma find_solution_playable_witness :
  (∃ l0 o0, [2%nat; 1%nat] !! 0%nat = Some l0 ∧
            heap searched_1x1 !! l0 = Some o0 ∧
            BoardState_eq o0 (mkBoardState 1 1 None None None 0) = true) ∧
  Forall (λ c, valid_coordinates (mkBoardState 1 1 None None None 0) c = true)
    (clicks_of searched_1x1 [2%nat; 1%nat]) ∧
  BoardState_eq
    (replay (mkBoardState 1 1 None None None 0)
       (clicks_of searched_1x1 [2%nat; 1%nat]))
    (solved 1 1) = true ∧
  S (length (clicks_of searched_1x1 [2%nat; 1%nat])) = length [2%nat; 1%nat].
Proof.
  apply (find_solution_playable
           (snd (make_board 1 1 0 initial_state)) searched_1x1 10 0%nat
           (mkBoardState 1 1 None None None 0)).
  - apply reachable_make_board, reachable_initial.
  - reflexivity.
  - by vm_compute.
Defined.

(** ** When there is no solution *)

Lemma replay_snoc (o : BoardState) (cs : list Coordinates) (c : Coordinates) :
  replay o (cs ++ [c]) = clicked (replay o cs) c.
Proof. unfold replay. by rewrite foldl_app. Qed.

Lemma replay_dims (o : BoardState) (cs : list Coordinates) :
  width (replay o cs) = width o ∧ height (replay o cs) = height o.
Proof.
  revert o. induction cs as [|c cs IH]; intros o; [done|].
  change (replay o (c :: cs)) with (replay (clicked o c) cs).
  destruct (IH (clicked o c)) as [-> ->]. done.
Qed.

(** Clicks undo each other: playing the clicks backwards from where they
    ended leads back to the start. *)
Lemma replay_rev (o : BoardState) (cs : list Coordinates) :
  key (replay (replay o cs) (rev cs)) = key o.
Proof.
  revert o. induction cs as [|c cs IH]; intros o; [done|].
  change (replay o (c :: cs)) with (replay (clicked o c) cs).
  simpl rev. rewrite replay_snoc.
  rewrite (key_clicked _ (clicked o c)) by apply IH.
  apply key_clicked_twice.
Qed.

(** In a solver between two calls, every board that clicks on the grid make
    of a recorded board is recorded. *)
Lemma recorded_replay (st : State) (o : BoardState) (cs : list Coordinates) :
  solver_wf st → recorded st (key o) →
  Forall (λ c, valid_coordinates o c = true) cs →
  recorded st (key (replay o cs)).
Proof.
  intros Hwf. revert o. induction cs as [|c cs IH]; intros o Hrec Hcs; [done|].
  apply Forall_cons in Hcs as [Hc Hcs].
  change (replay o (c :: cs)) with (replay (clicked o c) cs).
  apply IH.
  - apply (wf_closed _ Hwf o Hrec). by apply elem_of_coordinates.
  - eapply Forall_impl; [exact Hcs|]. intros [x y] Hv.
    apply valid_coordinates_spec in Hv. by apply valid_coordinates_spec.
Qed.

(** X21: when [find_solution] returns [None], the query has no solution: no
    sequence of clicks on the grid turns the queried board into the board
    with all lights on. *)
Theorem find_solution_None_unsolvable (st st1 : State) (fuel : nat) (q : loc)
    (this : BoardState) (cs : list Coordinates) :
  reachable st → heap st !! q = Some this →
  find_solution fuel q st = (Ok None, st1) →
  Forall (λ c, valid_coordinates this c = true) cs →
  BoardState_eq (replay this cs) (solved (width this) (height this)) = false.
Proof.
  intros Hreach Hq Hrun Hcs.
  destruct (find_board_solution_run st q this (reachable_wf _ Hreach) Hq)
    as (N & st1' & r0 & Hrun0 & Hwf1 & Hext & Hans).
  assert (fuel ≤ N `max` fuel)%nat as Hle by lia.
  assert (N ≤ N `max` fuel)%nat as HN by lia.
  assert (Ok (@None (list loc)) ≠ OutOfFuel) as Hok by done.
  pose proof (steady_find_solution q _ _ _ _ _ Hrun Hok Hle) as Hmore.
  cbv beta in Hmore.
  rewrite (find_solution_unfold _ _ _ _ _ (Hrun0 _ HN)) in Hmore.
  destruct r0 as [cur| |]; [|done..].
  assert (cur = None) as ->.
  { destruct cur as [l|]; [exfalso|done].
    destruct Hans as [[[= Hl] _]|[[=] _]].
    destruct (wf_entries _ Hwf1 _ _ (eq_sym Hl)) as (o & Ho & _).
    destruct (walk_solution_run st1' (N `max` fuel + S l) l []
                (wf_links _ Hwf1)) as [rest Hwalk]; [by eexists|lia|].
    assert (N `max` fuel ≤ N `max` fuel + S l)%nat as Hle' by lia.
    assert (bind (walk_solution (N `max` fuel) (Some l) [])
                 (λ lst, ret (or_None lst)) st1' = (Ok None, st1)) as Hb
      by exact Hmore.
    unfold bind in Hb.
    destruct (walk_solution (N `max` fuel) (Some l) [] st1')
      as [[lst| |] st1''] eqn:Hw; [|done..].
    assert (Ok lst ≠ OutOfFuel) as Hok' by done.
    pose proof (steady_walk_solution (Some l) [] _ _ _ _ _ Hw Hok' Hle') as Hw'.
    cbv beta in Hw'. rewrite Hwalk in Hw'. injection Hw' as <- _.
    by destruct rest. }
  destruct Hans as [[[= Hnone] Hans]|[[=] _]].
  destruct Hans as [[l Hl]|(Hw & Hh & Hsolved)]; [congruence|].
  destruct (BoardState_eq _ _) eqn:Heq; [exfalso|done].
  apply BoardState_eq_spec in Heq as (Hw' & Hh' & Hb').
  assert (key (replay this cs) = key (solved (width this) (height this)))
    as Hkey by (by apply key_dims).
  assert (recorded st1' (key this)) as [l Hl]; [|congruence].
  rewrite <- (replay_rev this cs).
  rewrite (replay_key _ _ _ Hkey).
  apply recorded_replay; [done|done|].
  apply Forall_rev. eapply Forall_impl; [exact Hcs|]. intros [x y] Hv.
  apply valid_coordinates_spec in Hv. by apply valid_coordinates_spec.
Qed.

Lemma reachable_exhausted_2x1 : reachable exhausted_2x1.
Proof.
  change (reachable
            (snd (make_board 2 1 1
                    (snd (find_solution 10 0%nat
                            (snd (make_board 2 1 0 initial_state))))))).
  apply reachable_make_board.
  apply reachable_find_solution;
    [apply reachable_make_board, reachable_initial|by vm_compute].
Qed.

Lemma find_solution_None_unsolvable_witness :
  BoardState_eq
    (replay (mkBoardState 2 1 None None None 1) [(0, 0); (1, 0)])
    (solved 2 1) = false.
Proof.
  apply (find_solution_None_unsolvable exhausted_2x1
           (snd (find_solution 10 8%nat exhausted_2x1)) 10 8%nat
           (mkBoardState 2 1 None None None 1) [(0, 0); (1, 0)]).
  - apply reachable_exhausted_2x1.
  - by vm_compute.
  - by vm_compute.
  - repeat constructor.
Defined.

(** ** The fewest clicks *)

Lemma steps_at_Some (st : State) (k : string) (t : Z) :
  steps_at st k = Some t ↔
  ∃ l o, discovered_boards st !! k = Some l ∧ heap st !! l = Some o ∧
         steps_from_solution o = Some t.
Proof.
  unfold steps_at. split.
  - destruct (discovered_boards st !! k) as [l|]; [|done].
    destruct (heap st !! l) as [o|] eqn:Ho; [|done]. intros Hs. by exists l, o.
  - intros (l & o & -> & -> & Hs). done.
Qed.

Lemma steps_at_recorded (st : State) (k : string) (t : Z) :
  steps_at st k = Some t → recorded st k.
Proof. intros (l & _ & Hl & _)%steps_at_Some. by exists l. Qed.

Lemma recorded_steps_at (st : State) (k : string) :
  entries_ok st → recorded st k → is_Some (steps_at st k).
Proof.
  intros Hent [l Hl]. destruct (Hent k l Hl) as (o & Ho & _ & [t Ht]).
  exists t. apply steps_at_Some. by exists l, o.
Qed.

Global Instance grows_preorder : PreOrder grows.
Proof.
  split.
  - intros st. by split_and!.
  - intros st1 st2 st3 (Hh1 & Hd1 & Hq1) (Hh2 & Hd2 & Hq2).
    split_and!; [by etrans|auto|by etrans].
Qed.

Lemma steps_at_grows (st st' : State) (k : string) (t : Z) :
  grows st st' → steps_at st k = Some t → steps_at st' k = Some t.
Proof.
  intros (Hh & Hd & _) (l & o & Hl & Ho & Hs)%steps_at_Some.
  apply steps_at_Some. exists l, o.
  split_and!; [by apply Hd|by eapply prefix_lookup_Some|done].
Qed.

Lemma near_grows (st st' : State) (o : BoardState) (t : Z) :
  grows st st' → near st o t → near st' o t.
Proof.
  intros Hg Hnear c Hc. destruct (Hnear c Hc) as (t' & Ht' & Hle).
  exists t'. split; [by eapply steps_at_grows|done].
Qed.

Lemma near_key (st : State) (o o' : BoardState) (t : Z) :
  key o = key o' → near st o t → near st o' t.
Proof.
  intros Hk Hnear c Hc. rewrite <- (key_clicked o o') by done. apply Hnear.
  apply key_inj in Hk as (Hw & Hh & _). by rewrite (coordinates_dims o o').
Qed.

Lemma has_steps_grows (st st' : State) (w h t : Z) (l : loc) :
  heap st `prefix_of` heap st' → has_steps st w h t l → has_steps st' w h t l.
Proof.
  intros Hh (o & Ho & Hrest). exists o. split; [|done].
  by eapply prefix_lookup_Some.
Qed.

Lemma waiting_grows (st st' : State) (cur : option loc) (o : BoardState)
    (t : Z) :
  grows st st' → waiting st cur o t → waiting st' cur o t.
Proof.
  intros (Hh & _ & Hq) (l & o' & Hl & Ho' & Hrest). exists l, o'.
  split_and!; [|by eapply prefix_lookup_Some|apply Hrest..].
  destruct Hl as [Hl|Hl]; [left; by apply Hq|by right].
Qed.

Lemma recorded_grows (st st' : State) (k : string) :
  grows st st' → recorded st k → recorded st' k.
Proof. intros (_ & Hd & _) [l Hl]. exists l. by apply Hd. Qed.

(** A new object, with nothing recorded. *)
Lemma grows_snoc (st : State) (x : BoardState) :
  grows st (set_heap (heap st ++ [x]) st).
Proof. split_and!; simpl; [by apply prefix_app_r|done|done]. Qed.

Lemma steps_at_snoc (st : State) (x : BoardState) (k : string) :
  entries_ok st → steps_at (set_heap (heap st ++ [x]) st) k = steps_at st k.
Proof.
  intros Hent. unfold steps_at; simpl.
  destruct (discovered_boards st !! k) as [l|] eqn:Hl; [|done].
  destruct (Hent k l Hl) as (o & Ho & _).
  by rewrite (lookup_app_l_Some _ _ _ _ Ho), Ho.
Qed.

Lemma levels_snoc (w h s : Z) (cur : option loc) (st : State)
    (x : BoardState) :
  is_Some (steps_from_solution x) →
  levels w h s cur st → levels w h s cur (set_heap (heap st ++ [x]) st).
Proof.
  intros Hx [Hent Hbound Hqueue Hcur Hstatus Hroot Hsolved].
  pose proof (grows_snoc st x) as Hg.
  assert (heap st `prefix_of` heap (set_heap (heap st ++ [x]) st)) as Hh
    by apply Hg.
  split.
  - apply (entries_ok_snoc st x); [done|done|by left].
  - intros o t Hw Hh'. rewrite steps_at_snoc by done. by apply Hbound.
  - destruct Hqueue as (qa & qb & Hq & Hqa & Hqb). exists qa, qb.
    split_and!; [done|..]; (eapply Forall_impl; [done|]); intros l;
      by apply has_steps_grows.
  - intros l Hl. by eapply has_steps_grows, Hcur.
  - intros o t. rewrite steps_at_snoc by done. intros Ho.
    destruct (Hstatus o t Ho); [left; by eapply near_grows|
                                right; by eapply waiting_grows].
  - intros w' h' Hrec. destruct (Hroot w' h' Hrec); [by left|].
    right. by eapply near_grows.
  - intros o Hrec. exact (Hsolved o Hrec).
Qed.

(** A new board of the next level is recorded and queued. *)
Lemma grows_new (st : State) (x : BoardState) :
  discovered_boards st !! key x = None →
  grows st
    (mkState (heap st ++ [x])
       (<[key x := length (heap st)]> (discovered_boards st))
       (board_processing_queue st ++ [length (heap st)])).
Proof.
  intros Hnone. split_and!; simpl.
  - by apply prefix_app_r.
  - intros k l Hl. rewrite lookup_insert_ne; [done|]. intros <-. congruence.
  - by apply list_subseteq_app_l.
Qed.

Lemma steps_at_new (st : State) (x : BoardState) (q : list loc) (k : string) :
  entries_ok st →
  steps_at
    (mkState (heap st ++ [x])
       (<[key x := length (heap st)]> (discovered_boards st)) q) k
  = if decide (k = key x) then steps_from_solution x else steps_at st k.
Proof.
  intros Hent. unfold steps_at; simpl. case_decide as Hk.
  - subst k. by rewrite lookup_insert_eq, list_lookup_middle.
  - rewrite lookup_insert_ne by done.
    destruct (discovered_boards st !! k) as [l|] eqn:Hl; [|done].
    destruct (Hent k l Hl) as (o & Ho & _).
    by rewrite (lookup_app_l_Some _ _ _ _ Ho), Ho.
Qed.

Lemma levels_new (w h s : Z) (cur : option loc) (st : State)
    (x : BoardState) :
  discovered_boards st !! key x = None →
  width x = w → height x = h → steps_from_solution x = Some (s + 1) →
  levels w h s cur st →
  levels w h s cur
    (mkState (heap st ++ [x])
       (<[key x := length (heap st)]> (discovered_boards st))
       (board_processing_queue st ++ [length (heap st)])).
Proof.
  intros Hnone Hw Hh Hs [Hent Hbound Hqueue Hcur Hstatus Hroot Hsolved].
  pose proof (grows_new st x Hnone) as Hg.
  set (st' := mkState _ _ _) in *.
  assert (heap st `prefix_of` heap st') as Hpre by apply Hg.
  assert (has_steps st' w h (s + 1) (length (heap st))) as Hx.
  { exists x. split_and!; [by apply list_lookup_middle|done..]. }
  split.
  - apply (entries_ok_snoc st x); [done|by eexists|by right].
  - intros o t Hw' Hh'. unfold st'. rewrite steps_at_new by done.
    case_decide; [|by apply Hbound]. rewrite Hs. intros [= <-]. lia.
  - destruct Hqueue as (qa & qb & Hq & Hqa & Hqb).
    exists qa, (qb ++ [length (heap st)]).
    split_and!; [simpl; by rewrite Hq, app_assoc| |].
    + eapply Forall_impl; [done|]. intros l. by apply has_steps_grows.
    + apply Forall_app. split; [|by apply Forall_singleton].
      eapply Forall_impl; [done|]. intros l. by apply has_steps_grows.
  - intros l Hl. by eapply has_steps_grows, Hcur.
  - intros o t. unfold st' at 1. rewrite steps_at_new by done.
    case_decide as Hk.
    + intros [Ho|Ho].
      * right. exists (length (heap st)), x. rewrite Hs in Ho.
        injection Ho as <-.
        split_and!; [left; simpl; apply elem_of_app; right;
                     by apply list_elem_of_singleton
                    |by apply list_lookup_middle|by symmetry|done].
      * destruct (Hstatus o t (or_intror Ho));
          [left; by eapply near_grows|right; by eapply waiting_grows].
    + intros Ho. destruct (Hstatus o t Ho);
        [left; by eapply near_grows|right; by eapply waiting_grows].
  - intros w' h' Hrec.
    apply (recorded_insert st _ _ (key x)) in Hrec as [Hk|Hrec].
    + left. apply key_inj in Hk as (Hw' & Hh' & _). simpl in *. lia.
    + destruct (Hroot w' h' Hrec); [by left|]. right. by eapply near_grows.
  - intros o Hrec.
    apply (recorded_insert st _ _ (key x)) in Hrec as [Hk|Hrec].
    + left. apply key_inj in Hk as (Hw' & Hh' & _). lia.
    + destruct (Hsolved o Hrec) as [?|Hrec']; [by left|]. right.
      by eapply recorded_grows.
Qed.

(** One coordinate of the board being expanded: the neighbour is recorded
    at the next level, or was recorded no further away already; no entry is
    replaced. *)
Lemma levels_coordinate (w h s : Z) (l : loc) (o : BoardState)
    (c : Coordinates) (st : State) :
  levels w h s (Some l) st → heap st !! l = Some o →
  ∃ st', process_coordinate l c st = (Ok tt, st') ∧
    levels w h s (Some l) st' ∧ grows st st' ∧
    ∃ t', steps_at st' (key (clicked o c)) = Some t' ∧ t' ≤ s + 1.
Proof.
  intros Hlv Hl.
  destruct (lv_cur _ _ _ _ _ Hlv l eq_refl) as (o' & Ho' & Hw & Hh & Hs).
  simplify_eq.
  rewrite (process_coordinate_run _ _ _ _ Hl). unfold process_coordinate_spec.
  rewrite Hs. set (pnb := potential o l c s).
  destruct (discovered_boards st !! key pnb) as [e|] eqn:Hd.
  - destruct (lv_entries _ _ _ _ _ Hlv _ _ Hd) as (eo & He & _ & [es Hes]).
    rewrite (lookup_app_l_Some _ _ _ _ He), Hes.
    assert (steps_at st (key pnb) = Some es) as Hat.
    { apply steps_at_Some. by exists e, eo. }
    assert (es ≤ s + 1) as Hle by (by eapply (lv_bound _ _ _ _ _ Hlv pnb)).
    assert ((es >? s + 1) = false) as -> by lia.
    eexists. split_and!; [done| |apply grows_snoc|].
    + apply levels_snoc; [by eexists|done].
    + exists es. split; [|done].
      rewrite steps_at_snoc by apply Hlv. done.
  - eexists. split_and!; [done| |by apply grows_new|].
    + by apply levels_new.
    + exists (s + 1). split; [|lia].
      refine (eq_trans (steps_at_new st pnb _ _ (lv_entries _ _ _ _ _ Hlv)) _).
      by rewrite decide_True.
Qed.

Lemma levels_coordinates (w h s : Z) (l : loc) (o : BoardState)
    (cs : list Coordinates) (st : State) :
  levels w h s (Some l) st → heap st !! l = Some o →
  ∃ st', for_each cs (process_coordinate l) st = (Ok tt, st') ∧
    levels w h s (Some l) st' ∧ grows st st' ∧
    ∀ c, c ∈ cs →
      ∃ t', steps_at st' (key (clicked o c)) = Some t' ∧ t' ≤ s + 1.
Proof.
  revert st. induction cs as [|c cs IH]; intros st Hlv Hl.
  - exists st. split_and!; [done|done|reflexivity|].
    intros c Hc. by apply elem_of_nil in Hc.
  - destruct (levels_coordinate w h s l o c st Hlv Hl)
      as (st1 & Hrun1 & Hlv1 & Hg1 & t1 & Ht1 & Hle1).
    destruct (IH st1 Hlv1) as (st2 & Hrun2 & Hlv2 & Hg2 & Hcs).
    { eapply prefix_lookup_Some; [done|apply Hg1]. }
    exists st2. split_and!; [|done|by etrans|].
    + simpl. by rewrite (bind_Ok _ _ _ _ _ Hrun1).
    + intros c' [->|Hc']%elem_of_cons; [|by apply Hcs].
      exists t1. split; [by eapply steps_at_grows|done].
Qed.

(** A whole board: afterwards it is done, every neighbour being recorded at
    most one step further away. *)
Lemma levels_board (w h s : Z) (l : loc) (st : State) :
  levels w h s (Some l) st →
  ∃ st', _process_board_state l st = (Ok tt, st') ∧
    levels w h s None st' ∧ grows st st'.
Proof.
  intros Hlv.
  destruct (lv_cur _ _ _ _ _ Hlv l eq_refl) as (o & Hl & Hw & Hh & Hs).
  destruct (levels_coordinates w h s l o (coordinates o) st Hlv Hl)
    as (st' & Hrun & [Hent Hbound Hqueue Hcur Hstatus Hroot Hsolved] & Hg
        & Hcs).
  exists st'. split_and!; [|split; try done|done].
  - unfold _process_board_state. run_deref Hl. done.
  - intros o' t Ho'.
    destruct (Hstatus o' t Ho') as [Hnear|(l' & o'' & Hl' & Ho'' & Hk & Ht)];
      [by left|].
    destruct Hl' as [Hl'|[= <-]]; [right; exists l', o''; by split_and!; [left|..]|].
    left. assert (heap st' !! l = Some o) as Hl1.
    { eapply prefix_lookup_Some; [done|apply Hg]. }
    assert (o'' = o) as -> by congruence.
    assert (t = s) as -> by congruence.
    apply (near_key st' o o' s Hk). exact Hcs.
Qed.

(** Taking the next board from the queue, the level may rise by one. *)
Lemma levels_pop (w h s : Z) (st : State) (l : loc) (rest : list loc) :
  levels w h s None st → board_processing_queue st = l :: rest →
  ∃ s', levels w h s' (Some l) (set_board_processing_queue rest st).
Proof.
  intros [Hent Hbound (qa & qb & Hq & Hqa & Hqb) Hcur Hstatus Hroot Hsolved]
    Hqueue.
  rewrite Hq in Hqueue.
  assert (∀ o t, near st o t ∨ waiting st None o t →
            near (set_board_processing_queue rest st) o t ∨
            waiting (set_board_processing_queue rest st) (Some l) o t)
    as Hwait.
  { intros o t [Hnear|(l' & o' & [Hl'|[=]] & Ho' & Hk & Ht)]; [by left|].
    right. exists l', o'. split_and!; [|done..].
    rewrite Hq, Hqueue in Hl'.
    apply elem_of_cons in Hl' as [->|Hl']; [by right|by left]. }
  destruct qa as [|l0 qa].
  - exists (s + 1). simpl in Hqueue. subst qb.
    apply Forall_cons in Hqb as [Hl Hrest]. split; try done.
    + intros o t Hw Hh Ht. specialize (Hbound o t Hw Hh Ht). lia.
    + exists rest, []. split_and!; [simpl; by rewrite app_nil_r|done|done].
    + by intros l' [= <-].
    + intros o t Ho. by apply Hwait, Hstatus.
  - exists s. injection Hqueue as -> <-.
    apply Forall_cons in Hqa as [Hl Hrest]. split; try done.
    + by exists qa, qb.
    + by intros l' [= <-].
    + intros o t Ho. by apply Hwait, Hstatus.
Qed.

(** The loop of [_find_board_solution]: it ends with every board done, and
    has replaced no entry of the dictionary. *)
Lemma levels_queue (w h : Z) (fuel : nat) (s : Z) (st st' : State) :
  levels w h s None st → process_queue fuel st = (Ok tt, st') →
  (∃ s', levels w h s' None st' ∧ board_processing_queue st' = []) ∧
  ∀ k l, discovered_boards st !! k = Some l →
    discovered_boards st' !! k = Some l.
Proof.
  revert s st. induction fuel as [|fuel IH]; intros s st Hlv Hrun.
  - destruct (board_processing_queue st) as [|l rest] eqn:Hq.
    + rewrite process_queue_nil in Hrun by done. injection Hrun as <-.
      split; [by exists s|done].
    + simpl in Hrun. unfold bind, gets in Hrun. by rewrite Hq in Hrun.
  - destruct (board_processing_queue st) as [|l rest] eqn:Hq.
    + rewrite process_queue_nil in Hrun by done. injection Hrun as <-.
      split; [by exists s|done].
    + rewrite (process_queue_cons _ _ _ _ Hq) in Hrun.
      destruct (levels_pop w h s st l rest Hlv Hq) as [s1 Hlv1].
      destruct (levels_board w h s1 l _ Hlv1)
        as (st2 & Hrun2 & Hlv2 & _ & Hd2 & _).
      rewrite (bind_Ok _ _ _ _ _ Hrun2) in Hrun.
      destruct (IH _ _ Hlv2 Hrun) as [Hdone Hd3].
      split; [done|]. intros k l' Hl'. by apply Hd3, Hd2.
Qed.

(** The state in which the loop starts: the solved board, at distance 0,
    alone in the queue, and nothing of its size recorded. *)
Lemma levels_start (w h : Z) (st : State) :
  solver_wf st → graded st →
  discovered_boards st !! key (solved w h) = None →
  levels w h 0 None
    (mkState (heap st ++ [solved w h]) (discovered_boards st)
       [length (heap st)]).
Proof.
  intros [Hq Hent Hlinks Hclosed] [Hnear Hroot Hsolved] Hnone.
  set (st' := mkState _ _ _).
  assert (grows st st') as Hg.
  { split_and!; simpl; [by apply prefix_app_r|done|].
    rewrite Hq. apply list_subseteq_nil. }
  assert (∀ k, steps_at st' k = steps_at st k) as Hat.
  { intros k. exact (steps_at_snoc st (solved w h) k Hent). }
  split.
  - apply entries_ok_snoc; [done|by eexists|by left].
  - intros o t Hw Hh Ht. rewrite Hat in Ht.
    apply steps_at_recorded, Hsolved in Ht as [l Hl]. congruence.
  - exists [length (heap st)], []. split_and!; [done| |done].
    apply Forall_singleton. exists (solved w h).
    split_and!; [by apply list_lookup_middle|done..].
  - intros l [=].
  - intros o t [Ho|[Ho ->]].
    + left. rewrite Hat in Ho. eapply near_grows; [done|]. by apply Hnear.
    + right. exists (length (heap st)), (solved w h).
      split_and!; [left; by apply list_elem_of_singleton
                  |by apply list_lookup_middle|done|done].
  - intros w' h' Hrec. right. eapply near_grows; [done|]. by apply Hroot.
  - intros o Hrec. right. by apply Hsolved.
Qed.

(** When the queue is empty every board recorded is done. *)
Lemma levels_done (w h s : Z) (st : State) :
  0 < w → 0 < h →
  levels w h s None st → board_processing_queue st = [] → graded st.
Proof.
  intros Hw Hh [Hent Hbound Hqueue Hcur Hstatus Hroot Hsolved] Hq.
  assert (∀ o t,
            steps_at st (key o) = Some t ∨ (key o = key (solved w h) ∧ t = 0) →
            near st o t) as Hnear.
  { intros o t Ho.
    destruct (Hstatus o t Ho) as [?|(l & _ & [Hl|[=]] & _)]; [done|].
    rewrite Hq in Hl. by apply elem_of_nil in Hl. }
  assert (recorded st (key (solved w h))) as Hrec.
  { destruct (Hnear (solved w h) 0 (or_intror (conj eq_refl eq_refl)) (0, 0))
      as (t1 & Ht1 & _); [by apply origin_in_coordinates|].
    destruct (Hnear _ _ (or_introl Ht1) (0, 0)) as (t2 & Ht2 & _);
      [by apply origin_in_coordinates|].
    rewrite key_clicked_twice in Ht2. by eapply steps_at_recorded. }
  split.
  - intros o t Ho. apply Hnear. by left.
  - intros w' h' Hrec'. destruct (Hroot w' h' Hrec') as [[-> ->]|?]; [|done].
    apply Hnear. by right.
  - intros o Ho. destruct (Hsolved o Ho) as [[-> ->]|?]; done.
Qed.

Lemma graded_snoc (st : State) (x : BoardState) :
  entries_ok st → graded st → graded (set_heap (heap st ++ [x]) st).
Proof.
  intros Hent [Hnear Hroot Hsolved].
  pose proof (grows_snoc st x) as Hg. split.
  - intros o t. rewrite steps_at_snoc by done. intros Ho.
    eapply near_grows; [done|]. by apply Hnear.
  - intros w h Hrec. eapply near_grows; [done|]. by apply Hroot.
  - intros o Hrec. by apply Hsolved.
Qed.

Lemma graded_initial : graded initial_state.
Proof.
  assert (∀ k, ¬ recorded initial_state k) as Hnone.
  { intros k [l Hl]. apply (lookup_empty_Some (M := gmap string) k l).
    exact Hl. }
  split.
  - intros o t Ho%steps_at_recorded. by apply Hnone in Ho.
  - intros w h Hrec. by apply Hnone in Hrec.
  - intros o Hrec. by apply Hnone in Hrec.
Qed.

(** [_find_board_solution] keeps the distances graded, whichever way it
    ends, and replaces no entry of the dictionary. *)
Lemma find_board_solution_graded (fuel : nat) (q : loc) (st st1 : State)
    (r : result (option loc)) :
  solver_wf st → graded st →
  _find_board_solution fuel q st = (r, st1) → r ≠ OutOfFuel →
  graded st1 ∧
  ∀ k l, discovered_boards st !! k = Some l →
    discovered_boards st1 !! k = Some l.
Proof.
  intros Hwf Hgr Hrun Hr.
  destruct (heap st !! q) as [this|] eqn:Hq; last first.
  { unfold _find_board_solution, bind, deref in Hrun. rewrite Hq in Hrun.
    by injection Hrun as _ <-. }
  destruct (discovered_boards st !! key this) as [l|] eqn:Hd.
  { rewrite (find_board_solution_found _ _ _ _ _ Hq Hd) in Hrun.
    by injection Hrun as _ <-. }
  destruct (decide (0 < width this ∧ 0 < height this)) as [[Hw Hh]|Hwh];
    last first.
  { rewrite (find_board_solution_no_cells _ _ _ _ Hq Hd Hwh) in Hrun.
    injection Hrun as _ <-. split; [|done].
    apply graded_snoc; [apply Hwf|done]. }
  destruct (discovered_boards st !! key (solved (width this) (height this)))
    as [ls|] eqn:Hs.
  { rewrite (find_board_solution_exhausted _ _ _ _ _ Hq Hw Hh Hd Hs) in Hrun.
    injection Hrun as _ <-. split; [|done].
    apply graded_snoc; [apply Hwf|done]. }
  assert (0 ≤ width this * height this) as Hn by nia.
  pose proof (searching_start _ _ st Hn Hwf) as Hstart.
  destruct (process_queue_run _ _ _ _ Hn Hstart (le_n _))
    as (st2 & Hrun2 & Hsr2 & Hq2 & Hext2 & Hrec2).
  set (n := work _ _ _) in Hrun2.
  assert (heap st `prefix_of` heap st2) as Hext.
  { etrans; [|exact Hext2]. simpl. by apply prefix_app_r. }
  assert (n ≤ n `max` fuel)%nat as Hn' by lia.
  pose proof (find_board_solution_search (n `max` fuel) st st2 q this Hq Hw Hh
                (wf_queue _ Hwf) Hd Hs (Hrun2 _ Hn') Hext) as Hrun'.
  pose proof (steady_find_board_solution q fuel (n `max` fuel)%nat st r st1
                Hrun Hr ltac:(lia)) as Hmore.
  cbv beta in Hmore. rewrite Hrun' in Hmore. injection Hmore as _ <-.
  destruct (levels_queue _ _ _ _ _ _ (levels_start _ _ st Hwf Hgr Hs)
              (Hrun2 _ (le_n _))) as [(s' & Hlv & Hnil) Hkeep].
  split; [exact (levels_done _ _ _ _ Hw Hh Hlv Hnil)|exact Hkeep].
Qed.

Lemma find_solution_graded (fuel : nat) (q : loc) (st : State) :
  solver_wf st → graded st → fst (find_solution fuel q st) ≠ OutOfFuel →
  graded (snd (find_solution fuel q st)) ∧
  ∀ k l, discovered_boards st !! k = Some l →
    discovered_boards (snd (find_solution fuel q st)) !! k = Some l.
Proof.
  intros Hwf Hgr Hr.
  destruct (_find_board_solution fuel q st) as [r st1] eqn:Hrun.
  rewrite (find_solution_unfold _ _ _ _ _ Hrun) in *.
  assert (r ≠ OutOfFuel) as Hr1 by (by intros ->).
  pose proof (find_board_solution_graded _ _ _ _ _ Hwf Hgr Hrun Hr1) as Hgr1.
  destruct r as [cur| |]; [|done..].
  unfold bind.
  pose proof (walk_solution_state fuel cur [] st1) as Hstate.
  destruct (walk_solution fuel cur [] st1) as [[lst| |] st1']; simpl in *;
    by subst.
Qed.

Lemma reachable_graded (st : State) : reachable st → graded st.
Proof.
  induction 1 as [|st w h b Hreach IH|st fuel q Hreach IH Hr].
  - apply graded_initial.
  - rewrite make_board_run. apply graded_snoc; [|done].
    by apply reachable_wf.
  - apply find_solution_graded; [by apply reachable_wf|done..].
Qed.

(** X22: a call of [find_solution] replaces no entry of the dictionary:
    whatever it finds under a key when it is called is there when it
    returns, the same object with the same attributes.  The branch of
    [_process_board_state] that puts a better board in the place of a
    recorded one never applies to such an entry. *)
Theorem find_solution_replaces_no_entry (st : State) (fuel : nat) (q : loc)
    (k : string) (l : loc) :
  reachable st → fst (find_solution fuel q st) ≠ OutOfFuel →
  discovered_boards st !! k = Some l →
  discovered_boards (snd (find_solution fuel q st)) !! k = Some l ∧
  heap (snd (find_solution fuel q st)) !! l = heap st !! l.
Proof.
  intros Hreach Hr Hl.
  pose proof (reachable_wf _ Hreach) as Hwf.
  destruct (find_solution_graded fuel q st Hwf (reachable_graded _ Hreach) Hr)
    as [_ Hkeep].
  split; [by apply Hkeep|].
  destruct (wf_entries _ Hwf k l Hl) as (o & Ho & _). rewrite Ho.
  eapply prefix_lookup_Some; [done|]. apply heap_extends_find_solution.
Qed.

Lemma find_solution_replaces_no_entry_witness :
  discovered_boards
    (snd (find_solution 10 5%nat (snd (make_board 2 1 0 searched_1x1))))
    !! "1:1:0"%string = Some 2%nat ∧
  heap (snd (find_solution 10 5%nat (snd (make_board 2 1 0 searched_1x1))))
    !! 2%nat
  = heap (snd (make_board 2 1 0 searched_1x1)) !! 2%nat.
Proof.
  apply (find_solution_replaces_no_entry
           (snd (make_board 2 1 0 searched_1x1)) 10 5%nat "1:1:0"%string).
  - apply reachable_make_board, reachable_searched_1x1.
  - by vm_compute.
  - by vm_compute.
Defined.


(** In a graded state, a board that [n] clicks on the grid turn into the
    solved board is the solved board or is recorded at a distance of at most
    [n]. *)
Lemma graded_distance (st : State) (w h : Z) (cs : list Coordinates) :
  graded st → recorded st (key (solved w h)) →
  ∀ b, width b = w → height b = h →
    Forall (λ c, valid_coordinates b c = true) cs →
    key (replay b cs) = key (solved w h) →
    key b = key (solved w h) ∨
    ∃ t, steps_at st (key b) = Some t ∧ t ≤ Z.of_nat (length cs).
Proof.
  intros [Hnear Hroot Hsolved] Hrec.
  induction cs as [|c cs IH]; intros b Hw Hh Hcs Hkey; [by left|].
  apply Forall_cons in Hcs as [Hc Hcs].
  change (replay b (c :: cs)) with (replay (clicked b c) cs) in Hkey.
  assert (key (clicked (clicked b c) c) = key b) as Hback
    by apply key_clicked_twice.
  assert (c ∈ coordinates (clicked b c)) as Hin.
  { rewrite (coordinates_dims _ b) by done. by apply elem_of_coordinates. }
  assert (Forall (λ c', valid_coordinates (clicked b c) c' = true) cs) as Hcs'.
  { eapply Forall_impl; [exact Hcs|]. intros [x y] Hv.
    apply valid_coordinates_spec in Hv. by apply valid_coordinates_spec. }
  right. destruct (IH (clicked b c) Hw Hh Hcs' Hkey) as [Hk|(t & Ht & Hle)].
  - pose proof (near_key st _ _ 0 (eq_sym Hk) (Hroot w h Hrec) c Hin)
      as (t' & Ht' & Hle').
    rewrite Hback in Ht'. exists t'. split; [done|]. simpl length. lia.
  - destruct (Hnear _ _ Ht c Hin) as (t' & Ht' & Hle').
    rewrite Hback in Ht'. exists t'. split; [done|]. simpl length. lia.
Qed.

(** X23: [find_solution] returns a solution with the fewest clicks, for
    every query but the board that is solved already: no sequence of clicks
    on the grid that turns the queried board into the board with all lights
    on is shorter than the list of clicks of the solution returned. *)
Theorem find_solution_fewest_clicks (st st1 : State) (fuel : nat) (q : loc)
    (this : BoardState) (path : list loc) (cs : list Coordinates) :
  reachable st → heap st !! q = Some this →
  find_solution fuel q st = (Ok (Some path), st1) →
  BoardState_eq this (solved (width this) (height this)) = false →
  Forall (λ c, valid_coordinates this c = true) cs →
  BoardState_eq (replay this cs) (solved (width this) (height this)) = true →
  (length (clicks_of st1 path) ≤ length cs)%nat.
Proof.
  intros Hreach Hq Hrun Hne Hcs Hsolves.
  assert (reachable st1) as Hreach1.
  { replace st1 with (snd (find_solution fuel q st)) by (by rewrite Hrun).
    apply reachable_find_solution; [done|]. by rewrite Hrun. }
  pose proof (reachable_graded _ Hreach1) as Hgr.
  destruct (find_solution_path _ _ _ _ _ _ Hreach Hq Hrun)
    as (l0 & o0 & rest & -> & Ho0 & Hk & Hpath).
  destruct (solution_path_replay _ _ _ _ Hpath Ho0) as [_ Hlen].
  pose proof (solution_path_steps _ _ Hpath 0%nat l0 o0 eq_refl Ho0) as Hs.
  rewrite Hlen.
  (* the board recorded for the query's key is the first of the list *)
  destruct (find_board_solution_run st q this (reachable_wf _ Hreach) Hq)
    as (N & st1' & r0 & Hrun0 & Hwf1 & Hext & Hans).
  assert (fuel ≤ N `max` fuel)%nat as Hle by lia.
  assert (N ≤ N `max` fuel)%nat as HN by lia.
  assert (Ok (Some (l0 :: rest)) ≠ OutOfFuel) as Hok by done.
  pose proof (steady_find_solution q _ _ _ _ _ Hrun Hok Hle) as Hmore.
  cbv beta in Hmore.
  rewrite (find_solution_unfold _ _ _ _ _ (Hrun0 _ HN)) in Hmore.
  destruct r0 as [cur| |]; [|done..]. unfold bind in Hmore.
  pose proof (walk_solution_state (N `max` fuel) cur [] st1') as Hstate.
  destruct (walk_solution (N `max` fuel) cur [] st1') as [[lst| |] st1'']
    eqn:Hwalk; [|done..].
  simpl in Hstate. subst st1''. unfold ret in Hmore.
  injection Hmore as Hlst <-.
  destruct cur as [l|]; last first.
  { rewrite walk_solution_None in Hwalk. by injection Hwalk as <-. }
  destruct Hans as [[[= Hl] _]|[[=] _]].
  destruct (wf_entries _ Hwf1 _ _ (eq_sym Hl)) as (o & Ho & Hko & Hso).
  destruct (walk_solution_path _ _ _ _ _ _ _
              (reachable_annotations _ Hreach1) Ho Hso Hwalk)
    as (rest' & -> & _).
  simpl in Hlst. injection Hlst as -> ->.
  assert (o = o0) as -> by congruence.
  assert (steps_at st1' (key this) = Some (Z.of_nat (length rest))) as Hat.
  { apply steps_at_Some. exists l0, o0. split_and!; [done|done|].
    rewrite Hs. f_equal. simpl. lia. }
  apply BoardState_eq_spec in Hsolves as (Hw' & Hh' & Hb').
  destruct (graded_distance st1' (width this) (height this) cs Hgr) with this
    as [Hsame|(t & Ht & Hle')]; [|done|done|done|by apply key_dims| |].
  - apply (gr_solved _ Hgr this). by eapply steps_at_recorded.
  - apply key_inj in Hsame as (_ & _ & Hb).
    assert (BoardState_eq this (solved (width this) (height this)) = true)
      as Heq by (by apply BoardState_eq_spec).
    congruence.
  - rewrite Hat in Ht. injection Ht as <-. lia.
Qed.

Lemma find_solution_fewest_clicks_witness :
  (length (clicks_of searched_1x1 [2%nat; 1%nat])
   ≤ length [(0%Z, 0%Z); (0%Z, 0%Z); (0%Z, 0%Z)])%nat.
Proof.
  apply (find_solution_fewest_clicks
           (snd (make_board 1 1 0 initial_state)) searched_1x1 10 0%nat
           (mkBoardState 1 1 None None None 0)).
  - apply reachable_make_board, reachable_initial.
  - reflexivity.
  - by vm_compute.
  - by vm_compute.
  - repeat constructor.
  - by vm_compute.
Defined.
